(** * embedding-engine.js : the semantic-graph engine (class WordEmbeddingVisualization)

    A shallow embedding of the parts of [WordEmbeddingVisualization] that
    build the graph, normalise the coordinates and drive the hover / search
    highlighting, followed by the properties established for them.

    Conventions of the embedding.
    - JavaScript numbers that only ever hold literals, sums and products of
      finite values (similarity scores, opacities, scales) are rationals
      ([Q]); arithmetic on them is exact, i.e. binary64 rounding is not
      modelled.
    - Coordinates go through [normalizeData], which starts from [Infinity]
      and divides.  In the engine state they are [num]: a rational or one of
      the three IEEE special values, with the IEEE rules for the special
      values and exact arithmetic on the rationals; this is enough for what
      is stated about the scene (which spheres, lines and signals exist, and
      how [NaN] spreads).
    - What [normalizeData] computes is stated on [normalizeData64], the same
      method on binary64 ([float], with the rounding, the overflow and the
      two zeros of IEEE 754); [valueOf] gives the number a binary64 value
      stands for.
    - Strings are Rocq strings over ASCII; [toLowerCase] folds the letters
      A-Z only.
    - [this.highlightedWords] is a [gset string]; the [userData] objects of
      lines and sprites are [gmap string string], so that reading a key that
      was never written yields [None], the model of [undefined].
    - The instance fields that the modelled methods read or write are
      gathered in the record [Engine]; a method is a function on [Engine]
      that returns the new state and how the call completed ([Normal] or
      [Throw]).  Positions of spheres and sprites, the decorative scenery
      and the per-signal progress are not part of [Engine]. *)

From Stdlib Require Import QArith Qpower Lqa ZArith String Ascii List Bool Lia Floats.
From stdpp Require Import base gmap sets list strings.
Import ListNotations.

Local Open Scope Q_scope.

(** ** Numbers *)

(** [a < b] on finite numbers. *)
Definition Qltb (a b : Q) : bool :=
  match a ?= b with Lt => true | _ => false end.

(** A JavaScript number as [normalizeData] needs it. *)
Inductive num : Type :=
| Fin (q : Q)
| PInf
| NInf
| NaN.

Record Vec3 : Type := mkVec3 { vx : num; vy : num; vz : num }.

(** ** The dataset (embedding-data.json, field [words]) *)

(** One entry of [data.words] that follows the schema of the data file: a
    string [word], a [position] with three numbers, and, where they are
    present, an array of strings [categories] and an array [similar_words] of
    [[name, score]] pairs with a string and a number.  [categories] and
    [similar_words] may be absent from the JSON object: the code reads them
    as [wordObj.categories || []] and [wordObj.similar_words || []] where it
    allows for that, and [None] is the absent ([undefined]) field.  Entries
    outside the schema (no [position], a similarity entry without a name) are
    not represented. *)
Record WordObj : Type := mkWordObj {
  word : string;
  position : Vec3;
  categories : option (list string);
  similar_words : option (list (string * Q))
}.

(** [x || []] *)
Definition orEmpty {A} (x : option (list A)) : list A :=
  match x with Some l => l | None => [] end.

(** ** Renderables *)

(** [new THREE.Color(0x25D366).multiplyScalar(k)]; [Glow 1] is the plain
    colour that [color.set(0x25D366)] stores. *)
Inductive LineColor : Type := Glow (k : Z).

(** A [THREE.Line] of [this.connections]. *)
Record Line : Type := mkLine {
  line_userData : gmap string string;
  line_points : Vec3 * Vec3;
  line_color : LineColor;
  line_opacity : Q;
  line_linewidth : option Z
}.

(** [this.wordData.find(w => w.word === name)] *)
Definition findWord (wordData : list WordObj) (name : string) : option WordObj :=
  List.find (fun w => String.eqb (word w) name) wordData.

(** The line that the body of the inner loop of [createSemanticConnections]
    constructs. *)
Definition newConnection (wordObj target : WordObj) (name : string) : Line :=
  {| line_userData := <["target" := name]> (<["source" := word wordObj]> ∅);
     line_points := (position wordObj, position target);
     line_color := Glow 15;
     line_opacity := 8 # 10;
     line_linewidth := None |}.

(** The inner loop of [createSemanticConnections] for one [wordObj]:
    [similar.slice(0, 2).forEach(([name, score]) => ...)], returning the
    lines it pushes, in order. *)
Definition connectionsFor (threshold : Q) (wordData : list WordObj)
    (wordObj : WordObj) : list Line :=
  flat_map
    (fun '(name, score) =>
       if Qltb score threshold then []
       else match findWord wordData name with
            | None => []
            | Some target => [newConnection wordObj target name]
            end)
    (firstn 2 (orEmpty (similar_words wordObj))).

(** The lines pushed onto [this.connections] by the outer loop. *)
Definition semanticConnections (threshold : Q) (wordData : list WordObj) : list Line :=
  flat_map (connectionsFor threshold wordData) wordData.

(** [line.userData.source] and [line.userData.target] *)
Definition line_source (l : Line) : option string := line_userData l !! "source".
Definition line_target (l : Line) : option string := line_userData l !! "target".

(** ** Arithmetic on [num]

    The finite case is exact; a finite zero stands for [+0], which is the
    only zero the divisions of [normalizeData] can meet ([x - x] and
    [Math.max] of such differences). *)

Definition num_neg (a : num) : num :=
  match a with
  | Fin q => Fin (- q)
  | PInf => NInf
  | NInf => PInf
  | NaN => NaN
  end.

Definition num_add (a b : num) : num :=
  match a, b with
  | NaN, _ | _, NaN => NaN
  | PInf, NInf | NInf, PInf => NaN
  | PInf, _ | _, PInf => PInf
  | NInf, _ | _, NInf => NInf
  | Fin x, Fin y => Fin (x + y)
  end.

Definition num_sub (a b : num) : num := num_add a (num_neg b).

(** The infinity whose sign is that of [s * q], [NaN] when [q] is zero. *)
Definition inf_times (s : num) (q : Q) : num :=
  match q ?= 0 with
  | Eq => NaN
  | Gt => s
  | Lt => num_neg s
  end.

Definition num_mul (a b : num) : num :=
  match a, b with
  | NaN, _ | _, NaN => NaN
  | Fin x, Fin y => Fin (x * y)
  | Fin x, s => inf_times s x
  | s, Fin y => inf_times s y
  | PInf, PInf | NInf, NInf => PInf
  | PInf, NInf | NInf, PInf => NInf
  end.

Definition num_div (a b : num) : num :=
  match a, b with
  | NaN, _ | _, NaN => NaN
  | Fin x, Fin y =>
      match y ?= 0 with
      | Eq => inf_times PInf x
      | _ => Fin (x / y)
      end
  | Fin _, _ => Fin 0
  | s, Fin y => match y ?= 0 with Lt => num_neg s | _ => s end
  | _, _ => NaN
  end.

(** [Math.min(a, b)] and [Math.max(a, b)]: [NaN] as soon as an argument is. *)
Definition Math_min (a b : num) : num :=
  match a, b with
  | NaN, _ | _, NaN => NaN
  | NInf, _ | _, NInf => NInf
  | PInf, x | x, PInf => x
  | Fin x, Fin y => if Qltb y x then Fin y else Fin x
  end.

Definition Math_max (a b : num) : num :=
  match a, b with
  | NaN, _ | _, NaN => NaN
  | PInf, _ | _, PInf => PInf
  | NInf, x | x, NInf => x
  | Fin x, Fin y => if Qltb x y then Fin y else Fin x
  end.

(** [Math.max(a, b, c)] *)
Definition Math_max3 (a b c : num) : num := Math_max (Math_max a b) c.

(** ** normalizeData *)

(** The six accumulators of the first loop. *)
Record Bounds : Type := mkBounds {
  minX : num; minY : num; minZ : num;
  maxX : num; maxY : num; maxZ : num
}.

(** One iteration of the first [words.forEach]. *)
Definition growBounds (b : Bounds) (w : WordObj) : Bounds :=
  {| minX := Math_min (minX b) (vx (position w));
     minY := Math_min (minY b) (vy (position w));
     minZ := Math_min (minZ b) (vz (position w));
     maxX := Math_max (maxX b) (vx (position w));
     maxY := Math_max (maxY b) (vy (position w));
     maxZ := Math_max (maxZ b) (vz (position w)) |}.

(** The first loop, from [Infinity] / [-Infinity]. *)
Definition boundsOf (words : list WordObj) : Bounds :=
  fold_left growBounds words (mkBounds PInf PInf PInf NInf NInf NInf).

(** [center] *)
Definition centerOf (b : Bounds) : Vec3 :=
  {| vx := num_div (num_add (minX b) (maxX b)) (Fin 2);
     vy := num_div (num_add (minY b) (maxY b)) (Fin 2);
     vz := num_div (num_add (minZ b) (maxZ b)) (Fin 2) |}.

(** [Math.max(maxX-minX, maxY-minY, maxZ-minZ)] *)
Definition spanOf (b : Bounds) : num :=
  Math_max3 (num_sub (maxX b) (minX b)) (num_sub (maxY b) (minY b))
            (num_sub (maxZ b) (minZ b)).

(** [scale]; 500 is the target extent. *)
Definition scaleOf (b : Bounds) : num := num_div (Fin 500) (spanOf b).

Definition setPosition (w : WordObj) (p : Vec3) : WordObj :=
  {| word := word w; position := p;
     categories := categories w; similar_words := similar_words w |}.

(** One iteration of the second [words.forEach]. *)
Definition rescale (center : Vec3) (scale : num) (w : WordObj) : WordObj :=
  setPosition w
    {| vx := num_mul (num_sub (vx (position w)) (vx center)) scale;
       vy := num_mul (num_sub (vy (position w)) (vy center)) scale;
       vz := num_mul (num_sub (vz (position w)) (vz center)) scale |}.

(** [normalizeData(words)]: the array after the in-place update.  There is
    no [throw] and no test of the span in the method. *)
Definition normalizeData (words : list WordObj) : list WordObj :=
  let b := boundsOf words in
  let center := centerOf b in
  let scale := scaleOf b in
  map (rescale center scale) words.

(** ** normalizeData in binary64

    The same method on the numbers that JavaScript has: binary64, with its
    rounding, its overflow to the infinities and its two zeros.  Only the
    positions matter here, so the array is the list of the [position] fields
    of [words]. *)

(** [w.position] *)
Record Vec64 : Type := mkVec64 { x64 : float; y64 : float; z64 : float }.

(** [Math.min(a, b)]: [NaN] as soon as an argument is, and [-0] before [+0]. *)
Definition Math_min64 (a b : float) : float :=
  if is_nan a || is_nan b then nan
  else if (b <? a)%float then b
  else if (a <? b)%float then a
  else if get_sign a then a else b.

(** [Math.max(a, b)]: [NaN] as soon as an argument is, and [+0] after [-0]. *)
Definition Math_max64 (a b : float) : float :=
  if is_nan a || is_nan b then nan
  else if (a <? b)%float then b
  else if (b <? a)%float then a
  else if get_sign a then b else a.

(** [Math.max(a, b, c)] *)
Definition Math_max3_64 (a b c : float) : float := Math_max64 (Math_max64 a b) c.

Record Bounds64 : Type := mkBounds64 {
  minX64 : float; minY64 : float; minZ64 : float;
  maxX64 : float; maxY64 : float; maxZ64 : float
}.

(** One iteration of the first [words.forEach]. *)
Definition growBounds64 (b : Bounds64) (p : Vec64) : Bounds64 :=
  {| minX64 := Math_min64 (minX64 b) (x64 p);
     minY64 := Math_min64 (minY64 b) (y64 p);
     minZ64 := Math_min64 (minZ64 b) (z64 p);
     maxX64 := Math_max64 (maxX64 b) (x64 p);
     maxY64 := Math_max64 (maxY64 b) (y64 p);
     maxZ64 := Math_max64 (maxZ64 b) (z64 p) |}.

(** The first loop, from [Infinity] / [-Infinity]. *)
Definition boundsOf64 (ps : list Vec64) : Bounds64 :=
  fold_left growBounds64 ps
    (mkBounds64 infinity infinity infinity neg_infinity neg_infinity neg_infinity).

(** [center] *)
Definition centerOf64 (b : Bounds64) : Vec64 :=
  {| x64 := (minX64 b + maxX64 b) / 2;
     y64 := (minY64 b + maxY64 b) / 2;
     z64 := (minZ64 b + maxZ64 b) / 2 |}%float.

(** [Math.max(maxX-minX, maxY-minY, maxZ-minZ)] *)
Definition spanOf64 (b : Bounds64) : float :=
  Math_max3_64 (maxX64 b - minX64 b) (maxY64 b - minY64 b) (maxZ64 b - minZ64 b)%float.

(** [scale] *)
Definition scaleOf64 (b : Bounds64) : float := (500 / spanOf64 b)%float.

(** One iteration of the second [words.forEach]. *)
Definition rescale64 (center : Vec64) (scale : float) (p : Vec64) : Vec64 :=
  {| x64 := (x64 p - x64 center) * scale;
     y64 := (y64 p - y64 center) * scale;
     z64 := (z64 p - z64 center) * scale |}%float.

(** [normalizeData(words)] on the positions: the positions after the
    in-place update. *)
Definition normalizeData64 (ps : list Vec64) : list Vec64 :=
  let b := boundsOf64 ps in
  let center := centerOf64 b in
  let scale := scaleOf64 b in
  map (rescale64 center scale) ps.

(** ** Strings *)

(** [toLowerCase] on one character. *)
Definition lowerChar (c : ascii) : ascii :=
  let n := N_of_ascii c in
  if ((65 <=? n) && (n <=? 90))%N then ascii_of_N (n + 32) else c.

(** [s.toLowerCase()] *)
Fixpoint toLowerCase (s : string) : string :=
  match s with
  | EmptyString => EmptyString
  | String c s' => String (lowerChar c) (toLowerCase s')
  end.

(** [q] is read at the start of [s]. *)
Fixpoint startsWith (s q : string) : bool :=
  match q, s with
  | EmptyString, _ => true
  | String _ _, EmptyString => false
  | String c q', String d s' => Ascii.eqb c d && startsWith s' q'
  end.

(** [s.includes(q)] *)
Fixpoint includes (s q : string) : bool :=
  startsWith s q ||
  match s with
  | EmptyString => false
  | String _ s' => includes s' q
  end.

(** White space that [trim] removes, within ASCII. *)
Definition isSpace (c : ascii) : bool :=
  let n := N_of_ascii c in
  ((n =? 32) || ((9 <=? n) && (n <=? 13)))%N.

Fixpoint trimStart (s : string) : string :=
  match s with
  | EmptyString => EmptyString
  | String c s' => if isSpace c then trimStart s' else s
  end.

Fixpoint trimEnd (s : string) : string :=
  match s with
  | EmptyString => EmptyString
  | String c s' =>
      match trimEnd s' with
      | EmptyString => if isSpace c then EmptyString else String c EmptyString
      | t => String c t
      end
  end.

(** [s.trim()] *)
Definition trim (s : string) : string := trimEnd (trimStart s).

(** [!s] for a string: true for the empty string only. *)
Definition isEmpty (s : string) : bool :=
  match s with EmptyString => true | _ => false end.

(** ** Spheres and sprites *)

(** A sphere of [this.wordNodes]: [userData.word], [userData.categories],
    [material.emissiveIntensity], [material.opacity] and the uniform
    [scale]. *)
Record Node : Type := mkNode {
  node_word : string;
  node_categories : list string;
  node_emissiveIntensity : Q;
  node_opacity : Q;
  node_scale : Q
}.

(** A sprite of [this.wordLabels].  [createWordLabels] never writes its
    [userData], which stays the empty object of a new [THREE.Sprite]. *)
Record Label : Type := mkLabel {
  label_userData : gmap string string;
  label_visible : bool;
  label_scale : Q * Q * Q;
  label_color : Z;
  label_opacity : Q
}.

(** What a [throw] carries. *)
Inductive JSError : Type :=
| NetworkError
| SyntaxError
| TypeError.

(** How a call completes. *)
Inductive Completion : Type :=
| Normal
| Throw (e : JSError).

(** ** The instance *)

(** [wordData] is [None] when the field holds [undefined] (after
    [this.wordData = data.words] on a document without [words]).
    [hoveredNode] is the index in [wordNodes] of the hovered sphere.
    [sparks] lists the end points of the sparks added by [spawnSignal], in
    order.  [loadingVisible] tells whether the element [#loading] is
    displayed, [consoleErrors] what [console.error] received. *)
Record Engine : Type := mkEngine {
  wordNodes : list Node;
  wordLabels : list Label;
  connections : list Line;
  signals : list (Vec3 * Vec3);
  sparks : list (Vec3 * Vec3);
  wordData : option (list WordObj);
  highlightedWords : gset string;
  searchQuery : string;
  similarityThreshold : Q;
  hoveredNode : option nat;
  loadingVisible : bool;
  consoleErrors : list JSError
}.

(** The fields as the constructor leaves them; the page shows [#loading]
    until the loader hides it. *)
Definition newEngine : Engine :=
  {| wordNodes := []; wordLabels := []; connections := []; signals := [];
     sparks := []; wordData := Some []; highlightedWords := ∅;
     searchQuery := EmptyString; similarityThreshold := 0.55; hoveredNode := None;
     loadingVisible := true; consoleErrors := [] |}.

Definition set_wordNodes (v : list Node) (st : Engine) : Engine :=
  mkEngine v (wordLabels st) (connections st) (signals st) (sparks st)
    (wordData st) (highlightedWords st) (searchQuery st)
    (similarityThreshold st) (hoveredNode st) (loadingVisible st)
    (consoleErrors st).

Definition set_wordLabels (v : list Label) (st : Engine) : Engine :=
  mkEngine (wordNodes st) v (connections st) (signals st) (sparks st)
    (wordData st) (highlightedWords st) (searchQuery st)
    (similarityThreshold st) (hoveredNode st) (loadingVisible st)
    (consoleErrors st).

Definition set_connections (v : list Line) (st : Engine) : Engine :=
  mkEngine (wordNodes st) (wordLabels st) v (signals st) (sparks st)
    (wordData st) (highlightedWords st) (searchQuery st)
    (similarityThreshold st) (hoveredNode st) (loadingVisible st)
    (consoleErrors st).

Definition set_signals (v : list (Vec3 * Vec3)) (st : Engine) : Engine :=
  mkEngine (wordNodes st) (wordLabels st) (connections st) v (sparks st)
    (wordData st) (highlightedWords st) (searchQuery st)
    (similarityThreshold st) (hoveredNode st) (loadingVisible st)
    (consoleErrors st).

Definition set_sparks (v : list (Vec3 * Vec3)) (st : Engine) : Engine :=
  mkEngine (wordNodes st) (wordLabels st) (connections st) (signals st) v
    (wordData st) (highlightedWords st) (searchQuery st)
    (similarityThreshold st) (hoveredNode st) (loadingVisible st)
    (consoleErrors st).

Definition set_wordData (v : option (list WordObj)) (st : Engine) : Engine :=
  mkEngine (wordNodes st) (wordLabels st) (connections st) (signals st)
    (sparks st) v (highlightedWords st) (searchQuery st)
    (similarityThreshold st) (hoveredNode st) (loadingVisible st)
    (consoleErrors st).

Definition set_highlightedWords (v : gset string) (st : Engine) : Engine :=
  mkEngine (wordNodes st) (wordLabels st) (connections st) (signals st)
    (sparks st) (wordData st) v (searchQuery st)
    (similarityThreshold st) (hoveredNode st) (loadingVisible st)
    (consoleErrors st).

Definition set_searchQuery (v : string) (st : Engine) : Engine :=
  mkEngine (wordNodes st) (wordLabels st) (connections st) (signals st)
    (sparks st) (wordData st) (highlightedWords st) v
    (similarityThreshold st) (hoveredNode st) (loadingVisible st)
    (consoleErrors st).

Definition set_hoveredNode (v : option nat) (st : Engine) : Engine :=
  mkEngine (wordNodes st) (wordLabels st) (connections st) (signals st)
    (sparks st) (wordData st) (highlightedWords st) (searchQuery st)
    (similarityThreshold st) v (loadingVisible st) (consoleErrors st).

Definition set_loadingVisible (v : bool) (st : Engine) : Engine :=
  mkEngine (wordNodes st) (wordLabels st) (connections st) (signals st)
    (sparks st) (wordData st) (highlightedWords st) (searchQuery st)
    (similarityThreshold st) (hoveredNode st) v (consoleErrors st).

Definition set_consoleErrors (v : list JSError) (st : Engine) : Engine :=
  mkEngine (wordNodes st) (wordLabels st) (connections st) (signals st)
    (sparks st) (wordData st) (highlightedWords st) (searchQuery st)
    (similarityThreshold st) (hoveredNode st) (loadingVisible st) v.

(** Sequencing of calls: a [throw] ends the sequence, with the state that
    was reached. *)
Definition andThen (r : Engine * Completion)
    (k : Engine -> Engine * Completion) : Engine * Completion :=
  match r with
  | (st, Normal) => k st
  | (st, Throw e) => (st, Throw e)
  end.

Notation "r >>> k" := (andThen r k) (at level 61, left associativity).

(** ** Scene construction *)

(** The sphere of [createWordNodes]: [emissiveIntensity: 0], the default
    material opacity 1 and the default scale 1. *)
Definition newNode (wordObj : WordObj) : Node :=
  {| node_word := word wordObj;
     node_categories := orEmpty (categories wordObj);
     node_emissiveIntensity := 0;
     node_opacity := 1;
     node_scale := 1 |}.

(** The sprite of [createWordLabels]: visible, white and opaque by default,
    [scale.set(15, 7.5, 1)]. *)
Definition newLabel : Label :=
  {| label_userData := ∅;
     label_visible := true;
     label_scale := (15, 7.5, 1);
     label_color := 0xffffff;
     label_opacity := 1 |}.

(** [createWordNodes()] *)
Definition createWordNodes (st : Engine) : Engine * Completion :=
  match wordData st with
  | None => (st, Throw TypeError)
  | Some data => (set_wordNodes (wordNodes st ++ map newNode data) st, Normal)
  end.

(** [createWordLabels()]: the sprite of index [i] is placed under
    [this.wordNodes[i]], which has to exist. *)
Definition createWordLabels (st : Engine) : Engine * Completion :=
  match wordData st with
  | None => (set_wordLabels [] st, Throw TypeError)
  | Some data =>
      let n := length (wordNodes st) in
      (set_wordLabels (map (fun _ => newLabel) (firstn n data)) st,
       if (length data <=? n)%nat then Normal else Throw TypeError)
  end.

(** [createSemanticConnections()]: every line is pushed onto
    [this.connections] and [createSignal] pushes one signal between its two
    end points. *)
Definition createSemanticConnections (st : Engine) : Engine * Completion :=
  match wordData st with
  | None => (st, Throw TypeError)
  | Some data =>
      let lines := semanticConnections (similarityThreshold st) data in
      (set_signals (signals st ++ map line_points lines)
         (set_connections (connections st ++ lines) st), Normal)
  end.

(** ** loadWordEmbeddings *)

(** What [fetch] and [response.json()] deliver: the request fails, the body
    is not JSON, or a document arrives whose field [words] is an array or is
    missing. *)
Inductive FetchOutcome : Type :=
| FetchRejects
| JsonRejects
| Document (words : option (list WordObj)).

(** The body of the [try] block.  [updateStats] only writes two counters
    into the page and is left out. *)
Definition loadBody (r : FetchOutcome) (st : Engine) : Engine * Completion :=
  match r with
  | FetchRejects => (st, Throw NetworkError)
  | JsonRejects => (st, Throw SyntaxError)
  | Document None => (set_wordData None st, Throw TypeError)
  | Document (Some words) =>
      createWordNodes (set_wordData (Some (normalizeData words)) st)
      >>> createWordLabels
      >>> createSemanticConnections
      >>> (fun st' => (set_loadingVisible false st', Normal))
  end.

(** [loadWordEmbeddings()], once its promise has settled:
    [try { ... } catch (e) { console.error(e); }]. *)
Definition loadWordEmbeddings (r : FetchOutcome) (st : Engine) : Engine * Completion :=
  match loadBody r st with
  | (st', Normal) => (st', Normal)
  | (st', Throw e) => (set_consoleErrors (consoleErrors st' ++ [e]) st', Normal)
  end.

(** ** Search *)

(** [this.highlightedWords.has(v)]; the set only ever receives strings, so
    it does not hold [undefined]. *)
Definition setHas (hl : gset string) (v : option string) : bool :=
  match v with
  | Some s => bool_decide (s ∈ hl)
  | None => false
  end.

(** [w.similar_words.forEach(s => this.highlightedWords.add(s[0]))] *)
Definition addNeighbours (sims : list (string * Q)) (hl : gset string) : gset string :=
  fold_left (fun h s => h ∪ {[ fst s ]}) sims hl.

(** The loop [this.wordData.forEach(w => ...)] of [performSearch], from the
    set [hl].  [w.categories.some] and [w.similar_words.forEach] throw on a
    missing field. *)
Fixpoint collectMatches (query : string) (data : list WordObj)
    (hl : gset string) : gset string * Completion :=
  match data with
  | [] => (hl, Normal)
  | w :: rest =>
      let inWord := includes (toLowerCase (word w)) query in
      match categories w with
      | None => (hl, Throw TypeError)
      | Some cats =>
          let inCat := existsb (fun c => includes (toLowerCase c) query) cats in
          if inWord || inCat then
            match similar_words w with
            | None => (hl ∪ {[ word w ]}, Throw TypeError)
            | Some sims =>
                collectMatches query rest (addNeighbours sims (hl ∪ {[ word w ]}))
            end
          else collectMatches query rest hl
      end
  end.

Definition highlightNode (hl : gset string) (n : Node) : Node :=
  let matched := setHas hl (Some (node_word n)) in
  {| node_word := node_word n;
     node_categories := node_categories n;
     node_emissiveIntensity := if matched then 1.5 else 0.15;
     node_opacity := if matched then 0.8 else 0.05;
     node_scale := if matched then 3.0 else 0.7 |}.

Definition highlightLabel (hl : gset string) (l : Label) : Label :=
  {| label_userData := label_userData l;
     label_visible := setHas hl (label_userData l !! "word");
     label_scale := label_scale l;
     label_color := label_color l;
     label_opacity := label_opacity l |}.

Definition highlightLine (hl : gset string) (l : Line) : Line :=
  let matched := setHas hl (line_userData l !! "from")
                 && setHas hl (line_userData l !! "to") in
  {| line_userData := line_userData l;
     line_points := line_points l;
     line_color := line_color l;
     line_opacity := if matched then 1.0 else 0.02;
     line_linewidth := Some (if matched then 3 else 1)%Z |}.

(** [applyHighlighting()] *)
Definition applyHighlighting (st : Engine) : Engine :=
  let hl := highlightedWords st in
  set_connections (map (highlightLine hl) (connections st))
    (set_wordLabels (map (highlightLabel hl) (wordLabels st))
       (set_wordNodes (map (highlightNode hl) (wordNodes st)) st)).

Definition resetNode (n : Node) : Node :=
  {| node_word := node_word n;
     node_categories := node_categories n;
     node_emissiveIntensity := 1.5;
     node_opacity := 0.9;
     node_scale := 1 |}.

Definition showLabel (l : Label) : Label :=
  {| label_userData := label_userData l;
     label_visible := true;
     label_scale := label_scale l;
     label_color := label_color l;
     label_opacity := label_opacity l |}.

Definition setLineOpacity (o : Q) (l : Line) : Line :=
  {| line_userData := line_userData l;
     line_points := line_points l;
     line_color := line_color l;
     line_opacity := o;
     line_linewidth := line_linewidth l |}.

(** [resetHighlighting()] *)
Definition resetHighlighting (st : Engine) : Engine :=
  set_connections (map (setLineOpacity 0.4) (connections st))
    (set_wordLabels (map showLabel (wordLabels st))
       (set_wordNodes (map resetNode (wordNodes st)) st)).

(** [performSearch()] *)
Definition performSearch (st : Engine) : Engine * Completion :=
  let st1 := set_highlightedWords ∅ st in
  let query := toLowerCase (searchQuery st1) in
  if isEmpty query then (resetHighlighting st1, Normal)
  else
    match wordData st1 with
    | None => (st1, Throw TypeError)
    | Some data =>
        match collectMatches query data (highlightedWords st1) with
        | (hl, Normal) => (applyHighlighting (set_highlightedWords hl st1), Normal)
        | (hl, Throw e) => (set_highlightedWords hl st1, Throw e)
        end
    end.

(** The [input] listener of the search box. *)
Definition onSearchInput (value : string) (st : Engine) : Engine * Completion :=
  performSearch (set_searchQuery (trim (toLowerCase value)) st).

(** ** Hover *)

Definition setLineGlow (c : LineColor) (o : Q) (l : Line) : Line :=
  {| line_userData := line_userData l;
     line_points := line_points l;
     line_color := c;
     line_opacity := o;
     line_linewidth := line_linewidth l |}.

(** [node.scale.setScalar(s); node.material.emissiveIntensity = 0] *)
Definition setNodeScale (s : Q) (n : Node) : Node :=
  {| node_word := node_word n;
     node_categories := node_categories n;
     node_emissiveIntensity := 0;
     node_opacity := node_opacity n;
     node_scale := s |}.

Definition setLabelLook (scale : Q * Q * Q) (color : Z) (o : Q) (l : Label) : Label :=
  {| label_userData := label_userData l;
     label_visible := label_visible l;
     label_scale := scale;
     label_color := color;
     label_opacity := o |}.

(** [resetNodeState(node)] for the sphere of index [j]; [if (label)] is the
    out-of-range case of [alter]. *)
Definition resetNodeState (j : nat) (st : Engine) : Engine :=
  set_connections (map (setLineGlow (Glow 1) 0.4) (connections st))
    (set_wordLabels (alter (setLabelLook (15, 7.5, 1) 0x25D366 0.7) j (wordLabels st))
       (set_wordNodes (alter (setNodeScale 1.0) j (wordNodes st)) st)).

(** [line.userData.source === targetWord || line.userData.target === targetWord] *)
Definition touches (targetWord : string) (l : Line) : bool :=
  bool_decide (line_source l = Some targetWord)
  || bool_decide (line_target l = Some targetWord).

(** The body of the loop of [triggerNeuralActivity] for one line. *)
Definition overloadOrDim (targetWord : string) (l : Line) : Line :=
  if touches targetWord l then setLineGlow (Glow 50) 1.0 l
  else setLineGlow (Glow 5) 0.2 l.

(** [triggerNeuralActivity(targetNode)] for the sphere of index [i];
    [spawnSignal(line)] adds one spark that runs between the end points of
    [line]. *)
Definition triggerNeuralActivity (i : nat) (st : Engine) : Engine * Completion :=
  match wordData st ≫= (fun data => data !! i) with
  | None => (st, Throw TypeError)
  | Some w =>
      let targetWord := word w in
      (set_sparks
         (sparks st ++ map line_points (List.filter (touches targetWord) (connections st)))
         (set_connections (map (overloadOrDim targetWord) (connections st)) st),
       Normal)
  end.

(** [handleHover()]; [hit] is the index in [wordNodes] of
    [intersects[0].object], [None] when the ray meets no sphere. *)
Definition handleHover (hit : option nat) (st : Engine) : Engine * Completion :=
  match hit with
  | Some i =>
      if bool_decide (hoveredNode st = Some i) then (st, Normal)
      else
        let st1 := match hoveredNode st with
                   | Some j => resetNodeState j st
                   | None => st
                   end in
        let st2 := set_hoveredNode (Some i) st1 in
        let st3 := set_wordNodes (alter (setNodeScale 2.0) i (wordNodes st2)) st2 in
        let st4 := set_wordLabels
                     (alter (setLabelLook (75, 37.5, 1) 0xffffff 1.0) i (wordLabels st3))
                     st3 in
        triggerNeuralActivity i st4
  | None =>
      match hoveredNode st with
      | Some j => (set_hoveredNode None (resetNodeState j st), Normal)
      | None => (st, Normal)
      end
  end.

(** ** The animation loop *)

(** [0.3 + (pulseIntensity * 0.4)] with
    [pulseIntensity = 0.5 + Math.sin(time * 2) * 0.3]; [s] is the value of
    [Math.sin(time * 2)] for the frame. *)
Definition breathing (s : Q) : Q := 0.3 + ((0.5 + s * 0.3) * 0.4).

(** The body of the first loop of [animate] for one line. *)
Definition pulseLine (s : Q) (l : Line) : Line :=
  if Qltb (line_opacity l) 1.0 then setLineOpacity (breathing s) l else l.

(** One call of [animate()]: the pulse of the connections, then
    [handleHover()].  The steps in between move scenery, spheres, sprites and
    signals and touch no field of [Engine]. *)
Definition animate (s : Q) (hit : option nat) (st : Engine) : Engine * Completion :=
  handleHover hit (set_connections (map (pulseLine s) (connections st)) st).

(** What reaches the engine after the constructor: the settled load, a
    display frame (with the sine of the frame and the sphere under the
    pointer), or a change of the search box. *)
Inductive Event : Type :=
| Loaded (r : FetchOutcome)
| Frame (s : Q) (hit : option nat)
| Input (value : string).

Definition handle (ev : Event) (st : Engine) : Engine * Completion :=
  match ev with
  | Loaded r => loadWordEmbeddings r st
  | Frame s hit => animate s hit st
  | Input value => onSearchInput value st
  end.

(** A handler that throws leaves the state it reached; the next event is
    served from there. *)
Definition run (evs : list Event) (st : Engine) : Engine :=
  fold_left (fun st' ev => fst (handle ev st')) evs st.

(** The sine of every frame satisfies [okSine]. *)
Definition okEvent (okSine : Q -> Prop) (ev : Event) : Prop :=
  match ev with
  | Frame s _ => okSine s
  | _ => True
  end.

(** The sine of a frame lies in [[-1, 1]]. *)
Definition sineOk : Event -> Prop := okEvent (fun s => -1 <= s <= 1).

(** The keys that [applyHighlighting] reads from a line are absent. *)
Definition noFromTo (l : Line) : Prop :=
  line_userData l !! "from" = None /\ line_userData l !! "to" = None.

(** [g] restyles a line: it keeps the [userData] and the end points. *)
Definition keeps (g : Line -> Line) : Prop :=
  forall l, line_userData (g l) = line_userData l
            /\ line_points (g l) = line_points l.

(** An event of the page after the load has settled: a frame or an input. *)
Definition userEvent (ev : Event) : Prop :=
  match ev with
  | Loaded _ => False
  | _ => True
  end.

(** The states the engine can be in: those reached from the constructor. *)
Definition reachable (st : Engine) : Prop :=
  exists evs, st = run evs newEngine.

(** ** Vocabulary of the statements *)

(** [q] occurs in [s]. *)
Definition substring (q s : string) : Prop :=
  exists pre post : string, s = (pre ++ q ++ post)%string.

(** [q] occurs in [s] when case is ignored. *)
Definition ciSubstring (q s : string) : Prop :=
  substring (toLowerCase q) (toLowerCase s).

(** [w] matches the query directly: by its word or by one of its tags. *)
Definition directMatch (q : string) (w : WordObj) : Prop :=
  ciSubstring q (word w)
  \/ exists c, In c (orEmpty (categories w)) /\ ciSubstring q c.

(** The neighbours named in the similarity list of [w]. *)
Definition neighbourOf (x : string) (w : WordObj) : Prop :=
  exists score, In (x, score) (orEmpty (similar_words w)).

(** Every field the search reads is present. *)
Definition complete (w : WordObj) : Prop :=
  categories w <> None /\ similar_words w <> None.

(** The dataset names [x]. *)
Definition known (data : list WordObj) (x : string) : Prop :=
  exists t, In t data /\ word t = x.

(** A line from [a] to [b]. *)
Definition joins (a b : string) (l : Line) : Prop :=
  line_source l = Some a /\ line_target l = Some b.

(** Number of lines that leave the word [a]. *)
Definition outDegree (a : string) (lines : list Line) : nat :=
  length (List.filter (fun l => bool_decide (line_source l = Some a)) lines).

(** The point with the finite coordinates [x], [y], [z]. *)
Definition point (x y z : Q) : Vec3 := mkVec3 (Fin x) (Fin y) (Fin z).

(** [m] is the least (resp. greatest) coordinate of the words along [axis];
    all these coordinates are finite. *)
Definition lowest (axis : Vec3 -> num) (words : list WordObj) (m : Q) : Prop :=
  (exists w q, In w words /\ axis (position w) = Fin q /\ q == m)
  /\ (forall w, In w words -> exists q, axis (position w) = Fin q /\ m <= q).

Definition highest (axis : Vec3 -> num) (words : list WordObj) (m : Q) : Prop :=
  (exists w q, In w words /\ axis (position w) = Fin q /\ q == m)
  /\ (forall w, In w words -> exists q, axis (position w) = Fin q /\ q <= m).

(** One accumulator of the first loop of [normalizeData], along [axis]. *)
Definition stepMin (axis : Vec3 -> num) (a : num) (w : WordObj) : num :=
  Math_min a (axis (position w)).
Definition stepMax (axis : Vec3 -> num) (a : num) (w : WordObj) : num :=
  Math_max a (axis (position w)).

(** Every coordinate along [axis] is finite. *)
Definition finiteAlong (axis : Vec3 -> num) (words : list WordObj) : Prop :=
  forall w, In w words -> exists q, axis (position w) = Fin q.

(** An axis-aligned box. *)
Record QBox : Type := mkQBox {
  loX : Q; hiX : Q;
  loY : Q; hiY : Q;
  loZ : Q; hiZ : Q
}.

(** [b] is the bounding box of the positions of [words]. *)
Definition boundingBox (words : list WordObj) (b : QBox) : Prop :=
  lowest vx words (loX b) /\ highest vx words (hiX b)
  /\ lowest vy words (loY b) /\ highest vy words (hiY b)
  /\ lowest vz words (loZ b) /\ highest vz words (hiZ b).

Definition qmax (a b : Q) : Q := if Qltb a b then b else a.

(** The largest of the three axis ranges of a box. *)
Definition extent (b : QBox) : Q :=
  qmax (qmax (hiX b - loX b) (hiY b - loY b)) (hiZ b - loZ b).

(** The number that a binary64 value stands for. *)
Definition SFvalue (x : spec_float) : num :=
  match x with
  | S754_zero _ => Fin 0
  | S754_infinity false => PInf
  | S754_infinity true => NInf
  | S754_nan => NaN
  | S754_finite s m e => Fin (inject_Z (cond_Zopp s (Zpos m)) * 2 ^ e)
  end.

Definition valueOf (a : float) : num := SFvalue (Prim2SF a).

Definition positionOf (p : Vec64) : Vec3 :=
  mkVec3 (valueOf (x64 p)) (valueOf (y64 p)) (valueOf (z64 p)).

(** A node at the binary64 position [p]. *)
Definition nodeAt (p : Vec64) : WordObj :=
  mkWordObj EmptyString (positionOf p) None None.

(** The same number, whatever the fraction that writes it. *)
Definition numEq (a b : num) : Prop :=
  match a, b with
  | Fin x, Fin y => x == y
  | PInf, PInf | NInf, NInf | NaN, NaN => True
  | _, _ => False
  end.

Definition numEqb (a b : num) : bool :=
  match a, b with
  | Fin x, Fin y => Qeq_bool x y
  | PInf, PInf | NInf, NInf | NaN, NaN => true
  | _, _ => false
  end.

(** [a < b] on numbers; false as soon as one is [NaN]. *)
Definition numLtb (a b : num) : bool :=
  match a, b with
  | NaN, _ | _, NaN => false
  | NInf, NInf => false
  | NInf, _ => true
  | _, NInf => false
  | PInf, _ => false
  | _, PInf => true
  | Fin x, Fin y => Qltb x y
  end.

(** The binary64 value [a] is finite and stands for [q]. *)
Definition hasValue (a : float) (q : Q) : Prop :=
  exists q', valueOf a = Fin q' /\ q' == q.

(** The binary64 operation [op64] is exact on [a] and [b]: what it returns
    stands for the result of [op] on the numbers of [a] and [b]; nothing was
    rounded, and nothing overflowed or underflowed. *)
Definition exactOp (op64 : float -> float -> float) (op : num -> num -> num)
    (a b : float) : bool :=
  numEqb (valueOf (op64 a b)) (op (valueOf a) (valueOf b)).

(** The three sums and the three halvings of [center] are exact. *)
Definition exactCenter (b : Bounds64) : bool :=
  exactOp PrimFloat.add num_add (minX64 b) (maxX64 b)
  && exactOp PrimFloat.div num_div (minX64 b + maxX64 b)%float 2%float
  && exactOp PrimFloat.add num_add (minY64 b) (maxY64 b)
  && exactOp PrimFloat.div num_div (minY64 b + maxY64 b)%float 2%float
  && exactOp PrimFloat.add num_add (minZ64 b) (maxZ64 b)
  && exactOp PrimFloat.div num_div (minZ64 b + maxZ64 b)%float 2%float.

(** The three differences and the division of [scale] are exact. *)
Definition exactScale (b : Bounds64) : bool :=
  exactOp PrimFloat.sub num_sub (maxX64 b) (minX64 b)
  && exactOp PrimFloat.sub num_sub (maxY64 b) (minY64 b)
  && exactOp PrimFloat.sub num_sub (maxZ64 b) (minZ64 b)
  && exactOp PrimFloat.div num_div 500%float (spanOf64 b).

(** The three differences and the three products of one iteration of the
    second loop are exact. *)
Definition exactRescale (center : Vec64) (scale : float) (p : Vec64) : bool :=
  exactOp PrimFloat.sub num_sub (x64 p) (x64 center)
  && exactOp PrimFloat.mul num_mul (x64 p - x64 center)%float scale
  && exactOp PrimFloat.sub num_sub (y64 p) (y64 center)
  && exactOp PrimFloat.mul num_mul (y64 p - y64 center)%float scale
  && exactOp PrimFloat.sub num_sub (z64 p) (z64 center)
  && exactOp PrimFloat.mul num_mul (z64 p - z64 center)%float scale.

(** Every sum, difference, quotient and product that [normalizeData]
    computes on [ps] is exact.  (Comparisons never round.) *)
Definition exact64 (ps : list Vec64) : bool :=
  let b := boundsOf64 ps in
  exactCenter b && exactScale b
  && forallb (exactRescale (centerOf64 b) (scaleOf64 b)) ps.

(** [b] is the bounding box of the binary64 positions [ps]. *)
Definition boundingBox64 (ps : list Vec64) (b : QBox) : Prop :=
  boundingBox (map nodeAt ps) b.

(** [p'] stands for [(p - centre) * k]. *)
Definition moved64 (cx cy cz k : Q) (p p' : Vec64) : Prop :=
  exists x y z,
    positionOf p = point x y z
    /\ hasValue (x64 p') ((x - cx) * k)
    /\ hasValue (y64 p') ((y - cy) * k)
    /\ hasValue (z64 p') ((z - cz) * k).

(** All three coordinates are finite numbers ([Number.isFinite]). *)
Definition finite64 (p : Vec64) : bool :=
  is_finite (x64 p) && is_finite (y64 p) && is_finite (z64 p).

(** [Number.isNaN] *)
Definition isNaN (a : num) : bool := match a with NaN => true | _ => false end.

(** The binary64 accumulators stand for the numbers [b]. *)
Definition boundsSim (b64 : Bounds64) (b : Bounds) : Prop :=
  numEq (valueOf (minX64 b64)) (minX b)
  /\ numEq (valueOf (minY64 b64)) (minY b)
  /\ numEq (valueOf (minZ64 b64)) (minZ b)
  /\ numEq (valueOf (maxX64 b64)) (maxX b)
  /\ numEq (valueOf (maxY64 b64)) (maxY b)
  /\ numEq (valueOf (maxZ64 b64)) (maxZ b).

(** The box [b] moved by [- c] and scaled by [k]. *)
Definition movedBox (cx cy cz k : Q) (b : QBox) : QBox :=
  {| loX := (loX b - cx) * k; hiX := (hiX b - cx) * k;
     loY := (loY b - cy) * k; hiY := (hiY b - cy) * k;
     loZ := (loZ b - cz) * k; hiZ := (hiZ b - cz) * k |}.

(** ** Datasets of the scenarios *)

Definition origin : Vec3 := mkVec3 (Fin 0) (Fin 0) (Fin 0).

(** Three nodes; the similarity list of A is [[(B, 0.90), (C, 0.50)]]. *)
Definition nodeA (p : Vec3) (cats : option (list string)) : WordObj :=
  mkWordObj "A" p cats (Some [("B"%string, 0.90); ("C"%string, 0.50)]).

Definition threeNodes (pA pB pC : Vec3) (cA cB cC : option (list string))
    (sB sC : option (list (string * Q))) : list WordObj :=
  [nodeA pA cA; mkWordObj "B" pB cB sB; mkWordObj "C" pC cC sC].

Definition cubeBox : QBox := mkQBox (-100) 100 (-100) 100 (-100) 100.

(** Raw positions whose bounding box is [[-100, 100]] on every axis. *)
Definition cube64 : list Vec64 :=
  [mkVec64 100 0 0; mkVec64 (-100) (-100) (-100); mkVec64 0 100 100].

(** Two nodes that share one raw position. *)
Definition twins64 : list Vec64 := [mkVec64 1 2 3; mkVec64 1 2 3].







(** Five nodes with the lines X -> Y, Z -> X and P -> Q. *)
Definition sceneWords : list WordObj :=
  [mkWordObj "X" (point 0 0 0) (Some ["media"%string]) (Some [("Y"%string, 0.9)]);
   mkWordObj "Y" (point 10 0 0) (Some []) (Some []);
   mkWordObj "Z" (point 0 10 0) (Some []) (Some [("X"%string, 0.8)]);
   mkWordObj "P" (point 0 0 10) (Some []) (Some [("Q"%string, 0.7)]);
   mkWordObj "Q" (point 10 10 10) (Some []) (Some [])].

(** The engine once that dataset is loaded. *)
Definition sceneEngine : Engine :=
  run [Loaded (Document (Some sceneWords))] newEngine.

(** What the lines show: source, target, colour and opacity. *)
Definition lineLook (l : Line) : option string * option string * LineColor * Q :=
  (line_source l, line_target l, line_color l, line_opacity l).

(** What the spheres show: word, emissive intensity, opacity and scale. *)
Definition nodeLook (n : Node) : string * Q * Q * Q :=
  (node_word n, node_emissiveIntensity n, node_opacity n, node_scale n).

(** The dataset of the scene as the engine holds it, and its node X. *)
Definition sceneData : list WordObj := normalizeData sceneWords.

Definition sceneX : WordObj := hd (mkWordObj EmptyString origin None None) sceneData.

(** The sphere of index [i] is hovered in the loaded scene. *)
Definition sceneHover (i : nat) : Engine := run [Frame 0 (Some i)] sceneEngine.

(** The loaded scene with "x" in the search box. *)
Definition sceneQuery : Engine := set_searchQuery "x" sceneEngine.

(** ** Further methods of the class *)

(** [updateStats()]: the numbers written into [#total-chunks] and
    [#connection-count]; [None] when [this.wordData.length] throws. *)
Definition updateStats (st : Engine) : option (nat * nat) :=
  match wordData st with
  | Some data => Some (length data, length (connections st))
  | None => None
  end.

(** The state after the one load of the page, followed by [evs]. *)
Definition loadedState (words : list WordObj) (evs : list Event) : Engine :=
  run (Loaded (Document (Some words)) :: evs) newEngine.

(** [st'] shows the same scene as [st]: the same spheres, labels, lines and
    signals, whatever their looks. *)
Definition sameScene (st st' : Engine) : Prop :=
  map node_word (wordNodes st') = map node_word (wordNodes st)
  /\ map node_categories (wordNodes st') = map node_categories (wordNodes st)
  /\ map label_userData (wordLabels st') = map label_userData (wordLabels st)
  /\ map line_userData (connections st') = map line_userData (connections st)
  /\ map line_points (connections st') = map line_points (connections st)
  /\ signals st' = signals st
  /\ wordData st' = wordData st
  /\ similarityThreshold st' = similarityThreshold st.

(** [v.lerpVectors(v1, v2, alpha)] of three.js: [v1 + (v2 - v1) * alpha] on
    every coordinate. *)
Definition lerp (a b alpha : num) : num :=
  num_add a (num_mul (num_sub b a) alpha).

Definition lerpVectors (v1 v2 : Vec3) (alpha : num) : Vec3 :=
  {| vx := lerp (vx v1) (vx v2) alpha;
     vy := lerp (vy v1) (vy v2) alpha;
     vz := lerp (vz v1) (vz v2) alpha |}.

(** A sphere of [this.signals]: [userData.start], [userData.end],
    [userData.progress] and its [position]. *)
Record Signal : Type := mkSignal {
  signal_start : Vec3;
  signal_end : Vec3;
  signal_progress : Q;
  signal_position : Vec3
}.

(** [createSignal(start, end)]; [random] is the value of [Math.random()].
    The new mesh is at the origin until a frame moves it. *)
Definition createSignal (start end_ : Vec3) (random : Q) : Signal :=
  {| signal_start := start; signal_end := end_;
     signal_progress := random; signal_position := origin |}.

(** [progress += 0.015; if (progress >= 1) progress = 0] *)
Definition advanceProgress (p : Q) : Q :=
  let p' := p + 0.015 in
  if Qle_bool 1 p' then 0 else p'.

(** The body of the loop over [this.signals] in [animate], for one signal. *)
Definition updateSignal (s : Signal) : Signal :=
  let p := advanceProgress (signal_progress s) in
  {| signal_start := signal_start s; signal_end := signal_end s;
     signal_progress := p;
     signal_position := lerpVectors (signal_start s) (signal_end s) (Fin p) |}.

(** The signal after [n] frames. *)
Definition signalAfter (n : nat) (s : Signal) : Signal := Nat.iter n updateSignal s.

(** The calls of [animateSpark] for one spark of [spawnSignal], in binary64
    (the count of calls depends on the rounding of the sums of 0.02): each
    call does [progress += 0.02] and asks for another frame when
    [progress < 1], else removes the spark.  [sparkCalls fuel progress] is
    the number of calls until the removal and the last progress. *)
Fixpoint sparkCalls (fuel : nat) (progress : float) : option (nat * float) :=
  match fuel with
  | O => None
  | S fuel' =>
      let p := (progress + 0.02)%float in
      if (p <? 1)%float then
        match sparkCalls fuel' p with
        | Some (n, last) => Some (S n, last)
        | None => None
        end
      else Some (1%nat, p)
  end.

(** The [mousemove] listener: [this.mouse.x] and [this.mouse.y] from the
    pointer and the window size. *)
Definition mouseFromEvent (clientX clientY innerWidth innerHeight : num) : num * num :=
  (num_sub (num_mul (num_div clientX innerWidth) (Fin 2)) (Fin 1),
   num_add (num_mul (num_neg (num_div clientY innerHeight)) (Fin 2)) (Fin 1)).

(** The object literal [colors] of [getCategoryColor]. *)
Definition colors : gmap string Z :=
  <["media" := 0xff00ff%Z]> (<["hvac" := 0x00ffff%Z]>
    (<["navigation" := 0xffff00%Z]> (<["control" := 0x00ff00%Z]> ∅))).

(** What [colors[key]] finds when [key] is not an own key: the two members
    of [Object.prototype] with a lower-case name; both are objects. *)
Definition inheritedKey (key : string) : bool :=
  String.eqb key "constructor" || String.eqb key "__proto__".

(** What [getCategoryColor] returns: a colour number, or the inherited
    object found under the key. *)
Inductive ColorValue : Type :=
| Hex (c : Z)
| PrototypeMember (key : string).

(** [getCategoryColor(cat)]: [colors[cat.toLowerCase()] || 0x4444ff]; the
    number 0 would be falsy. *)
Definition getCategoryColor (cat : string) : ColorValue :=
  let key := toLowerCase cat in
  match colors !! key with
  | Some c => if (c =? 0)%Z then Hex 0x4444ff else Hex c
  | None => if inheritedKey key then PrototypeMember key else Hex 0x4444ff
  end.

(** The text holds white space only. *)
Fixpoint allSpaces (s : string) : bool :=
  match s with
  | EmptyString => true
  | String c s' => isSpace c && allSpaces s'
  end.

(** The event is a display frame. *)
Definition frameEvent (ev : Event) : Prop :=
  match ev with
  | Frame _ _ => True
  | _ => False
  end.

(** The hover look: the hovered sphere is at scale 2, every other sphere at
    scale 1, none glows. *)
Definition hoverLook (st : Engine) : Prop :=
  forall k n, wordNodes st !! k = Some n ->
    node_emissiveIntensity n == 0
    /\ node_scale n == (if bool_decide (hoveredNode st = Some k) then 2 else 1).

(** [x] is matched by the query [q] in the dataset: a direct match or a
    neighbour of one. *)
Definition matchedBy (q : string) (words : list WordObj) (x : string) : Prop :=
  exists w, In w words /\ directMatch q w /\ (x = word w \/ neighbourOf x w).

(** A dataset whose only node has no [categories] array, held by an engine
    with "a" in the search box. *)
Definition gapWords : list WordObj := [mkWordObj "a" origin None (Some [])].

Definition gapEngine : Engine :=
  set_searchQuery "a" (set_wordData (Some gapWords) newEngine).

(** ** Proof steps *)

(** The bounding box of a list of binary64 literals: the list is computed,
    then the six bounds are checked one by one. *)
Ltac box_of_list :=
  unfold boundingBox64;
  match goal with
  | |- boundingBox (map nodeAt ?l) _ =>
      let t := eval vm_compute in (map nodeAt l) in
      change (map nodeAt l) with t
  end;
  unfold boundingBox, lowest, highest;
  cbn [loX hiX loY hiY loZ hiZ position vx vy vz In].

Ltac box_all :=
  intros ? H;
  repeat (destruct H as [<-|H]; [eexists; split; [reflexivity|];
                                 apply Qle_bool_imp_le; vm_compute; reflexivity|]);
  destruct H.

Ltac box_at k :=
  eexists _, _; split; [k|];
  split; [reflexivity | apply Qeq_bool_eq; vm_compute; reflexivity].

(** * Properties *)

(** ** Comparisons *)

Lemma Qltb_lt a b : Qltb a b = true <-> a < b.
Proof.
  unfold Qltb. rewrite Qlt_alt. destruct (a ?= b); split; congruence.
Qed.

Lemma Qltb_ge a b : Qltb a b = false <-> b <= a.
Proof.
  rewrite <- not_true_iff_false, Qltb_lt.
  split; [apply Qnot_lt_le | apply Qle_not_lt].
Qed.

(** ** createSemanticConnections *)

Lemma findWord_Some data name t :
  findWord data name = Some t -> In t data /\ word t = name.
Proof.
  unfold findWord. intros H. apply find_some in H as [Hin Heq].
  split; [exact Hin | now apply String.eqb_eq].
Qed.

Lemma findWord_None data name :
  findWord data name = None <-> ~ known data name.
Proof.
  unfold findWord, known. split.
  - intros H [t [Hin Heq]].
    pose proof (find_none _ _ H t Hin) as Hf. simpl in Hf.
    apply String.eqb_neq in Hf. contradiction.
  - intros Hn. destruct (List.find _ data) as [t|] eqn:E; [|reflexivity].
    apply find_some in E as [Hin Heq]. apply String.eqb_eq in Heq.
    exfalso. apply Hn. now exists t.
Qed.

Lemma findWord_known data name :
  known data name <-> exists t, findWord data name = Some t.
Proof.
  split.
  - intros Hk. destruct (findWord data name) as [t|] eqn:E; [now exists t|].
    apply findWord_None in E. contradiction.
  - intros [t Ht]. apply findWord_Some in Ht as [Hin Heq]. now exists t.
Qed.

Lemma newConnection_joins w t name : joins (word w) name (newConnection w t name).
Proof. split; reflexivity. Qed.

(** The lines of one node are exactly those of its first two entries whose
    score is not below the threshold and whose neighbour is found. *)
Lemma in_connectionsFor thr data w l :
  In l (connectionsFor thr data w) <->
  exists name score target,
    In (name, score) (firstn 2 (orEmpty (similar_words w)))
    /\ thr <= score
    /\ findWord data name = Some target
    /\ l = newConnection w target name.
Proof.
  unfold connectionsFor. rewrite in_flat_map. split.
  - intros [[name score] [Hin Hl]].
    destruct (Qltb score thr) eqn:Hs; [destruct Hl|].
    destruct (findWord data name) as [t|] eqn:Hf; [|destruct Hl].
    destruct Hl as [<-|[]]. exists name, score, t.
    repeat split; try assumption. now apply Qltb_ge.
  - intros (name & score & t & Hin & Hs & Hf & ->).
    exists (name, score). split; [exact Hin|].
    apply Qltb_ge in Hs. rewrite Hs, Hf. now left.
Qed.

Lemma connectionsFor_length thr data w :
  (length (connectionsFor thr data w) <= 2)%nat.
Proof.
  unfold connectionsFor.
  destruct (orEmpty (similar_words w)) as [|[n1 s1] [|[n2 s2] rest]]; simpl.
  - lia.
  - destruct (Qltb s1 thr); [simpl; lia|].
    destruct (findWord data n1); simpl; lia.
  - destruct (Qltb s1 thr), (Qltb s2 thr);
      destruct (findWord data n1), (findWord data n2); simpl; lia.
Qed.

Lemma connectionsFor_source thr data w l :
  In l (connectionsFor thr data w) -> line_source l = Some (word w).
Proof.
  intros H. apply in_connectionsFor in H as (name & score & t & _ & _ & _ & ->).
  reflexivity.
Qed.

Lemma semanticConnections_length_aux thr data ws :
  (length (flat_map (connectionsFor thr data) ws) <= 2 * length ws)%nat.
Proof.
  induction ws as [|w ws IH]; simpl; [lia|].
  rewrite length_app. pose proof (connectionsFor_length thr data w). lia.
Qed.

Lemma outDegree_app a l1 l2 :
  outDegree a (l1 ++ l2) = (outDegree a l1 + outDegree a l2)%nat.
Proof. unfold outDegree. now rewrite List.filter_app, length_app. Qed.

Lemma outDegree_le_length a l : (outDegree a l <= length l)%nat.
Proof. unfold outDegree. apply List.filter_length_le. Qed.

Lemma filter_source_other thr data w a :
  word w <> a ->
  List.filter (fun l => bool_decide (line_source l = Some a))
    (connectionsFor thr data w) = [].
Proof.
  intros Hne.
  assert (H : forall ls, (forall l, In l ls -> line_source l = Some (word w)) ->
            List.filter (fun l => bool_decide (line_source l = Some a)) ls = []).
  { induction ls as [|l ls IH]; intros Hall; [reflexivity|]. simpl.
    rewrite (Hall l (or_introl eq_refl)).
    rewrite bool_decide_eq_false_2 by congruence.
    apply IH. intros l' Hl'. apply Hall. now right. }
  apply H. intros l. apply connectionsFor_source.
Qed.

Lemma outDegree_other thr data w a :
  word w <> a -> outDegree a (connectionsFor thr data w) = 0%nat.
Proof.
  intros Hne. unfold outDegree. now rewrite filter_source_other.
Qed.

Lemma outDegree_nodup_aux thr data a ws :
  NoDup (map word ws) ->
  (outDegree a (flat_map (connectionsFor thr data) ws) <= 2)%nat
  /\ (a ∉ map word ws -> outDegree a (flat_map (connectionsFor thr data) ws) = 0%nat).
Proof.
  induction ws as [|w ws IH]; intros Hnd; simpl.
  - split; [unfold outDegree; simpl; lia | reflexivity].
  - simpl in Hnd. apply NoDup_cons in Hnd as [Hw Hnd].
    destruct (IH Hnd) as [IH2 IH0]. rewrite outDegree_app.
    destruct (decide (word w = a)) as [Heq|Hne].
    + subst a. rewrite (IH0 Hw). split.
      * pose proof (outDegree_le_length (word w) (connectionsFor thr data w)).
        pose proof (connectionsFor_length thr data w). lia.
      * intros Hnot. exfalso. apply Hnot. left.
    + rewrite (outDegree_other _ _ _ _ Hne). split; [simpl; exact IH2|].
      intros Hnot. simpl. apply IH0. intros Hin. apply Hnot. now right.
Qed.

Lemma in_semanticConnections thr data l :
  In l (semanticConnections thr data) <->
  exists w name score target,
    In w data
    /\ In (name, score) (firstn 2 (orEmpty (similar_words w)))
    /\ thr <= score
    /\ findWord data name = Some target
    /\ l = newConnection w target name.
Proof.
  unfold semanticConnections. rewrite in_flat_map. split.
  - intros [w [Hw Hl]].
    apply in_connectionsFor in Hl as (name & score & t & Hin & Hs & Hf & ->).
    now exists w, name, score, t.
  - intros (w & name & score & t & Hw & Hin & Hs & Hf & ->).
    exists w. split; [exact Hw|]. apply in_connectionsFor. now exists name, score, t.
Qed.

Lemma filter_source_same thr data w :
  List.filter (fun l => bool_decide (line_source l = Some (word w)))
    (connectionsFor thr data w) = connectionsFor thr data w.
Proof.
  assert (H : forall ls, (forall l, In l ls -> line_source l = Some (word w)) ->
            List.filter (fun l => bool_decide (line_source l = Some (word w))) ls = ls).
  { induction ls as [|l ls IH]; intros Hall; [reflexivity|]. simpl.
    rewrite bool_decide_eq_true_2 by (apply Hall; now left).
    f_equal. apply IH. intros l' Hl'. apply Hall. now right. }
  apply H. intros l. apply connectionsFor_source.
Qed.

(** With one node per word, the lines that leave a word are those of its
    node, in the order of the inner loop. *)
Lemma filter_source_nodup thr data ws :
  NoDup (map word ws) ->
  (forall w, In w ws ->
     List.filter (fun l => bool_decide (line_source l = Some (word w)))
       (flat_map (connectionsFor thr data) ws) = connectionsFor thr data w)
  /\ (forall a, a ∉ map word ws ->
        List.filter (fun l => bool_decide (line_source l = Some a))
          (flat_map (connectionsFor thr data) ws) = []).
Proof.
  induction ws as [|w0 ws IH]; intros Hnd.
  - split; [intros w []|reflexivity].
  - simpl in Hnd. apply NoDup_cons in Hnd as [Hw0 Hnd].
    destruct (IH Hnd) as [IHin IHout]. split.
    + intros w [<-|Hw]; cbn [flat_map]; rewrite List.filter_app.
      * rewrite filter_source_same, (IHout _ Hw0). apply app_nil_r.
      * assert (Hne : word w0 <> word w).
        { intros E. apply Hw0. rewrite E. apply list_elem_of_In.
          now apply in_map. }
        rewrite (filter_source_other _ _ _ _ Hne). now apply IHin.
    + intros a Ha. cbn [flat_map]. rewrite List.filter_app.
      rewrite filter_source_other by (intros E; apply Ha; rewrite <- E; left).
      apply IHout. intros Hin. apply Ha. now right.
Qed.

(** C1. Edge building looks at the first two similarity entries of each
    node only; an entry yields a line to the named neighbour exactly when
    its score is at least the threshold and the neighbour is a word of the
    dataset, and is dropped otherwise (an unknown neighbour included).  This
    holds of the list that [createSemanticConnections] appends to
    [this.connections]: a line is in it exactly when it is the line of such
    an entry of a node of the dataset, every such entry of every node has
    its line in it, and with one node per word the lines that leave a word
    are exactly those of the inner loop for its node.
    Hence at most two lines leave a node, every line comes from a score at
    least the threshold, and there are at most [2 * |nodes|] lines.  For the
    three nodes A, B, C with the list [[(B, 0.90), (C, 0.50)]] at A and the
    threshold 0.55, the one line that leaves A is the line from A to B. *)
Theorem createSemanticConnections_top2_threshold (thr : Q) (data : list WordObj) :
  (forall st, wordData st = Some data -> similarityThreshold st = thr ->
     createSemanticConnections st =
       (set_signals (signals st ++ map line_points (semanticConnections thr data))
          (set_connections (connections st ++ semanticConnections thr data) st),
        Normal))
  /\ (forall w l,
        In l (connectionsFor thr data w) <->
        exists name score target,
          In (name, score) (firstn 2 (orEmpty (similar_words w)))
          /\ thr <= score
          /\ findWord data name = Some target
          /\ l = newConnection w target name)
  /\ (forall w name score,
        In (name, score) (firstn 2 (orEmpty (similar_words w))) ->
        thr <= score -> known data name ->
        exists l, In l (connectionsFor thr data w) /\ joins (word w) name l)
  /\ (forall l,
        In l (semanticConnections thr data) <->
        exists w name score target,
          In w data
          /\ In (name, score) (firstn 2 (orEmpty (similar_words w)))
          /\ thr <= score
          /\ findWord data name = Some target
          /\ l = newConnection w target name)
  /\ (forall w name score,
        In w data ->
        In (name, score) (firstn 2 (orEmpty (similar_words w))) ->
        thr <= score -> known data name ->
        exists l, In l (semanticConnections thr data) /\ joins (word w) name l)
  /\ (forall l, In l (semanticConnections thr data) ->
        exists w name score,
          In w data
          /\ In (name, score) (firstn 2 (orEmpty (similar_words w)))
          /\ thr <= score
          /\ known data name
          /\ joins (word w) name l)
  /\ (forall w, length (connectionsFor thr data w) <= 2)%nat
  /\ (NoDup (map word data) ->
      forall w, In w data ->
        List.filter (fun l => bool_decide (line_source l = Some (word w)))
          (semanticConnections thr data) = connectionsFor thr data w)
  /\ (NoDup (map word data) ->
      forall a, outDegree a (semanticConnections thr data) <= 2)%nat
  /\ (length (semanticConnections thr data) <= 2 * length data)%nat
  /\ (forall pA pB pC cA cB cC sB sC,
        List.filter (fun l => bool_decide (line_source l = Some "A"%string))
          (semanticConnections 0.55 (threeNodes pA pB pC cA cB cC sB sC))
        = [newConnection (nodeA pA cA) (mkWordObj "B" pB cB sB) "B"]).
Proof.
  split; [|split; [|split; [|split; [|split; [|split; [|split; [|split;
    [|split; [|split]]]]]]]]].
  - intros st Hd Ht. unfold createSemanticConnections. now rewrite Hd, Ht.
  - intros w l. apply in_connectionsFor.
  - intros w name score Hin Hs Hk.
    apply findWord_known in Hk as [t Ht].
    exists (newConnection w t name). split; [|apply newConnection_joins].
    apply in_connectionsFor. now exists name, score, t.
  - intros l. apply in_semanticConnections.
  - intros w name score Hw Hin Hs Hk.
    apply findWord_known in Hk as [t Ht].
    exists (newConnection w t name). split; [|apply newConnection_joins].
    apply in_semanticConnections. now exists w, name, score, t.
  - intros l Hl. unfold semanticConnections in Hl.
    apply in_flat_map in Hl as [w [Hw Hl]].
    apply in_connectionsFor in Hl as (name & score & t & Hin & Hs & Hf & ->).
    exists w, name, score. repeat split; try assumption.
    apply findWord_known. now exists t.
  - intros w. apply connectionsFor_length.
  - intros Hnd w Hw. now apply (filter_source_nodup thr data data Hnd).
  - intros Hnd a. now apply outDegree_nodup_aux.
  - apply semanticConnections_length_aux.
  - intros pA pB pC cA cB cC sB sC.
    unfold semanticConnections, threeNodes. simpl flat_map.
    cbn [List.filter]. rewrite bool_decide_eq_true_2 by reflexivity.
    f_equal. rewrite !List.filter_app.
    rewrite (filter_source_other _ _ (mkWordObj "B" pB cB sB)) by (simpl; congruence).
    rewrite (filter_source_other _ _ (mkWordObj "C" pC cC sC)) by (simpl; congruence).
    reflexivity.
Qed.

Lemma createSemanticConnections_top2_threshold_witness :
  NoDup (map word (threeNodes origin origin origin None None None None None))
  /\ (outDegree "A"
        (semanticConnections 0.55
           (threeNodes origin origin origin None None None None None)) <= 2)%nat.
Proof.
  assert (Hnd : NoDup (map word (threeNodes origin origin origin None None None None None))).
  { apply (bool_decide_unpack _). vm_compute. exact I. }
  split; [exact Hnd|].
  apply (createSemanticConnections_top2_threshold 0.55
           (threeNodes origin origin origin None None None None None)).
  exact Hnd.
Defined.

(** ** Bounding boxes *)

Lemma qmax_cases a b :
  (a <= b /\ qmax a b = b) \/ (b <= a /\ qmax a b = a).
Proof.
  unfold qmax. destruct (Qltb a b) eqn:E.
  - left. apply Qltb_lt in E. split; [lra | reflexivity].
  - right. apply Qltb_ge in E. split; [exact E | reflexivity].
Qed.

Section Axis.
Variable axis : Vec3 -> num.

Lemma fold_stepMin_from words a :
  finiteAlong axis words ->
  exists m, fold_left (stepMin axis) words (Fin a) = Fin m
    /\ m <= a
    /\ (forall w q, In w words -> axis (position w) = Fin q -> m <= q)
    /\ (m = a \/ exists w, In w words /\ axis (position w) = Fin m).
Proof.
  revert a. induction words as [|w ws IH]; intros a Hfin; cbn [fold_left].
  - exists a. repeat split; [lra | intros ? ? [] | now left].
  - destruct (Hfin w (or_introl eq_refl)) as [q Hq].
    assert (Hfin' : finiteAlong axis ws) by (intros w' Hw'; apply Hfin; now right).
    replace (stepMin axis (Fin a) w) with (if Qltb q a then Fin q else Fin a)
      by (unfold stepMin; now rewrite Hq).
    destruct (Qltb q a) eqn:E.
    + apply Qltb_lt in E. destruct (IH q Hfin') as (m & Hm & Hle & Hall & Hat).
      exists m. split; [exact Hm|]. split; [lra|]. split.
      * intros w' q' [<-|Hin] Hq'; [|now apply (Hall w')].
        rewrite Hq in Hq'. injection Hq' as <-. exact Hle.
      * right. destruct Hat as [->|(w' & Hin & Hw')].
        -- exists w. split; [now left | exact Hq].
        -- exists w'. split; [now right | exact Hw'].
    + apply Qltb_ge in E. destruct (IH a Hfin') as (m & Hm & Hle & Hall & Hat).
      exists m. split; [exact Hm|]. split; [exact Hle|]. split.
      * intros w' q' [<-|Hin] Hq'; [|now apply (Hall w')].
        rewrite Hq in Hq'. injection Hq' as <-. lra.
      * destruct Hat as [->|(w' & Hin & Hw')]; [now left|].
        right. exists w'. split; [now right | exact Hw'].
Qed.

Lemma fold_stepMax_from words a :
  finiteAlong axis words ->
  exists m, fold_left (stepMax axis) words (Fin a) = Fin m
    /\ a <= m
    /\ (forall w q, In w words -> axis (position w) = Fin q -> q <= m)
    /\ (m = a \/ exists w, In w words /\ axis (position w) = Fin m).
Proof.
  revert a. induction words as [|w ws IH]; intros a Hfin; cbn [fold_left].
  - exists a. repeat split; [lra | intros ? ? [] | now left].
  - destruct (Hfin w (or_introl eq_refl)) as [q Hq].
    assert (Hfin' : finiteAlong axis ws) by (intros w' Hw'; apply Hfin; now right).
    replace (stepMax axis (Fin a) w) with (if Qltb a q then Fin q else Fin a)
      by (unfold stepMax; now rewrite Hq).
    destruct (Qltb a q) eqn:E.
    + apply Qltb_lt in E. destruct (IH q Hfin') as (m & Hm & Hle & Hall & Hat).
      exists m. split; [exact Hm|]. split; [lra|]. split.
      * intros w' q' [<-|Hin] Hq'; [|now apply (Hall w')].
        rewrite Hq in Hq'. injection Hq' as <-. exact Hle.
      * right. destruct Hat as [->|(w' & Hin & Hw')].
        -- exists w. split; [now left | exact Hq].
        -- exists w'. split; [now right | exact Hw'].
    + apply Qltb_ge in E. destruct (IH a Hfin') as (m & Hm & Hle & Hall & Hat).
      exists m. split; [exact Hm|]. split; [exact Hle|]. split.
      * intros w' q' [<-|Hin] Hq'; [|now apply (Hall w')].
        rewrite Hq in Hq'. injection Hq' as <-. lra.
      * destruct Hat as [->|(w' & Hin & Hw')]; [now left|].
        right. exists w'. split; [now right | exact Hw'].
Qed.

(** From [Infinity], the first loop ends on the least coordinate. *)
Lemma fold_stepMin_lowest words :
  words <> [] -> finiteAlong axis words ->
  exists m, fold_left (stepMin axis) words PInf = Fin m /\ lowest axis words m.
Proof.
  destruct words as [|w ws]; [congruence|]. intros _ Hfin. cbn [fold_left].
  destruct (Hfin w (or_introl eq_refl)) as [q Hq].
  replace (stepMin axis PInf w) with (Fin q)
    by (unfold stepMin; now rewrite Hq).
  assert (Hfin' : finiteAlong axis ws) by (intros w' Hw'; apply Hfin; now right).
  destruct (fold_stepMin_from ws q Hfin') as (m & Hm & Hle & Hall & Hat).
  exists m. split; [exact Hm|]. split.
  - destruct Hat as [->|(w' & Hin & Hw')].
    + exists w, q. split; [now left|]. split; [exact Hq | reflexivity].
    + exists w', m. split; [now right|]. split; [exact Hw' | reflexivity].
  - intros w' [<-|Hin].
    + exists q. split; [exact Hq | exact Hle].
    + destruct (Hfin' w' Hin) as [q' Hq']. exists q'. split; [exact Hq'|].
      now apply (Hall w').
Qed.

Lemma fold_stepMax_highest words :
  words <> [] -> finiteAlong axis words ->
  exists m, fold_left (stepMax axis) words NInf = Fin m /\ highest axis words m.
Proof.
  destruct words as [|w ws]; [congruence|]. intros _ Hfin. cbn [fold_left].
  destruct (Hfin w (or_introl eq_refl)) as [q Hq].
  replace (stepMax axis NInf w) with (Fin q)
    by (unfold stepMax; now rewrite Hq).
  assert (Hfin' : finiteAlong axis ws) by (intros w' Hw'; apply Hfin; now right).
  destruct (fold_stepMax_from ws q Hfin') as (m & Hm & Hle & Hall & Hat).
  exists m. split; [exact Hm|]. split.
  - destruct Hat as [->|(w' & Hin & Hw')].
    + exists w, q. split; [now left|]. split; [exact Hq | reflexivity].
    + exists w', m. split; [now right|]. split; [exact Hw' | reflexivity].
  - intros w' [<-|Hin].
    + exists q. split; [exact Hq | exact Hle].
    + destruct (Hfin' w' Hin) as [q' Hq']. exists q'. split; [exact Hq'|].
      now apply (Hall w').
Qed.

Lemma lowest_unique words m m' :
  lowest axis words m -> lowest axis words m' -> m == m'.
Proof.
  intros [(w & q & Hw & Hq & Hqm) Hall] [(w' & q' & Hw' & Hq' & Hqm') Hall'].
  destruct (Hall w' Hw') as (p' & Hp' & Hle).
  destruct (Hall' w Hw) as (p & Hp & Hle').
  rewrite Hq in Hp. injection Hp as <-.
  rewrite Hq' in Hp'. injection Hp' as <-.
  lra.
Qed.

Lemma highest_unique words m m' :
  highest axis words m -> highest axis words m' -> m == m'.
Proof.
  intros [(w & q & Hw & Hq & Hqm) Hall] [(w' & q' & Hw' & Hq' & Hqm') Hall'].
  destruct (Hall w' Hw') as (p' & Hp' & Hle).
  destruct (Hall' w Hw) as (p & Hp & Hle').
  rewrite Hq in Hp. injection Hp as <-.
  rewrite Hq' in Hp'. injection Hp' as <-.
  lra.
Qed.

Lemma lowest_finiteAlong words m : lowest axis words m -> finiteAlong axis words.
Proof.
  intros [_ Hall] w Hw. destruct (Hall w Hw) as (q & Hq & _). now exists q.
Qed.

Lemma lowest_nonempty words m : lowest axis words m -> words <> [].
Proof. intros [(w & q & Hw & _) _] ->. destruct Hw. Qed.
End Axis.

Lemma qmax_compat a a' b b' : a == a' -> b == b' -> qmax a b == qmax a' b'.
Proof.
  intros Ha Hb.
  destruct (qmax_cases a b) as [[H1 ->]|[H1 ->]],
           (qmax_cases a' b') as [[H2 ->]|[H2 ->]]; lra.
Qed.

Lemma qmax_scale a b k : 0 <= k -> qmax (a * k) (b * k) == qmax a b * k.
Proof.
  intros Hk.
  destruct (qmax_cases a b) as [[H1 ->]|[H1 ->]],
           (qmax_cases (a * k) (b * k)) as [[H2 ->]|[H2 ->]];
    try reflexivity.
  - pose proof (Qmult_le_compat_r _ _ k H1 Hk). lra.
  - pose proof (Qmult_le_compat_r _ _ k H1 Hk). lra.
Qed.

Lemma qmax_ge_l a b : a <= qmax a b.
Proof. destruct (qmax_cases a b) as [[H ->]|[H ->]]; lra. Qed.

Lemma qmax_ge_r a b : b <= qmax a b.
Proof. destruct (qmax_cases a b) as [[H ->]|[H ->]]; lra. Qed.

Lemma Math_max_Fin x y : Math_max (Fin x) (Fin y) = Fin (qmax x y).
Proof. unfold Math_max, qmax. now destruct (Qltb x y). Qed.

(** The six accumulators evolve independently. *)
Lemma fold_growBounds ws b0 :
  fold_left growBounds ws b0 =
  {| minX := fold_left (stepMin vx) ws (minX b0);
     minY := fold_left (stepMin vy) ws (minY b0);
     minZ := fold_left (stepMin vz) ws (minZ b0);
     maxX := fold_left (stepMax vx) ws (maxX b0);
     maxY := fold_left (stepMax vy) ws (maxY b0);
     maxZ := fold_left (stepMax vz) ws (maxZ b0) |}.
Proof.
  revert b0. induction ws as [|w ws IH]; intros b0; cbn [fold_left].
  - now destruct b0.
  - rewrite IH. reflexivity.
Qed.

(** The first loop computes the bounding box. *)
Lemma boundsOf_boundingBox words b :
  boundingBox words b ->
  exists mX mY mZ MX MY MZ,
    boundsOf words = mkBounds (Fin mX) (Fin mY) (Fin mZ) (Fin MX) (Fin MY) (Fin MZ)
    /\ mX == loX b /\ mY == loY b /\ mZ == loZ b
    /\ MX == hiX b /\ MY == hiY b /\ MZ == hiZ b.
Proof.
  intros (HlX & HhX & HlY & HhY & HlZ & HhZ).
  pose proof (lowest_nonempty _ _ _ HlX) as Hne.
  pose proof (lowest_finiteAlong _ _ _ HlX) as HfX.
  pose proof (lowest_finiteAlong _ _ _ HlY) as HfY.
  pose proof (lowest_finiteAlong _ _ _ HlZ) as HfZ.
  destruct (fold_stepMin_lowest vx words Hne HfX) as (mX & EmX & LmX).
  destruct (fold_stepMin_lowest vy words Hne HfY) as (mY & EmY & LmY).
  destruct (fold_stepMin_lowest vz words Hne HfZ) as (mZ & EmZ & LmZ).
  destruct (fold_stepMax_highest vx words Hne HfX) as (MX & EMX & LMX).
  destruct (fold_stepMax_highest vy words Hne HfY) as (MY & EMY & LMY).
  destruct (fold_stepMax_highest vz words Hne HfZ) as (MZ & EMZ & LMZ).
  exists mX, mY, mZ, MX, MY, MZ. split.
  - unfold boundsOf. rewrite fold_growBounds. cbn [minX minY minZ maxX maxY maxZ].
    now rewrite EmX, EmY, EmZ, EMX, EMY, EMZ.
  - repeat split;
      first [ eapply lowest_unique; eassumption
            | eapply highest_unique; eassumption ].
Qed.

Lemma boundingBox_point words b w :
  boundingBox words b -> In w words -> exists x y z, position w = point x y z.
Proof.
  intros (HlX & _ & HlY & _ & HlZ & _) Hw.
  destruct (proj2 HlX w Hw) as (x & Hx & _).
  destruct (proj2 HlY w Hw) as (y & Hy & _).
  destruct (proj2 HlZ w Hw) as (z & Hz & _).
  exists x, y, z. destruct (position w) as [a c d]. simpl in *. now subst.
Qed.

Lemma shift_scale_mono c k : 0 <= k -> forall a b, a <= b -> (a - c) * k <= (b - c) * k.
Proof. intros Hk a b Hab. apply Qmult_le_compat_r; lra. Qed.


Lemma extent_pos_nonneg_scale b : 0 < extent b -> 0 < 500 / extent b.
Proof.
  intros H. apply Qlt_shift_div_l; [exact H | lra].
Qed.

Lemma extent_rescaled b cx cy cz k :
  0 <= k ->
  extent {| loX := (loX b - cx) * k; hiX := (hiX b - cx) * k;
            loY := (loY b - cy) * k; hiY := (hiY b - cy) * k;
            loZ := (loZ b - cz) * k; hiZ := (hiZ b - cz) * k |}
  == extent b * k.
Proof.
  intros Hk. unfold extent. cbn [loX hiX loY hiY loZ hiZ].
  rewrite <- qmax_scale by exact Hk.
  apply qmax_compat; [|ring].
  rewrite <- qmax_scale by exact Hk.
  apply qmax_compat; ring.
Qed.


(** ** normalizeData

    First the order of binary64: the comparison of two values is the
    comparison of the numbers they stand for. *)

Lemma digits2_bounds m :
  (2 ^ (Zpos (digits2_pos m) - 1) <= Zpos m < 2 ^ Zpos (digits2_pos m))%Z.
Proof.
  induction m as [m IH|m IH|]; cbn [digits2_pos].
  - rewrite Pos2Z.inj_succ.
    replace (Z.succ (Z.pos (digits2_pos m)) - 1)%Z
      with (Z.succ (Z.pos (digits2_pos m) - 1)) by lia.
    rewrite !Z.pow_succ_r by lia. lia.
  - rewrite Pos2Z.inj_succ.
    replace (Z.succ (Z.pos (digits2_pos m)) - 1)%Z
      with (Z.succ (Z.pos (digits2_pos m) - 1)) by lia.
    rewrite !Z.pow_succ_r by lia. lia.
  - simpl. lia.
Qed.

Lemma pow2_pos e : 0 < 2 ^ e.
Proof. apply Qpower_0_lt. reflexivity. Qed.

Lemma pow2_split e1 e2 :
  (e1 <= e2)%Z -> 2 ^ e2 == inject_Z (2 ^ (e2 - e1)) * 2 ^ e1.
Proof.
  intros H. rewrite Zpower_Qpower by lia.
  change (inject_Z 2) with 2.
  rewrite <- Qpower_plus by discriminate.
  now replace (e2 - e1 + e1)%Z with e2 by lia.
Qed.

(** Two positive binary64 magnitudes: the one with the smaller exponent is
    the smaller one, since the mantissa of the other has all its 53 bits. *)
Lemma bounded_lt m1 e1 m2 e2 :
  bounded prec emax m1 e1 = true -> bounded prec emax m2 e2 = true ->
  (e1 < e2)%Z ->
  inject_Z (Zpos m1) * 2 ^ e1 < inject_Z (Zpos m2) * 2 ^ e2.
Proof.
  unfold bounded, canonical_mantissa, fexp, SpecFloat.emin, prec, emax.
  intros H1 H2 He.
  apply andb_prop in H1 as [H1 _]. apply andb_prop in H2 as [H2 _].
  apply Z.eqb_eq in H1, H2.
  pose proof (digits2_bounds m1) as [_ B1].
  pose proof (digits2_bounds m2) as [B2 _].
  assert (D1 : (Zpos (digits2_pos m1) <= 53)%Z) by lia.
  assert (D2 : Zpos (digits2_pos m2) = 53%Z) by lia.
  rewrite D2 in B2.
  assert (B1' : (Zpos m1 < 2 ^ 53)%Z).
  { eapply Z.lt_le_trans; [exact B1|]. apply Z.pow_le_mono_r; lia. }
  assert (K : (2 <= 2 ^ (e2 - e1))%Z).
  { change 2%Z with (2 ^ 1)%Z at 1. apply Z.pow_le_mono_r; lia. }
  rewrite (pow2_split e1 e2) by lia.
  rewrite Qmult_assoc, <- inject_Z_mult.
  apply Qmult_lt_compat_r; [apply pow2_pos|].
  rewrite <- Zlt_Qlt.
  change (2 ^ (53 - 1))%Z with 4503599627370496%Z in B2.
  change (2 ^ 53)%Z with 9007199254740992%Z in B1'.
  nia.
Qed.

Lemma Qltb_true a b : a < b -> Qltb a b = true.
Proof. apply Qltb_lt. Qed.

Lemma Qltb_false a b : b <= a -> Qltb a b = false.
Proof. apply Qltb_ge. Qed.

Lemma mag_pos m e : 0 < inject_Z (Zpos m) * 2 ^ e.
Proof.
  apply Qmult_lt_0_compat; [|apply pow2_pos].
  change 0 with (inject_Z 0). rewrite <- Zlt_Qlt. lia.
Qed.

Lemma mag_neg m e : inject_Z (Zneg m) * 2 ^ e == - (inject_Z (Zpos m) * 2 ^ e).
Proof.
  change (Zneg m) with (- Zpos m)%Z. rewrite inject_Z_opp. ring.
Qed.

Lemma mag_same_exponent m1 m2 e :
  match Pos.compare_cont Eq m1 m2 with
  | Lt => inject_Z (Zpos m1) * 2 ^ e < inject_Z (Zpos m2) * 2 ^ e
  | Eq => m1 = m2
  | Gt => inject_Z (Zpos m2) * 2 ^ e < inject_Z (Zpos m1) * 2 ^ e
  end.
Proof.
  change (Pos.compare_cont Eq m1 m2) with (Pos.compare m1 m2).
  destruct (Pos.compare_spec m1 m2) as [E|L|G].
  - exact E.
  - apply Qmult_lt_compat_r; [apply pow2_pos|]. rewrite <- Zlt_Qlt. lia.
  - apply Qmult_lt_compat_r; [apply pow2_pos|]. rewrite <- Zlt_Qlt. lia.
Qed.

(** The order of two positive magnitudes, as [SFcompare] computes it. *)
Lemma mag_compare m1 e1 m2 e2 :
  bounded prec emax m1 e1 = true -> bounded prec emax m2 e2 = true ->
  match (match (e1 ?= e2)%Z with
         | Lt => Lt | Gt => Gt | Eq => Pos.compare_cont Eq m1 m2 end) with
  | Lt => inject_Z (Zpos m1) * 2 ^ e1 < inject_Z (Zpos m2) * 2 ^ e2
  | Eq => inject_Z (Zpos m1) * 2 ^ e1 == inject_Z (Zpos m2) * 2 ^ e2
  | Gt => inject_Z (Zpos m2) * 2 ^ e2 < inject_Z (Zpos m1) * 2 ^ e1
  end.
Proof.
  intros H1 H2. destruct (Z.compare_spec e1 e2) as [E|L|G].
  - subst e2. pose proof (mag_same_exponent m1 m2 e1) as H.
    destruct (Pos.compare_cont Eq m1 m2); auto. now subst m2.
  - now apply bounded_lt.
  - now apply bounded_lt.
Qed.

(** The comparison of binary64 is the comparison of the numbers. *)
Lemma SFltb_value x y :
  valid_binary x = true -> valid_binary y = true ->
  SFltb x y = numLtb (SFvalue x) (SFvalue y).
Proof.
  intros Hx Hy. unfold SFltb.
  destruct x as [sx|sx| |sx mx ex], y as [sy|sy| |sy my ey];
    cbn [SFcompare SFvalue numLtb]; try reflexivity;
    try (destruct sx; reflexivity); try (destruct sy; reflexivity);
    try (destruct sx, sy; reflexivity).
  - destruct sy; cbn [cond_Zopp]; symmetry.
    + apply Qltb_false. change (- Zpos my)%Z with (Zneg my). rewrite mag_neg.
      pose proof (mag_pos my ey). lra.
    + apply Qltb_true. apply mag_pos.
  - destruct sx; cbn [cond_Zopp]; symmetry.
    + apply Qltb_true. change (- Zpos mx)%Z with (Zneg mx). rewrite mag_neg.
      pose proof (mag_pos mx ex). lra.
    + apply Qltb_false. pose proof (mag_pos mx ex). lra.
  - cbn [valid_binary] in Hx, Hy.
    pose proof (mag_compare mx ex my ey Hx Hy) as H.
    pose proof (mag_pos mx ex) as Px. pose proof (mag_pos my ey) as Py.
    pose proof (mag_neg mx ex) as Nx. pose proof (mag_neg my ey) as Ny.
    set (v1 := inject_Z (Zpos mx) * 2 ^ ex) in *.
    set (v2 := inject_Z (Zpos my) * 2 ^ ey) in *.
    destruct sx, sy; cbn [cond_Zopp];
      change (- Zpos mx)%Z with (Zneg mx); change (- Zpos my)%Z with (Zneg my);
      fold v1 v2;
      set (n1 := inject_Z (Zneg mx) * 2 ^ ex) in *;
      set (n2 := inject_Z (Zneg my) * 2 ^ ey) in *;
      clearbody v1 v2 n1 n2;
      (destruct (ex ?= ey)%Z; [destruct (Pos.compare_cont Eq mx my)| |]);
      cbv beta iota in H; cbn [CompOpp]; symmetry;
      solve [apply Qltb_true; lra | apply Qltb_false; lra].
Qed.

Lemma ltb_value a b : (a <? b)%float = numLtb (valueOf a) (valueOf b).
Proof.
  rewrite FloatAxioms.ltb_spec. apply SFltb_value; apply Prim2SF_valid.
Qed.


Lemma is_nan_value a : is_nan a = isNaN (valueOf a).
Proof.
  unfold is_nan, valueOf. rewrite FloatAxioms.eqb_spec. unfold SFeqb.
  destruct (Prim2SF a) as [s|s| |s m e]; cbn [SFcompare SFvalue isNaN];
    try reflexivity.
  - now destruct s.
  - rewrite Z.compare_refl, Pos.compare_cont_refl. now destruct s.
Qed.

(** What [Number.isFinite] accepts is a zero or a finite binary64 value. *)
Lemma is_finite_SF a :
  is_finite a = true ->
  (exists s, Prim2SF a = S754_zero s) \/ (exists s m e, Prim2SF a = S754_finite s m e).
Proof.
  unfold is_finite, is_nan, is_infinity.
  rewrite !FloatAxioms.eqb_spec, FloatAxioms.abs_spec.
  change (Prim2SF infinity) with (S754_infinity false).
  destruct (Prim2SF a) as [s|s| |s m e]; simpl; intros H; try discriminate.
  - left. now exists s.
  - now destruct s.
  - right. now exists s, m, e.
Qed.

Lemma is_finite_value a : is_finite a = true -> exists q, valueOf a = Fin q.
Proof.
  intros H. unfold valueOf.
  destruct (is_finite_SF a H) as [[s ->]|(s & m & e & ->)]; cbn [SFvalue]; eauto.
Qed.

(** *** The same number *)

Lemma numEq_refl a : numEq a a.
Proof. destruct a; simpl; auto. reflexivity. Qed.

Lemma numEq_sym a b : numEq a b -> numEq b a.
Proof. destruct a, b; simpl; auto. intros H. now symmetry. Qed.

Lemma numEq_trans a b c : numEq a b -> numEq b c -> numEq a c.
Proof.
  destruct a, b, c; simpl; auto; try contradiction.
  intros H1 H2. now rewrite H1.
Qed.

Lemma numEqb_eq a b : numEqb a b = true -> numEq a b.
Proof.
  destruct a, b; simpl; auto; try discriminate. apply Qeq_bool_eq.
Qed.

Lemma Qltb_compat a a' b b' : a == a' -> b == b' -> Qltb a b = Qltb a' b'.
Proof. intros Ha Hb. unfold Qltb. now rewrite Ha, Hb. Qed.

Lemma Math_min_compat a a' b b' :
  numEq a a' -> numEq b b' -> numEq (Math_min a b) (Math_min a' b').
Proof.
  destruct a as [x| | |], a' as [x'| | |], b as [y| | |], b' as [y'| | |];
    simpl; auto; try contradiction.
  intros Hx Hy. rewrite (Qltb_compat y y' x x' Hy Hx).
  now destruct (Qltb y' x').
Qed.

Lemma Math_max_compat a a' b b' :
  numEq a a' -> numEq b b' -> numEq (Math_max a b) (Math_max a' b').
Proof.
  destruct a as [x| | |], a' as [x'| | |], b as [y| | |], b' as [y'| | |];
    simpl; auto; try contradiction.
  intros Hx Hy. rewrite (Qltb_compat x x' y y' Hx Hy).
  now destruct (Qltb x' y').
Qed.

(** [Math.min] and [Math.max] in terms of the order. *)
Lemma Math_min_order a b :
  Math_min a b =
  if isNaN a || isNaN b then NaN else if numLtb b a then b else a.
Proof.
  destruct a as [x| | |], b as [y| | |]; simpl; try reflexivity.
Qed.

Lemma Math_max_order a b :
  Math_max a b =
  if isNaN a || isNaN b then NaN else if numLtb a b then b else a.
Proof.
  destruct a as [x| | |], b as [y| | |]; simpl; try reflexivity.
Qed.

(** Two numbers none of which is below the other are the same number. *)
Lemma numLtb_total a b :
  isNaN a = false -> isNaN b = false ->
  numLtb a b = false -> numLtb b a = false -> numEq a b.
Proof.
  destruct a as [x| | |], b as [y| | |]; simpl; auto; try discriminate.
  intros _ _ H1 H2. apply Qltb_ge in H1, H2. lra.
Qed.

(** [Math.min] and [Math.max] of binary64 values never round: they return
    the number that the exact minimum (maximum) is. *)
Lemma Math_min64_value a b :
  numEq (valueOf (Math_min64 a b)) (Math_min (valueOf a) (valueOf b)).
Proof.
  unfold Math_min64. rewrite Math_min_order, !is_nan_value, !ltb_value.
  destruct (isNaN (valueOf a)) eqn:Na; [apply numEq_refl|].
  destruct (isNaN (valueOf b)) eqn:Nb; [apply numEq_refl|]. cbn [orb].
  destruct (numLtb (valueOf b) (valueOf a)) eqn:L1; [apply numEq_refl|].
  destruct (numLtb (valueOf a) (valueOf b)) eqn:L2; [apply numEq_refl|].
  destruct (get_sign a); [apply numEq_refl|].
  apply numEq_sym. now apply numLtb_total.
Qed.

Lemma Math_max64_value a b :
  numEq (valueOf (Math_max64 a b)) (Math_max (valueOf a) (valueOf b)).
Proof.
  unfold Math_max64. rewrite Math_max_order, !is_nan_value, !ltb_value.
  destruct (isNaN (valueOf a)) eqn:Na; [apply numEq_refl|].
  destruct (isNaN (valueOf b)) eqn:Nb; [apply numEq_refl|]. cbn [orb].
  destruct (numLtb (valueOf a) (valueOf b)) eqn:L1; [apply numEq_refl|].
  destruct (numLtb (valueOf b) (valueOf a)) eqn:L2; [apply numEq_refl|].
  destruct (get_sign a); [|apply numEq_refl].
  apply numEq_sym. now apply numLtb_total.
Qed.

(** *** The first loop in binary64 *)

Lemma growBounds64_sim b64 b p :
  boundsSim b64 b -> boundsSim (growBounds64 b64 p) (growBounds b (nodeAt p)).
Proof.
  intros (H1 & H2 & H3 & H4 & H5 & H6).
  unfold boundsSim, growBounds64, growBounds.
  cbn [minX64 minY64 minZ64 maxX64 maxY64 maxZ64 minX minY minZ maxX maxY maxZ
       nodeAt position positionOf vx vy vz].
  repeat split;
    first [ eapply numEq_trans;
            [apply Math_min64_value
            |apply Math_min_compat; [assumption | apply numEq_refl]]
          | eapply numEq_trans;
            [apply Math_max64_value
            |apply Math_max_compat; [assumption | apply numEq_refl]] ].
Qed.

Lemma fold_growBounds64_sim ps b64 b :
  boundsSim b64 b ->
  boundsSim (fold_left growBounds64 ps b64) (fold_left growBounds (map nodeAt ps) b).
Proof.
  revert b64 b. induction ps as [|p ps IH]; intros b64 b H; [exact H|].
  cbn [fold_left map]. apply IH. now apply growBounds64_sim.
Qed.

Lemma boundsOf64_sim ps : boundsSim (boundsOf64 ps) (boundsOf (map nodeAt ps)).
Proof.
  apply fold_growBounds64_sim. repeat split; exact I.
Qed.

Lemma numEq_hasValue a q r : numEq (valueOf a) (Fin q) -> q == r -> hasValue a r.
Proof.
  intros H E. unfold hasValue. destruct (valueOf a) as [q'| | |];
    try contradiction.
  exists q'. split; [reflexivity|]. simpl in H. now rewrite H.
Qed.

(** Comparisons do not round: whatever the finite positions, the first loop
    ends on the six numbers of the bounding box. *)
Lemma boundsOf64_box ps b :
  boundingBox64 ps b ->
  hasValue (minX64 (boundsOf64 ps)) (loX b)
  /\ hasValue (maxX64 (boundsOf64 ps)) (hiX b)
  /\ hasValue (minY64 (boundsOf64 ps)) (loY b)
  /\ hasValue (maxY64 (boundsOf64 ps)) (hiY b)
  /\ hasValue (minZ64 (boundsOf64 ps)) (loZ b)
  /\ hasValue (maxZ64 (boundsOf64 ps)) (hiZ b).
Proof.
  intros Hbox.
  destruct (boundsOf_boundingBox _ b Hbox)
    as (mX & mY & mZ & MX & MY & MZ & Hb & EmX & EmY & EmZ & EMX & EMY & EMZ).
  destruct (boundsOf64_sim ps) as (H1 & H2 & H3 & H4 & H5 & H6).
  rewrite Hb in H1, H2, H3, H4, H5, H6.
  cbn [minX minY minZ maxX maxY maxZ] in H1, H2, H3, H4, H5, H6.
  repeat split; eapply numEq_hasValue; eassumption.
Qed.

(** Every non-empty dataset with finite positions has a bounding box. *)
Lemma boundingBox64_exists ps :
  ps <> [] -> forallb finite64 ps = true -> exists b, boundingBox64 ps b.
Proof.
  intros Hne Hfin.
  assert (Hne' : map nodeAt ps <> []) by (destruct ps; [congruence | discriminate]).
  assert (Hax : finiteAlong vx (map nodeAt ps) /\ finiteAlong vy (map nodeAt ps)
                /\ finiteAlong vz (map nodeAt ps)).
  { rewrite forallb_forall in Hfin.
    repeat split; intros w Hw; apply in_map_iff in Hw as (p & <- & Hp);
      specialize (Hfin p Hp); unfold finite64 in Hfin;
      apply andb_prop in Hfin as [Hfin Hz]; apply andb_prop in Hfin as [Hx Hy];
      cbn [nodeAt position positionOf vx vy vz]; now apply is_finite_value. }
  destruct Hax as (HfX & HfY & HfZ).
  destruct (fold_stepMin_lowest vx _ Hne' HfX) as (mX & _ & LmX).
  destruct (fold_stepMin_lowest vy _ Hne' HfY) as (mY & _ & LmY).
  destruct (fold_stepMin_lowest vz _ Hne' HfZ) as (mZ & _ & LmZ).
  destruct (fold_stepMax_highest vx _ Hne' HfX) as (MX & _ & LMX).
  destruct (fold_stepMax_highest vy _ Hne' HfY) as (MY & _ & LMY).
  destruct (fold_stepMax_highest vz _ Hne' HfZ) as (MZ & _ & LMZ).
  exists (mkQBox mX MX mY MY mZ MZ). unfold boundingBox64, boundingBox. simpl. tauto.
Qed.

(** *** Exact operations *)

Lemma hasValue_compat a q r : hasValue a q -> q == r -> hasValue a r.
Proof. intros (q' & Hv & E) H. exists q'. split; [exact Hv | now rewrite E]. Qed.

Lemma exact_add a b x y :
  exactOp PrimFloat.add num_add a b = true ->
  hasValue a x -> hasValue b y -> hasValue (a + b)%float (x + y).
Proof.
  unfold exactOp. intros H (x' & Hx & Ex) (y' & Hy & Ey).
  rewrite Hx, Hy in H. apply numEqb_eq in H. cbn [num_add] in H.
  eapply numEq_hasValue; [exact H | now rewrite Ex, Ey].
Qed.

Lemma exact_sub a b x y :
  exactOp PrimFloat.sub num_sub a b = true ->
  hasValue a x -> hasValue b y -> hasValue (a - b)%float (x - y).
Proof.
  unfold exactOp. intros H (x' & Hx & Ex) (y' & Hy & Ey).
  rewrite Hx, Hy in H. apply numEqb_eq in H. cbn [num_sub num_neg num_add] in H.
  eapply numEq_hasValue; [exact H | rewrite Ex, Ey; ring].
Qed.

Lemma exact_mul a b x y :
  exactOp PrimFloat.mul num_mul a b = true ->
  hasValue a x -> hasValue b y -> hasValue (a * b)%float (x * y).
Proof.
  unfold exactOp. intros H (x' & Hx & Ex) (y' & Hy & Ey).
  rewrite Hx, Hy in H. apply numEqb_eq in H. cbn [num_mul] in H.
  eapply numEq_hasValue; [exact H | now rewrite Ex, Ey].
Qed.

Lemma exact_div a b x y :
  exactOp PrimFloat.div num_div a b = true ->
  hasValue a x -> hasValue b y -> ~ y == 0 -> hasValue (a / b)%float (x / y).
Proof.
  unfold exactOp. intros H (x' & Hx & Ex) (y' & Hy & Ey) Hne.
  rewrite Hx, Hy in H. apply numEqb_eq in H. cbn [num_div] in H.
  assert (Hc : (y' ?= 0) <> Eq).
  { intros Hc. apply Qeq_alt in Hc. apply Hne. now rewrite <- Ey. }
  assert (Hd : numEq (valueOf (a / b)%float) (Fin (x' / y'))).
  { destruct (y' ?= 0); [congruence | exact H | exact H]. }
  eapply numEq_hasValue; [exact Hd | now rewrite Ex, Ey].
Qed.

Lemma hasValue_max a b x y :
  hasValue a x -> hasValue b y -> hasValue (Math_max64 a b) (qmax x y).
Proof.
  intros (x' & Hx & Ex) (y' & Hy & Ey).
  pose proof (Math_max64_value a b) as H. rewrite Hx, Hy, Math_max_Fin in H.
  eapply numEq_hasValue; [exact H | now apply qmax_compat].
Qed.

Lemma hasValue_2 : hasValue 2%float 2.
Proof. eexists. split; [vm_compute; reflexivity | vm_compute; reflexivity]. Qed.

Lemma hasValue_500 : hasValue 500%float 500.
Proof. eexists. split; [vm_compute; reflexivity | vm_compute; reflexivity]. Qed.

Lemma boundingBox64_point ps b p :
  boundingBox64 ps b -> In p ps -> exists x y z, positionOf p = point x y z.
Proof.
  intros Hbox Hp.
  apply (boundingBox_point (map nodeAt ps) b (nodeAt p) Hbox).
  now apply in_map.
Qed.

(** *** An exact run *)

(** On an exact run the centre and the scale are the exact ones and every
    position is moved to the exact [(position - centre) * scale]. *)
Lemma normalizeData64_exact ps b :
  boundingBox64 ps b -> 0 < extent b -> exact64 ps = true ->
  hasValue (x64 (centerOf64 (boundsOf64 ps))) ((loX b + hiX b) / 2)
  /\ hasValue (y64 (centerOf64 (boundsOf64 ps))) ((loY b + hiY b) / 2)
  /\ hasValue (z64 (centerOf64 (boundsOf64 ps))) ((loZ b + hiZ b) / 2)
  /\ hasValue (spanOf64 (boundsOf64 ps)) (extent b)
  /\ hasValue (scaleOf64 (boundsOf64 ps)) (500 / extent b)
  /\ Forall2 (moved64 ((loX b + hiX b) / 2) ((loY b + hiY b) / 2)
                ((loZ b + hiZ b) / 2) (500 / extent b))
       ps (normalizeData64 ps).
Proof.
  intros Hbox Hext Hex.
  destruct (boundsOf64_box ps b Hbox) as (VlX & VhX & VlY & VhY & VlZ & VhZ).
  unfold exact64 in Hex. cbv zeta in Hex.
  apply andb_prop in Hex as [Hex Hres]. apply andb_prop in Hex as [Hc Hs].
  unfold exactCenter in Hc. unfold exactScale in Hs.
  repeat match type of Hc with
         | (_ && _)%bool = true =>
             let H := fresh "Hc" in apply andb_prop in Hc as [Hc H]
         end.
  repeat match type of Hs with
         | (_ && _)%bool = true =>
             let H := fresh "Hs" in apply andb_prop in Hs as [Hs H]
         end.
  assert (Two : ~ 2 == 0) by discriminate.
  assert (Cx : hasValue (x64 (centerOf64 (boundsOf64 ps))) ((loX b + hiX b) / 2)).
  { cbn [centerOf64 x64].
    apply exact_div; [assumption | now apply exact_add | apply hasValue_2 | exact Two]. }
  assert (Cy : hasValue (y64 (centerOf64 (boundsOf64 ps))) ((loY b + hiY b) / 2)).
  { cbn [centerOf64 y64].
    apply exact_div; [assumption | now apply exact_add | apply hasValue_2 | exact Two]. }
  assert (Cz : hasValue (z64 (centerOf64 (boundsOf64 ps))) ((loZ b + hiZ b) / 2)).
  { cbn [centerOf64 z64].
    apply exact_div; [assumption | now apply exact_add | apply hasValue_2 | exact Two]. }
  assert (Sp : hasValue (spanOf64 (boundsOf64 ps)) (extent b)).
  { unfold spanOf64, Math_max3_64, extent.
    repeat apply hasValue_max; now apply exact_sub. }
  assert (Sc : hasValue (scaleOf64 (boundsOf64 ps)) (500 / extent b)).
  { unfold scaleOf64.
    apply exact_div; [assumption | apply hasValue_500 | exact Sp | lra]. }
  repeat (split; [assumption|]).
  unfold normalizeData64. cbv zeta.
  assert (H : forall qs, (forall p, In p qs -> In p ps) ->
            forallb (exactRescale (centerOf64 (boundsOf64 ps))
                       (scaleOf64 (boundsOf64 ps))) qs = true ->
            Forall2 (moved64 ((loX b + hiX b) / 2) ((loY b + hiY b) / 2)
                       ((loZ b + hiZ b) / 2) (500 / extent b))
              qs (map (rescale64 (centerOf64 (boundsOf64 ps))
                         (scaleOf64 (boundsOf64 ps))) qs)).
  { induction qs as [|p qs IH]; intros Hsub Hall; cbn [map]; constructor.
    - cbn [forallb] in Hall. apply andb_prop in Hall as [Hp _].
      unfold exactRescale in Hp.
      repeat match type of Hp with
             | (_ && _)%bool = true =>
                 let H := fresh "Hp" in apply andb_prop in Hp as [Hp H]
             end.
      destruct (boundingBox64_point ps b p Hbox (Hsub p (or_introl eq_refl)))
        as (x & y & z & Hpos).
      assert (Vx : hasValue (x64 p) x).
      { exists x. split; [now injection Hpos | reflexivity]. }
      assert (Vy : hasValue (y64 p) y).
      { exists y. split; [now injection Hpos | reflexivity]. }
      assert (Vz : hasValue (z64 p) z).
      { exists z. split; [now injection Hpos | reflexivity]. }
      exists x, y, z. split; [exact Hpos|]. cbn [rescale64 x64 y64 z64].
      repeat split; (apply exact_mul; [assumption | now apply exact_sub | exact Sc]).
    - apply IH; [intros q Hq; apply Hsub; now right|].
      cbn [forallb] in Hall. now apply andb_prop in Hall as [_ Hall]. }
  apply H; [auto | exact Hres].
Qed.

(** *** The box of the moved positions *)

Lemma Forall2_In_l {A B : Type} (R : A -> B -> Prop) l l' x :
  Forall2 R l l' -> In x l -> exists y, In y l' /\ R x y.
Proof.
  induction 1 as [|a b l l' Hab _ IH]; intros Hin; [destruct Hin|].
  destruct Hin as [<-|Hin].
  - exists b. split; [now left | exact Hab].
  - destruct (IH Hin) as (y & Hy & Hxy). exists y. split; [now right | exact Hxy].
Qed.

Lemma Forall2_In_r {A B : Type} (R : A -> B -> Prop) l l' y :
  Forall2 R l l' -> In y l' -> exists x, In x l /\ R x y.
Proof.
  induction 1 as [|a b l l' Hab _ IH]; intros Hin; [destruct Hin|].
  destruct Hin as [<-|Hin].
  - exists a. split; [now left | exact Hab].
  - destruct (IH Hin) as (x & Hx & Hxy). exists x. split; [now right | exact Hxy].
Qed.

Section Moved.
Variable axis : Vec3 -> num.
Variable g : Q -> Q.
Variables ps ps' : list Vec64.
Hypothesis g_mono : forall a b, a <= b -> g a <= g b.
Hypothesis along :
  Forall2 (fun p p' => forall q, axis (positionOf p) = Fin q ->
             exists q', axis (positionOf p') = Fin q' /\ q' == g q) ps ps'.

Lemma g_compat64 a b : a == b -> g a == g b.
Proof using g_mono.
  intros H. apply Qle_antisym; apply g_mono; lra.
Qed.

Lemma lowest_moved64 m :
  lowest axis (map nodeAt ps) m -> lowest axis (map nodeAt ps') (g m).
Proof using g_mono along.
  intros [(w & q & Hw & Hq & Hqm) Hall]. split.
  - apply in_map_iff in Hw as (p & <- & Hp).
    destruct (Forall2_In_l _ _ _ _ along Hp) as (p' & Hp' & Hpp').
    destruct (Hpp' q Hq) as (q' & Hq' & E).
    exists (nodeAt p'), q'. split; [now apply in_map|]. split; [exact Hq'|].
    rewrite E. now apply g_compat64.
  - intros w' Hw'. apply in_map_iff in Hw' as (p' & <- & Hp').
    destruct (Forall2_In_r _ _ _ _ along Hp') as (p & Hp & Hpp').
    destruct (Hall (nodeAt p) (in_map nodeAt _ _ Hp)) as (q0 & Hq0 & Hle).
    destruct (Hpp' q0 Hq0) as (q' & Hq' & E).
    exists q'. split; [exact Hq'|]. rewrite E. now apply g_mono.
Qed.

Lemma highest_moved64 m :
  highest axis (map nodeAt ps) m -> highest axis (map nodeAt ps') (g m).
Proof using g_mono along.
  intros [(w & q & Hw & Hq & Hqm) Hall]. split.
  - apply in_map_iff in Hw as (p & <- & Hp).
    destruct (Forall2_In_l _ _ _ _ along Hp) as (p' & Hp' & Hpp').
    destruct (Hpp' q Hq) as (q' & Hq' & E).
    exists (nodeAt p'), q'. split; [now apply in_map|]. split; [exact Hq'|].
    rewrite E. now apply g_compat64.
  - intros w' Hw'. apply in_map_iff in Hw' as (p' & <- & Hp').
    destruct (Forall2_In_r _ _ _ _ along Hp') as (p & Hp & Hpp').
    destruct (Hall (nodeAt p) (in_map nodeAt _ _ Hp)) as (q0 & Hq0 & Hle).
    destruct (Hpp' q0 Hq0) as (q' & Hq' & E).
    exists q'. split; [exact Hq'|]. rewrite E. now apply g_mono.
Qed.
End Moved.

Lemma moved64_vx cx cy cz k ps ps' :
  Forall2 (moved64 cx cy cz k) ps ps' ->
  Forall2 (fun p p' => forall q, vx (positionOf p) = Fin q ->
             exists q', vx (positionOf p') = Fin q' /\ q' == (q - cx) * k) ps ps'.
Proof.
  intros H. eapply Forall2_impl; [exact H|]. clear H. intros p p' (x & y & z & Hp & (q' & Hq' & E) & _) q Hq.
  rewrite Hp in Hq. injection Hq as <-. now exists q'.
Qed.

Lemma moved64_vy cx cy cz k ps ps' :
  Forall2 (moved64 cx cy cz k) ps ps' ->
  Forall2 (fun p p' => forall q, vy (positionOf p) = Fin q ->
             exists q', vy (positionOf p') = Fin q' /\ q' == (q - cy) * k) ps ps'.
Proof.
  intros H. eapply Forall2_impl; [exact H|]. clear H. intros p p' (x & y & z & Hp & _ & (q' & Hq' & E) & _) q Hq.
  rewrite Hp in Hq. injection Hq as <-. now exists q'.
Qed.

Lemma moved64_vz cx cy cz k ps ps' :
  Forall2 (moved64 cx cy cz k) ps ps' ->
  Forall2 (fun p p' => forall q, vz (positionOf p) = Fin q ->
             exists q', vz (positionOf p') = Fin q' /\ q' == (q - cz) * k) ps ps'.
Proof.
  intros H. eapply Forall2_impl; [exact H|]. clear H. intros p p' (x & y & z & Hp & _ & _ & (q' & Hq' & E)) q Hq.
  rewrite Hp in Hq. injection Hq as <-. now exists q'.
Qed.

(** The box of the moved positions is the moved box. *)
Lemma boundingBox64_moved cx cy cz k ps ps' b :
  0 <= k -> Forall2 (moved64 cx cy cz k) ps ps' ->
  boundingBox64 ps b -> boundingBox64 ps' (movedBox cx cy cz k b).
Proof.
  intros Hk Hm (HlX & HhX & HlY & HhY & HlZ & HhZ).
  unfold boundingBox64, boundingBox, movedBox. cbn [loX hiX loY hiY loZ hiZ].
  split; [|split; [|split; [|split; [|split]]]].
  - apply (lowest_moved64 vx (fun q => (q - cx) * k) ps ps');
      [now apply shift_scale_mono | exact (moved64_vx cx cy cz k _ _ Hm) | exact HlX].
  - apply (highest_moved64 vx (fun q => (q - cx) * k) ps ps');
      [now apply shift_scale_mono | exact (moved64_vx cx cy cz k _ _ Hm) | exact HhX].
  - apply (lowest_moved64 vy (fun q => (q - cy) * k) ps ps');
      [now apply shift_scale_mono | exact (moved64_vy cx cy cz k _ _ Hm) | exact HlY].
  - apply (highest_moved64 vy (fun q => (q - cy) * k) ps ps');
      [now apply shift_scale_mono | exact (moved64_vy cx cy cz k _ _ Hm) | exact HhY].
  - apply (lowest_moved64 vz (fun q => (q - cz) * k) ps ps');
      [now apply shift_scale_mono | exact (moved64_vz cx cy cz k _ _ Hm) | exact HlZ].
  - apply (highest_moved64 vz (fun q => (q - cz) * k) ps ps');
      [now apply shift_scale_mono | exact (moved64_vz cx cy cz k _ _ Hm) | exact HhZ].
Qed.

(** After an exact run the box has its midpoint at the origin and the
    extent 500. *)
Lemma normalized64_box ps b :
  boundingBox64 ps b -> 0 < extent b -> exact64 ps = true ->
  exists b',
    boundingBox64 (normalizeData64 ps) b'
    /\ (loX b' + hiX b') / 2 == 0
    /\ (loY b' + hiY b') / 2 == 0
    /\ (loZ b' + hiZ b') / 2 == 0
    /\ extent b' == 500.
Proof.
  intros Hbox Hext Hex.
  destruct (normalizeData64_exact ps b Hbox Hext Hex) as (_ & _ & _ & _ & _ & Hm).
  pose proof (extent_pos_nonneg_scale b Hext) as Hkpos.
  assert (Hk0 : 0 <= 500 / extent b) by lra.
  assert (Hne : ~ extent b == 0) by lra.
  eexists. split; [exact (boundingBox64_moved _ _ _ _ _ _ _ Hk0 Hm Hbox)|].
  unfold movedBox. rewrite (extent_rescaled b _ _ _ _ Hk0).
  cbn [loX hiX loY hiY loZ hiZ].
  split; [field; exact Hne|]. split; [field; exact Hne|].
  split; [field; exact Hne|]. now field.
Qed.

(** *** One binary64 value per number *)





(** *** The box [[-100, 100]] on every axis *)



Lemma cube64_box : boundingBox64 cube64 cubeBox.
Proof.
  box_of_list.
  repeat match goal with |- _ /\ _ => split end; try box_all.
  - box_at ltac:(right; left; reflexivity).
  - box_at ltac:(left; reflexivity).
  - box_at ltac:(right; left; reflexivity).
  - box_at ltac:(right; right; left; reflexivity).
  - box_at ltac:(right; left; reflexivity).
  - box_at ltac:(right; right; left; reflexivity).
Qed.






(** *** One shared position *)

Lemma ltb_irrefl a : (a <? a)%float = false.
Proof.
  rewrite FloatAxioms.ltb_spec. unfold SFltb.
  destruct (Prim2SF a) as [s|s| |s m e] eqn:E; simpl; try reflexivity.
  - now destruct s.
  - rewrite Z.compare_refl, Pos.compare_cont_refl. now destruct s.
Qed.

Lemma ltb_infinity a : is_finite a = true -> (a <? infinity)%float = true.
Proof.
  intros H. rewrite FloatAxioms.ltb_spec.
  change (Prim2SF infinity) with (S754_infinity false).
  destruct (is_finite_SF a H) as [[s ->]|(s & m & e & ->)]; reflexivity.
Qed.

Lemma neg_infinity_ltb a : is_finite a = true -> (neg_infinity <? a)%float = true.
Proof.
  intros H. rewrite FloatAxioms.ltb_spec.
  change (Prim2SF neg_infinity) with (S754_infinity true).
  destruct (is_finite_SF a H) as [[s ->]|(s & m & e & ->)]; reflexivity.
Qed.

Lemma is_finite_not_nan a : is_finite a = true -> is_nan a = false.
Proof. unfold is_finite. destruct (is_nan a); [discriminate | reflexivity]. Qed.

Lemma Math_min64_infinity a : is_finite a = true -> Math_min64 infinity a = a.
Proof.
  intros H. unfold Math_min64. rewrite (is_finite_not_nan a H).
  change (is_nan infinity) with false. simpl. now rewrite ltb_infinity.
Qed.

Lemma Math_max64_neg_infinity a : is_finite a = true -> Math_max64 neg_infinity a = a.
Proof.
  intros H. unfold Math_max64. rewrite (is_finite_not_nan a H).
  change (is_nan neg_infinity) with false. simpl. now rewrite neg_infinity_ltb.
Qed.

Lemma Math_min64_same a : is_finite a = true -> Math_min64 a a = a.
Proof.
  intros H. unfold Math_min64. rewrite (is_finite_not_nan a H). simpl.
  rewrite ltb_irrefl. now destruct (get_sign a).
Qed.

Lemma Math_max64_same a : is_finite a = true -> Math_max64 a a = a.
Proof.
  intros H. unfold Math_max64. rewrite (is_finite_not_nan a H). simpl.
  rewrite ltb_irrefl. now destruct (get_sign a).
Qed.

(** [x - x] is [+0] for every finite [x]. *)
Lemma sub_same a : is_finite a = true -> (a - a)%float = 0%float.
Proof.
  intros H. apply Prim2SF_inj. rewrite FloatAxioms.sub_spec.
  change (Prim2SF 0) with (S754_zero false).
  destruct (is_finite_SF a H) as [[s ->]|(s & m & e & ->)].
  - now destruct s.
  - unfold SF64sub, SFsub. rewrite Z.sub_diag. reflexivity.
Qed.

(** Whatever is multiplied by [Infinity], the product is an infinity or
    [NaN]. *)
Lemma mul_infinity_not_finite a : is_finite (a * infinity)%float = false.
Proof.
  unfold is_finite, is_nan, is_infinity.
  rewrite !FloatAxioms.eqb_spec, FloatAxioms.abs_spec, FloatAxioms.mul_spec.
  change (Prim2SF infinity) with (S754_infinity false).
  destruct (Prim2SF a) as [s|s| |s m e]; simpl; try reflexivity;
    now destruct s.
Qed.

Lemma finite64_coordinates x y z :
  finite64 (mkVec64 x y z) = true ->
  is_finite x = true /\ is_finite y = true /\ is_finite z = true.
Proof.
  unfold finite64. cbn [x64 y64 z64]. intros H.
  apply andb_prop in H as [H Hz]. apply andb_prop in H as [Hx Hy]. auto.
Qed.

Lemma fold_growBounds64_shared x y z ps :
  is_finite x = true -> is_finite y = true -> is_finite z = true ->
  (forall p, In p ps -> p = mkVec64 x y z) ->
  fold_left growBounds64 ps (mkBounds64 x y z x y z) = mkBounds64 x y z x y z.
Proof.
  intros Hx Hy Hz. induction ps as [|p ps IH]; intros Hall; [reflexivity|].
  cbn [fold_left]. rewrite (Hall p (or_introl eq_refl)).
  unfold growBounds64. cbn [minX64 minY64 minZ64 maxX64 maxY64 maxZ64 x64 y64 z64].
  rewrite !Math_min64_same, !Math_max64_same by assumption.
  apply IH. intros q Hq. apply Hall. now right.
Qed.

(** With one shared position the first loop ends on that position. *)
Lemma boundsOf64_shared x y z ps :
  ps <> [] -> is_finite x = true -> is_finite y = true -> is_finite z = true ->
  (forall p, In p ps -> p = mkVec64 x y z) ->
  boundsOf64 ps = mkBounds64 x y z x y z.
Proof.
  intros Hne Hx Hy Hz Hall. destruct ps as [|p ps]; [congruence|].
  unfold boundsOf64. cbn [fold_left]. rewrite (Hall p (or_introl eq_refl)).
  unfold growBounds64. cbn [minX64 minY64 minZ64 maxX64 maxY64 maxZ64 x64 y64 z64].
  rewrite !Math_min64_infinity, !Math_max64_neg_infinity by assumption.
  apply fold_growBounds64_shared; try assumption.
  intros q Hq. apply Hall. now right.
Qed.

(** C3, as the code has it.  [normalizeData] has no test of the span and no
    way to report an error.  When all nodes share one finite raw position
    (the same three binary64 numbers) the span is 0, the scale [500 / 0] is
    [Infinity], and every coordinate that the second loop writes is [NaN] or
    an infinity: none is finite. *)
Theorem normalizeData64_zero_span_undetected (ps : list Vec64) (x y z : float) :
  ps <> [] -> finite64 (mkVec64 x y z) = true ->
  (forall p, In p ps -> p = mkVec64 x y z) ->
  spanOf64 (boundsOf64 ps) = 0%float
  /\ scaleOf64 (boundsOf64 ps) = infinity
  /\ length (normalizeData64 ps) = length ps
  /\ forall p', In p' (normalizeData64 ps) ->
       is_finite (x64 p') = false /\ is_finite (y64 p') = false
       /\ is_finite (z64 p') = false.
Proof.
  intros Hne Hfin Hall.
  destruct (finite64_coordinates x y z Hfin) as (Hx & Hy & Hz).
  pose proof (boundsOf64_shared x y z ps Hne Hx Hy Hz Hall) as Hb.
  assert (Hspan : spanOf64 (boundsOf64 ps) = 0%float).
  { rewrite Hb. unfold spanOf64.
    cbn [minX64 minY64 minZ64 maxX64 maxY64 maxZ64].
    rewrite !sub_same by assumption. reflexivity. }
  assert (Hscale : scaleOf64 (boundsOf64 ps) = infinity).
  { unfold scaleOf64. rewrite Hspan. reflexivity. }
  split; [exact Hspan|]. split; [exact Hscale|].
  split; [unfold normalizeData64; apply length_map|].
  intros p' Hp'. unfold normalizeData64 in Hp'. cbv zeta in Hp'.
  rewrite Hscale in Hp'. apply in_map_iff in Hp' as (p & <- & _).
  cbn [rescale64 x64 y64 z64].
  repeat split; apply mul_infinity_not_finite.
Qed.

Lemma normalizeData64_zero_span_undetected_witness :
  (twins64 <> [] /\ finite64 (mkVec64 1 2 3) = true
   /\ forall p, In p twins64 -> p = mkVec64 1 2 3)
  /\ scaleOf64 (boundsOf64 twins64) = infinity.
Proof.
  assert (H1 : twins64 <> []) by discriminate.
  assert (H2 : finite64 (mkVec64 1 2 3) = true) by (vm_compute; reflexivity).
  assert (H3 : forall p, In p twins64 -> p = mkVec64 1 2 3).
  { intros p [<-|[<-|[]]]; reflexivity. }
  split; [split; [exact H1 | split; [exact H2 | exact H3]]|].
  apply (normalizeData64_zero_span_undetected twins64 1 2 3 H1 H2 H3).
Defined.

(** C3 as stated fails: two nodes at [(1, 2, 3)] are normalised without any
    error, to coordinates that are all [NaN]. *)
Lemma normalizeData64_NaN_counterexample :
  forallb finite64 twins64 = true
  /\ normalizeData64 twins64 = [mkVec64 nan nan nan; mkVec64 nan nan nan]
  /\ forallb finite64 (normalizeData64 twins64) = false.
Proof.
  split; [vm_compute; reflexivity|].
  split; vm_compute; reflexivity.
Qed.

(** ** Strings *)

Lemma startsWith_spec s q :
  startsWith s q = true <-> exists post, s = (q ++ post)%string.
Proof.
  revert s. induction q as [|c q IH]; intros s; simpl.
  - destruct s; split; eauto.
  - destruct s as [|d s]; simpl.
    + split; [discriminate | intros [post H]; discriminate].
    + destruct (Ascii.eqb c d) eqn:E; cbn [andb].
      * apply Ascii.eqb_eq in E as ->. rewrite IH. split.
        -- intros [post ->]. now exists post.
        -- intros [post H]. injection H as ->. now exists post.
      * apply Ascii.eqb_neq in E. split; [discriminate|].
        intros [post H]. injection H as -> _. congruence.
Qed.

Lemma includes_spec s q : includes s q = true <-> substring q s.
Proof.
  unfold substring. induction s as [|d s IH]; cbn [includes].
  - rewrite orb_false_r, startsWith_spec. split.
    + intros [post H]. now exists EmptyString, post.
    + intros [pre [post H]]. destruct pre; simpl in H; [now exists post|discriminate].
  - rewrite orb_true_iff, IH, startsWith_spec. split.
    + intros [[post H]|[pre [post H]]].
      * now exists EmptyString, post.
      * exists (String d pre), post. simpl. now rewrite H.
    + intros [pre [post H]]. destruct pre as [|e pre]; simpl in H.
      * left. now exists post.
      * right. injection H as -> ->. now exists pre, post.
Qed.

Lemma isEmpty_toLowerCase q : isEmpty (toLowerCase q) = false <-> q <> EmptyString.
Proof. destruct q; simpl; split; congruence. Qed.

(** ** performSearch *)

Lemma elem_of_addNeighbours sims hl x :
  x ∈ addNeighbours sims hl <-> x ∈ hl \/ exists score, In (x, score) sims.
Proof.
  unfold addNeighbours. revert hl. induction sims as [|[n sc] sims IH]; intros hl; simpl.
  - split; [now left | intros [H|[? []]]; exact H].
  - rewrite IH, elem_of_union, elem_of_singleton. split.
    + intros [[H| ->]|[score H]]; eauto.
    + intros [H|[score [H|H]]]; eauto.
      injection H as -> ->. eauto.
Qed.

(** The test [inWord || inCat] of the loop is the direct match. *)
Lemma directMatch_test q w cats :
  categories w = Some cats ->
  includes (toLowerCase (word w)) (toLowerCase q)
  || existsb (fun c => includes (toLowerCase c) (toLowerCase q)) cats = true
  <-> directMatch q w.
Proof.
  intros Hc. unfold directMatch, ciSubstring. rewrite Hc. simpl.
  rewrite orb_true_iff, includes_spec, existsb_exists.
  split; (intros [H|[c [Hin H]]]; [now left | right; exists c; split; [exact Hin|]]);
    now apply includes_spec.
Qed.

Lemma collectMatches_complete q data hl :
  Forall complete data ->
  exists hl',
    collectMatches (toLowerCase q) data hl = (hl', Normal)
    /\ forall x, x ∈ hl' <->
         x ∈ hl \/ exists w, In w data /\ directMatch q w
                             /\ (x = word w \/ neighbourOf x w).
Proof.
  revert hl. induction data as [|w data IH]; intros hl Hall.
  - exists hl. split; [reflexivity|]. intros x. split; [now left|].
    intros [H|(w & [] & _)]. exact H.
  - apply Forall_cons_iff in Hall as [[Hc Hs] Hall]. cbn [collectMatches].
    destruct (categories w) as [cats|] eqn:Ec; [|congruence].
    destruct (similar_words w) as [sims|] eqn:Es; [|congruence].
    pose proof (directMatch_test q w cats Ec) as Htest.
    destruct (includes (toLowerCase (word w)) (toLowerCase q)
              || existsb (fun c => includes (toLowerCase c) (toLowerCase q)) cats)
      eqn:Et.
    + destruct (IH (addNeighbours sims (hl ∪ {[word w]})) Hall) as (hl' & Ehl & Hhl).
      exists hl'. split; [exact Ehl|]. intros x. rewrite Hhl.
      rewrite elem_of_addNeighbours, elem_of_union, elem_of_singleton.
      split.
      * intros [[[H| ->]|[score H]]|(w' & Hin & Hm & Hx)].
        -- now left.
        -- right. exists w. split; [now left|]. split; [now apply Htest | now left].
        -- right. exists w. split; [now left|]. split; [now apply Htest|].
           right. exists score. unfold neighbourOf. now rewrite Es.
        -- right. exists w'. split; [now right|]. now split.
      * intros [H|(w' & [<-|Hin] & Hm & Hx)].
        -- now left; left; left.
        -- left. destruct Hx as [->|[score Hx]]; [now left; right|].
           right. exists score. now rewrite Es in Hx.
        -- right. exists w'. now repeat split.
    + destruct (IH hl Hall) as (hl' & Ehl & Hhl).
      exists hl'. split; [exact Ehl|]. intros x. rewrite Hhl. split.
      * intros [H|(w' & Hin & Hm & Hx)]; [now left|].
        right. exists w'. split; [now right|]. now split.
      * intros [H|(w' & [<-|Hin] & Hm & Hx)]; [now left| |].
        -- apply Htest in Hm. discriminate.
        -- right. exists w'. now repeat split.
Qed.

Lemma highlightedWords_applyHighlighting st :
  highlightedWords (applyHighlighting st) = highlightedWords st.
Proof. reflexivity. Qed.

(** C4. For a non-empty query, [performSearch] leaves in
    [this.highlightedWords] exactly the words that match directly (the query
    is a case-insensitive substring of the word or of one of its category
    tags) together with every neighbour named in the similarity list of such
    a word; nothing else is added, in particular no neighbour of a
    neighbour.  The dataset is one in which every node carries its
    [categories] and [similar_words] arrays. *)
Theorem performSearch_highlighted_set (st : Engine) (data : list WordObj) :
  wordData st = Some data -> Forall complete data ->
  searchQuery st <> EmptyString ->
  exists st',
    performSearch st = (st', Normal)
    /\ forall x, x ∈ highlightedWords st' <->
         exists w, In w data /\ directMatch (searchQuery st) w
                   /\ (x = word w \/ neighbourOf x w).
Proof.
  intros Hd Hall Hq. unfold performSearch.
  cbn [searchQuery wordData highlightedWords set_highlightedWords].
  apply isEmpty_toLowerCase in Hq. rewrite Hq, Hd.
  destruct (collectMatches_complete (searchQuery st) data ∅ Hall) as (hl & Ehl & Hhl).
  rewrite Ehl. eexists. split; [reflexivity|].
  intros x. rewrite highlightedWords_applyHighlighting.
  cbn [highlightedWords set_highlightedWords]. rewrite Hhl.
  split; [intros [H|H]; [set_solver | exact H] | now right].
Qed.

(** ** What the handlers do to [this.connections] *)

Lemma Forall_restyle (P : Line -> Prop) (f : Line -> Line) (ls : list Line) :
  (forall l, P l -> P (f l)) -> Forall P ls -> Forall P (map f ls).
Proof.
  intros Hf H. induction H; simpl; constructor; auto.
Qed.

Lemma in_semanticConnections_new thr data l :
  In l (semanticConnections thr data) ->
  exists w t name, l = newConnection w t name.
Proof.
  unfold semanticConnections. intros H.
  apply in_flat_map in H as (w & _ & H).
  apply in_connectionsFor in H as (name & _ & t & _ & _ & _ & ->).
  now exists w, t, name.
Qed.

(** The loader leaves [this.connections] alone or appends the new lines. *)
Lemma loadWordEmbeddings_connections r st :
  connections (fst (loadWordEmbeddings r st)) = connections st
  \/ exists data,
       connections (fst (loadWordEmbeddings r st))
       = connections st ++ semanticConnections (similarityThreshold st) data.
Proof.
  unfold loadWordEmbeddings, loadBody.
  destruct r as [| |[words|]]; try (now left).
  unfold createWordNodes, createWordLabels, createSemanticConnections, andThen.
  cbn [wordData set_wordData set_wordNodes set_wordLabels wordNodes].
  destruct (_ <=? _)%nat; [|now left].
  right. now exists (normalizeData words).
Qed.

Section LineInvariant.
Variable P : Line -> Prop.
Variable okSine : Q -> Prop.
Hypothesis P_new : forall w t name, P (newConnection w t name).
Hypothesis P_opacity : forall l, P l -> P (setLineOpacity 0.4 l).
Hypothesis P_breathing : forall s l, okSine s -> P l -> P (setLineOpacity (breathing s) l).
Hypothesis P_highlight : forall hl l, P l -> P (highlightLine hl l).
Hypothesis P_glow :
  forall l, P l ->
    P (setLineGlow (Glow 1) 0.4 l)
    /\ P (setLineGlow (Glow 50) 1.0 l)
    /\ P (setLineGlow (Glow 5) 0.2 l).

Lemma resetNodeState_lines j st :
  Forall P (connections st) -> Forall P (connections (resetNodeState j st)).
Proof using P_glow.
  intros H. unfold resetNodeState. cbn [connections set_connections].
  apply Forall_restyle; [|exact H]. intros l Hl. apply (P_glow l Hl).
Qed.

Lemma triggerNeuralActivity_lines i st :
  Forall P (connections st) ->
  Forall P (connections (fst (triggerNeuralActivity i st))).
Proof using P_glow.
  intros H. unfold triggerNeuralActivity.
  destruct (wordData st ≫= _) as [w|]; [|exact H].
  cbn [fst connections set_sparks set_connections].
  apply Forall_restyle; [|exact H]. intros l Hl. unfold overloadOrDim.
  destruct (touches (word w) l); apply (P_glow l Hl).
Qed.

Lemma handleHover_lines hit st :
  Forall P (connections st) -> Forall P (connections (fst (handleHover hit st))).
Proof using P_glow.
  intros H. unfold handleHover. destruct hit as [i|].
  - destruct (bool_decide _); [exact H|].
    apply triggerNeuralActivity_lines.
    cbn [connections set_wordLabels set_wordNodes set_hoveredNode].
    destruct (hoveredNode st); [now apply resetNodeState_lines | exact H].
  - destruct (hoveredNode st); [|exact H].
    cbn [fst connections set_hoveredNode]. now apply resetNodeState_lines.
Qed.

Lemma animate_lines s hit st :
  okSine s ->
  Forall P (connections st) -> Forall P (connections (fst (animate s hit st))).
Proof using P_glow P_breathing.
  intros Hs H. unfold animate. apply handleHover_lines.
  cbn [connections set_connections].
  apply Forall_restyle; [|exact H]. intros l Hl. unfold pulseLine.
  destruct (Qltb _ _); [now apply P_breathing | exact Hl].
Qed.

Lemma performSearch_lines st :
  Forall P (connections st) -> Forall P (connections (fst (performSearch st))).
Proof using P_opacity P_highlight.
  intros H. unfold performSearch.
  destruct (isEmpty _).
  - cbn [fst resetHighlighting connections set_connections].
    apply Forall_restyle; [apply P_opacity | exact H].
  - cbn [wordData set_highlightedWords]. destruct (wordData st) as [data|]; [|exact H].
    destruct (collectMatches _ _ _) as [hl [|e]]; [|exact H].
    cbn [fst applyHighlighting connections set_connections].
    apply Forall_restyle; [apply P_highlight | exact H].
Qed.

Lemma loadWordEmbeddings_lines r st :
  Forall P (connections st) ->
  Forall P (connections (fst (loadWordEmbeddings r st))).
Proof using P_new.
  intros H.
  destruct (loadWordEmbeddings_connections r st) as [->|[data ->]]; [exact H|].
  apply Forall_app. split; [exact H|].
  apply Forall_forall. intros l Hl. apply list_elem_of_In in Hl.
  apply in_semanticConnections_new in Hl as (w & t & name & ->). apply P_new.
Qed.

Lemma handle_lines ev st :
  okEvent okSine ev ->
  Forall P (connections st) -> Forall P (connections (fst (handle ev st))).
Proof using All.
  destruct ev as [r|s hit|value]; intros Hok H; cbn [handle].
  - now apply loadWordEmbeddings_lines.
  - now apply animate_lines.
  - unfold onSearchInput. now apply performSearch_lines.
Qed.

Lemma run_lines evs st :
  Forall (okEvent okSine) evs ->
  Forall P (connections st) -> Forall P (connections (run evs st)).
Proof using All.
  revert st. induction evs as [|ev evs IH]; intros st Hok H; [exact H|].
  apply Forall_cons_iff in Hok as [Hev Hok].
  cbn [run fold_left]. apply IH; [exact Hok|]. now apply handle_lines.
Qed.
End LineInvariant.

Lemma run_app evs1 evs2 st : run (evs1 ++ evs2) st = run evs2 (run evs1 st).
Proof. unfold run. apply fold_left_app. Qed.

Lemma okEvent_True evs : Forall (okEvent (fun _ => True)) evs.
Proof. induction evs as [|[]]; constructor; simpl; auto. Qed.

(** No line ever carries the keys [from] and [to]. *)
Lemma reachable_noFromTo st : reachable st -> Forall noFromTo (connections st).
Proof.
  intros [evs ->]. apply (run_lines noFromTo (fun _ => True)).
  - intros w t name. split; reflexivity.
  - intros l H. exact H.
  - intros s l _ H. exact H.
  - intros hl l H. exact H.
  - intros l H. split; [exact H | split; exact H].
  - apply okEvent_True.
  - constructor.
Qed.

(** Opacities of lines stay positive. *)
Lemma run_positive evs st :
  Forall sineOk evs ->
  Forall (fun l => 0 < line_opacity l) (connections st) ->
  Forall (fun l => 0 < line_opacity l) (connections (run evs st)).
Proof.
  apply (run_lines (fun l => 0 < line_opacity l) (fun s => -1 <= s <= 1)).
  - intros w t name. reflexivity.
  - intros l _. reflexivity.
  - intros s l Hs _. cbn [line_opacity setLineOpacity]. unfold breathing. lra.
  - intros hl l _. cbn [line_opacity highlightLine].
    destruct (_ && _); reflexivity.
  - intros l _. repeat split.
Qed.

Lemma highlightLine_noFromTo hl l :
  noFromTo l -> line_opacity (highlightLine hl l) = 0.02.
Proof. intros [Hf Ht]. unfold highlightLine. now rewrite Hf. Qed.

(** In every state the engine can reach, a search with a non-empty query
    that runs to its end dims every line to 0.02, whatever the matched
    set. *)
Lemma performSearch_dims_every_line st data :
  reachable st -> wordData st = Some data -> Forall complete data ->
  searchQuery st <> EmptyString ->
  forall l, In l (connections (fst (performSearch st))) -> line_opacity l = 0.02.
Proof.
  intros Hr Hd Hall Hq l Hl.
  pose proof (reachable_noFromTo st Hr) as Hkeys.
  unfold performSearch in Hl.
  cbn [searchQuery wordData highlightedWords set_highlightedWords] in Hl.
  apply isEmpty_toLowerCase in Hq. rewrite Hq, Hd in Hl.
  destruct (collectMatches_complete (searchQuery st) data ∅ Hall) as (hl & Ehl & _).
  rewrite Ehl in Hl. cbn [fst applyHighlighting connections set_connections] in Hl.
  apply in_map_iff in Hl as (l0 & <- & Hl0).
  apply highlightLine_noFromTo.
  rewrite Forall_forall in Hkeys. apply Hkeys. now apply list_elem_of_In.
Qed.

(** C5, evaluated.  After the dataset with the line X -> Y is loaded and the
    query "x" is typed, both X and Y are in the matched set, and the line
    between them is at opacity 0.02 like every other line: none is at 1.0. *)
Theorem applyHighlighting_matched_line_dimmed :
  let st := run [Loaded (Document (Some sceneWords)); Input "x"] newEngine in
  "X"%string ∈ highlightedWords st
  /\ "Y"%string ∈ highlightedWords st
  /\ map lineLook (connections st)
     = [(Some "X"%string, Some "Y"%string, Glow 15, 0.02);
        (Some "Z"%string, Some "X"%string, Glow 15, 0.02);
        (Some "P"%string, Some "Q"%string, Glow 15, 0.02)].
Proof.
  cbv zeta. split; [|split].
  - apply (bool_decide_unpack _). vm_compute. exact I.
  - apply (bool_decide_unpack _). vm_compute. exact I.
  - vm_compute. reflexivity.
Qed.

Lemma normalizeData_complete words :
  Forall complete words -> Forall complete (normalizeData words).
Proof.
  unfold normalizeData. cbv zeta.
  generalize (centerOf (boundsOf words)) (scaleOf (boundsOf words)).
  intros c k H. induction H; simpl; constructor; auto.
Qed.

Lemma sceneWords_complete : Forall complete sceneWords.
Proof.
  unfold sceneWords.
  repeat (apply List.Forall_cons; [split; discriminate|]). apply List.Forall_nil.
Qed.

Lemma performSearch_highlighted_set_witness :
  (wordData sceneQuery = Some (normalizeData sceneWords)
   /\ Forall complete (normalizeData sceneWords)
   /\ searchQuery sceneQuery <> EmptyString)
  /\ exists st',
       performSearch sceneQuery = (st', Normal)
       /\ forall x, x ∈ highlightedWords st' <->
            exists w, In w (normalizeData sceneWords)
                      /\ directMatch (searchQuery sceneQuery) w
                      /\ (x = word w \/ neighbourOf x w).
Proof.
  assert (H1 : wordData sceneQuery = Some (normalizeData sceneWords)) by reflexivity.
  assert (H2 : Forall complete (normalizeData sceneWords))
    by (apply normalizeData_complete, sceneWords_complete).
  assert (H3 : searchQuery sceneQuery <> EmptyString) by discriminate.
  split; [split; [exact H1 | split; [exact H2 | exact H3]]|].
  exact (performSearch_highlighted_set sceneQuery (normalizeData sceneWords) H1 H2 H3).
Defined.

(** ** Search followed by clearing the query *)

Lemma resetHighlighting_look st :
  Forall (fun n => node_emissiveIntensity n = 1.5 /\ node_opacity n = 0.9
                   /\ node_scale n = 1)
         (wordNodes (resetHighlighting st))
  /\ Forall (fun l => label_visible l = true) (wordLabels (resetHighlighting st))
  /\ Forall (fun l => line_opacity l = 0.4) (connections (resetHighlighting st)).
Proof.
  unfold resetHighlighting.
  cbn [wordNodes wordLabels connections set_connections set_wordLabels set_wordNodes].
  repeat split.
  - induction (wordNodes st); simpl; constructor; auto.
  - induction (wordLabels st); simpl; constructor; auto.
  - induction (connections st); simpl; constructor; auto.
Qed.

Lemma performSearch_words st :
  map node_word (wordNodes (fst (performSearch st))) = map node_word (wordNodes st)
  /\ length (wordLabels (fst (performSearch st))) = length (wordLabels st)
  /\ map line_userData (connections (fst (performSearch st)))
     = map line_userData (connections st).
Proof.
  unfold performSearch. destruct (isEmpty _).
  - cbn. rewrite !map_map, length_map. auto.
  - cbn [wordData set_highlightedWords]. destruct (wordData st); [|auto].
    destruct (collectMatches _ _ _) as [hl [|e]]; [|auto].
    cbn. rewrite !map_map, length_map. auto.
Qed.

(** C8, as the code has it.  Typing any text and then clearing the search
    box ends in the state that [resetHighlighting] writes: every sphere at
    emissive intensity 1.5, opacity 0.9 and scale 1, every label visible,
    every line at opacity 0.4, the matched set empty, the same spheres,
    labels and lines as before.  The scene is built with other values:
    emissive intensity 0 and opacity 1 for a sphere, opacity 0.8 for a line;
    only the scale 1 and the visible labels agree. *)
Theorem search_then_clear_is_reset (st : Engine) (value : string) :
  exists st2,
    onSearchInput EmptyString (fst (onSearchInput value st)) = (st2, Normal)
    /\ Forall (fun n => node_emissiveIntensity n = 1.5 /\ node_opacity n = 0.9
                        /\ node_scale n = 1)
              (wordNodes st2)
    /\ Forall (fun l => label_visible l = true) (wordLabels st2)
    /\ Forall (fun l => line_opacity l = 0.4) (connections st2)
    /\ highlightedWords st2 = ∅
    /\ map node_word (wordNodes st2) = map node_word (wordNodes st)
    /\ length (wordLabels st2) = length (wordLabels st)
    /\ map line_userData (connections st2) = map line_userData (connections st)
    /\ (forall w, nodeLook (newNode w) = (word w, 0, 1, 1))
    /\ label_visible newLabel = true
    /\ (forall w t name, line_opacity (newConnection w t name) = 0.8).
Proof.
  set (st1 := fst (onSearchInput value st)).
  exists (resetHighlighting (set_highlightedWords ∅ (set_searchQuery EmptyString st1))).
  split; [reflexivity|].
  destruct (resetHighlighting_look (set_highlightedWords ∅ (set_searchQuery EmptyString st1)))
    as (Hn & Hl & Hc).
  destruct (performSearch_words (set_searchQuery (trim (toLowerCase value)) st))
    as (Wn & Wl & Wc).
  fold (onSearchInput value st) in Wn, Wl, Wc. fold st1 in Wn, Wl, Wc.
  split; [exact Hn|]. split; [exact Hl|]. split; [exact Hc|].
  split; [reflexivity|].
  split; [cbn; rewrite map_map; exact Wn|].
  split; [cbn; rewrite length_map; exact Wl|].
  split; [cbn; rewrite map_map; exact Wc|].
  repeat split.
Qed.

(** C8 as stated fails: in the loaded scene the spheres are at emissive
    intensity 0 and opacity 1 and the lines at opacity 0.8; after "x" is
    typed and the box is cleared they are at 1.5, 0.9 and 0.4. *)
Lemma search_then_clear_counterexample :
  map nodeLook (wordNodes sceneEngine)
  = [("X"%string, 0, 1, 1); ("Y"%string, 0, 1, 1); ("Z"%string, 0, 1, 1);
     ("P"%string, 0, 1, 1); ("Q"%string, 0, 1, 1)]
  /\ map nodeLook (wordNodes (run [Input "x"; Input EmptyString] sceneEngine))
     = [("X"%string, 1.5, 0.9, 1); ("Y"%string, 1.5, 0.9, 1);
        ("Z"%string, 1.5, 0.9, 1); ("P"%string, 1.5, 0.9, 1);
        ("Q"%string, 1.5, 0.9, 1)]
  /\ map line_opacity (connections sceneEngine) = [0.8; 0.8; 0.8]
  /\ map line_opacity (connections (run [Input "x"; Input EmptyString] sceneEngine))
     = [0.4; 0.4; 0.4]
  /\ wordNodes (run [Input "x"; Input EmptyString] sceneEngine) <> wordNodes sceneEngine
  /\ connections (run [Input "x"; Input EmptyString] sceneEngine) <> connections sceneEngine.
Proof.
  assert (H1 : map nodeLook (wordNodes (run [Input "x"; Input EmptyString] sceneEngine))
               = [("X"%string, 1.5, 0.9, 1); ("Y"%string, 1.5, 0.9, 1);
                  ("Z"%string, 1.5, 0.9, 1); ("P"%string, 1.5, 0.9, 1);
                  ("Q"%string, 1.5, 0.9, 1)]) by (vm_compute; reflexivity).
  assert (H2 : map line_opacity (connections (run [Input "x"; Input EmptyString] sceneEngine))
               = [0.4; 0.4; 0.4]) by (vm_compute; reflexivity).
  split; [vm_compute; reflexivity|]. split; [exact H1|].
  split; [vm_compute; reflexivity|]. split; [exact H2|].
  split; intros E; [rewrite E in H1 | rewrite E in H2]; vm_compute in *; discriminate.
Qed.

(** ** Hover *)

Lemma touches_spec x l :
  touches x l = true <-> line_source l = Some x \/ line_target l = Some x.
Proof.
  unfold touches. rewrite orb_true_iff, !bool_decide_eq_true. reflexivity.
Qed.

Lemma keeps_pulseLine s : keeps (pulseLine s).
Proof. intros l. unfold pulseLine. destruct (Qltb _ _); split; reflexivity. Qed.

Lemma keeps_setLineGlow c o : keeps (setLineGlow c o).
Proof. intros l. split; reflexivity. Qed.

Lemma keeps_compose f g : keeps f -> keeps g -> keeps (fun l => f (g l)).
Proof.
  intros Hf Hg l. destruct (Hf (g l)) as [-> ->]. apply Hg.
Qed.

Lemma touches_keeps x g l : keeps g -> touches x (g l) = touches x l.
Proof.
  intros Hg. unfold touches, line_source, line_target.
  now rewrite (proj1 (Hg l)).
Qed.

Lemma filter_touches_keeps x g ls :
  keeps g ->
  map line_points (List.filter (touches x) (map g ls))
  = map line_points (List.filter (touches x) ls).
Proof.
  intros Hg. induction ls as [|l ls IH]; [reflexivity|]. simpl.
  rewrite (touches_keeps x g l Hg). destruct (touches x l); simpl; [|exact IH].
  now rewrite IH, (proj2 (Hg l)).
Qed.

(** C6, as the code has it.  In the frame in which the ray stops meeting a
    sphere while the sphere of index [j] is hovered, the release is
    [resetNodeState]: every line goes to the plain colour and opacity 0.4,
    the sphere [j] to scale 1 and emissive intensity 0 and its label to the
    base look, whatever the search query; the matched set, the query, the
    other spheres and the visibility of the labels are left as they are, and
    [applyHighlighting] is not run again. *)
Theorem hover_release_is_plain_reset (st : Engine) (j : nat) (s : Q) :
  hoveredNode st = Some j ->
  exists st',
    animate s None st = (st', Normal)
    /\ hoveredNode st' = None
    /\ (forall l, In l (connections st') ->
          line_color l = Glow 1 /\ line_opacity l = 0.4)
    /\ map line_userData (connections st') = map line_userData (connections st)
    /\ (forall n, wordNodes st !! j = Some n ->
          wordNodes st' !! j = Some (setNodeScale 1.0 n))
    /\ (forall k, k <> j -> wordNodes st' !! k = wordNodes st !! k)
    /\ (forall l, wordLabels st !! j = Some l ->
          wordLabels st' !! j = Some (setLabelLook (15, 7.5, 1) 0x25D366 0.7 l))
    /\ map label_visible (wordLabels st') = map label_visible (wordLabels st)
    /\ highlightedWords st' = highlightedWords st
    /\ searchQuery st' = searchQuery st.
Proof.
  intros Hj. unfold animate, handleHover.
  cbn [hoveredNode set_connections]. rewrite Hj.
  eexists. split; [reflexivity|].
  unfold resetNodeState.
  cbn [hoveredNode connections wordNodes wordLabels highlightedWords searchQuery
       set_hoveredNode set_connections set_wordLabels set_wordNodes].
  split; [reflexivity|]. split.
  - intros l Hl. apply in_map_iff in Hl as (l0 & <- & _). split; reflexivity.
  - split.
    + rewrite !map_map. apply map_ext. intros l. apply keeps_pulseLine.
    + split; [|split; [|split; [|split; [|split]]]]; try reflexivity.
      * intros n Hn. rewrite list_lookup_alter_eq, Hn. reflexivity.
      * intros k Hk. now apply list_lookup_alter_ne.
      * intros l Hl. rewrite list_lookup_alter_eq, Hl. reflexivity.
      * generalize (wordLabels st) as ls. clear. intros ls. revert j.
        induction ls as [|l ls IH]; intros [|j]; simpl; try reflexivity.
        f_equal. apply IH.
Qed.

Lemma hover_release_is_plain_reset_witness :
  hoveredNode (sceneHover 0) = Some 0%nat
  /\ exists st',
       animate 0 None (sceneHover 0) = (st', Normal)
       /\ hoveredNode st' = None.
Proof.
  assert (H : hoveredNode (sceneHover 0) = Some 0%nat) by reflexivity.
  split; [exact H|].
  destruct (hover_release_is_plain_reset (sceneHover 0) 0 0 H) as (st' & E & Hn & _).
  exists st'. split; [exact E | exact Hn].
Defined.

(** C6 as stated fails: with "x" still in the search box, hovering X and
    moving the pointer away leaves X at scale 1 and emissive intensity 0 and
    the lines at the plain colour and opacity 0.4, not at the looks that the
    search gave them. *)
Lemma hover_release_counterexample :
  let searched := run [Input "x"] sceneEngine in
  let released := run [Input "x"; Frame 0 (Some 0%nat); Frame 0 None] sceneEngine in
  searchQuery released = "x"%string
  /\ hoveredNode (run [Input "x"; Frame 0 (Some 0%nat)] sceneEngine) = Some 0%nat
  /\ hoveredNode released = None
  /\ map nodeLook (wordNodes searched)
     = [("X"%string, 1.5, 0.8, 3.0); ("Y"%string, 1.5, 0.8, 3.0);
        ("Z"%string, 0.15, 0.05, 0.7); ("P"%string, 0.15, 0.05, 0.7);
        ("Q"%string, 0.15, 0.05, 0.7)]
  /\ map nodeLook (wordNodes released)
     = [("X"%string, 0, 0.8, 1.0); ("Y"%string, 1.5, 0.8, 3.0);
        ("Z"%string, 0.15, 0.05, 0.7); ("P"%string, 0.15, 0.05, 0.7);
        ("Q"%string, 0.15, 0.05, 0.7)]
  /\ map lineLook (connections searched)
     = [(Some "X"%string, Some "Y"%string, Glow 15, 0.02);
        (Some "Z"%string, Some "X"%string, Glow 15, 0.02);
        (Some "P"%string, Some "Q"%string, Glow 15, 0.02)]
  /\ map lineLook (connections released)
     = [(Some "X"%string, Some "Y"%string, Glow 1, 0.4);
        (Some "Z"%string, Some "X"%string, Glow 1, 0.4);
        (Some "P"%string, Some "Q"%string, Glow 1, 0.4)]
  /\ wordNodes released <> wordNodes searched
  /\ connections released <> connections searched.
Proof.
  cbv zeta.
  assert (H1 : map nodeLook
                 (wordNodes (run [Input "x"; Frame 0 (Some 0%nat); Frame 0 None] sceneEngine))
               = [("X"%string, 0, 0.8, 1.0); ("Y"%string, 1.5, 0.8, 3.0);
                  ("Z"%string, 0.15, 0.05, 0.7); ("P"%string, 0.15, 0.05, 0.7);
                  ("Q"%string, 0.15, 0.05, 0.7)]) by (vm_compute; reflexivity).
  assert (H2 : map lineLook
                 (connections (run [Input "x"; Frame 0 (Some 0%nat); Frame 0 None] sceneEngine))
               = [(Some "X"%string, Some "Y"%string, Glow 1, 0.4);
                  (Some "Z"%string, Some "X"%string, Glow 1, 0.4);
                  (Some "P"%string, Some "Q"%string, Glow 1, 0.4)])
    by (vm_compute; reflexivity).
  repeat (split; [first [exact H1 | exact H2 | vm_compute; reflexivity]|]).
  split; intros E; [rewrite E in H1 | rewrite E in H2]; vm_compute in *; discriminate.
Qed.

(** ** The breathing pulse *)

Lemma breathing_range s : -1 <= s <= 1 -> 0.38 <= breathing s <= 0.62.
Proof. unfold breathing. intros [H1 H2]. split; lra. Qed.

Lemma handleHover_same st : handleHover (hoveredNode st) st = (st, Normal).
Proof.
  unfold handleHover. destruct (hoveredNode st) as [i|]; [|reflexivity].
  now rewrite bool_decide_eq_true_2.
Qed.

Lemma pulseLine_cases s l :
  (line_opacity l < 1 -> pulseLine s l = setLineOpacity (breathing s) l)
  /\ (1 <= line_opacity l -> pulseLine s l = l).
Proof.
  unfold pulseLine. split; intros H.
  - assert (E : Qltb (line_opacity l) 1.0 = true) by (apply Qltb_lt; lra).
    now rewrite E.
  - assert (E : Qltb (line_opacity l) 1.0 = false) by (apply Qltb_ge; lra).
    now rewrite E.
Qed.

(** C10, as the code has it.  In a frame that does not change the hovered
    sphere, the pulse writes the breathing value into every line whose
    opacity is below 1.0 and skips the others: the only lines it leaves
    alone are those at opacity 1.0 or more (the lines overloaded by the
    hover, or lit by a search).  A line dimmed by the search (0.02) or by the
    hover (0.2) takes the breathing value, which lies between 0.38 and
    0.62. *)
Theorem pulse_overwrites_dimmed_lines (st : Engine) (s : Q) (hit : option nat) :
  hit = hoveredNode st ->
  exists st',
    animate s hit st = (st', Normal)
    /\ Forall2
         (fun l l' =>
            (line_opacity l < 1 -> l' = setLineOpacity (breathing s) l)
            /\ (1 <= line_opacity l -> l' = l))
         (connections st) (connections st')
    /\ (forall l, In l (connections st) ->
          line_opacity l = 0.02 \/ line_opacity l = 0.2 ->
          exists l', In l' (connections st')
                     /\ line_userData l' = line_userData l
                     /\ line_opacity l' = breathing s)
    /\ (-1 <= s <= 1 -> 0.38 <= breathing s <= 0.62).
Proof.
  intros ->. unfold animate.
  pose proof (handleHover_same (set_connections (map (pulseLine s) (connections st)) st))
    as E.
  cbn [hoveredNode set_connections] in E. rewrite E.
  eexists. split; [reflexivity|]. cbn [connections set_connections].
  split; [|split].
  - clear E. induction (connections st) as [|l ls IH]; simpl; constructor.
    + apply pulseLine_cases.
    + exact IH.
  - intros l Hl Hop. exists (pulseLine s l). split; [now apply in_map|].
    assert (Hlt : line_opacity l < 1) by (destruct Hop as [-> | ->]; reflexivity).
    rewrite (proj1 (pulseLine_cases s l) Hlt). split; reflexivity.
  - apply breathing_range.
Qed.

Lemma pulse_overwrites_dimmed_lines_witness :
  Some 0%nat = hoveredNode (sceneHover 0)
  /\ exists st', animate 0 (Some 0%nat) (sceneHover 0) = (st', Normal).
Proof.
  assert (H : Some 0%nat = hoveredNode (sceneHover 0)) by reflexivity.
  split; [exact H|].
  destruct (pulse_overwrites_dimmed_lines (sceneHover 0) 0 (Some 0%nat) H)
    as (st' & E & _).
  now exists st'.
Defined.

(** C10 as stated fails.  The lines that the search dimmed to 0.02 are at
    the breathing value after the next frame; so is the line P -> Q that the
    hover of X dimmed to 0.2, while the two overloaded lines keep 1.0. *)
Lemma pulse_counterexample :
  map line_opacity (connections (run [Input "x"] sceneEngine)) = [0.02; 0.02; 0.02]
  /\ map line_opacity (connections (run [Input "x"; Frame 0 None] sceneEngine))
     = [breathing 0; breathing 0; breathing 0]
  /\ map line_opacity (connections (run [Frame 0 (Some 0%nat)] sceneEngine))
     = [1.0; 1.0; 0.2]
  /\ map line_opacity
       (connections (run [Frame 0 (Some 0%nat); Frame 0 (Some 0%nat)] sceneEngine))
     = [1.0; 1.0; breathing 0]
  /\ breathing 0 == 0.5
  /\ ~ breathing 0 == 0.02
  /\ ~ breathing 0 == 0.2.
Proof.
  repeat (split; [vm_compute; reflexivity|]).
  split; intros H; vm_compute in H; discriminate.
Qed.

(** ** Hovering a new sphere *)

(** The frame in which the sphere of index [i] becomes the hovered one. *)
Lemma animate_hover_new st data i w s :
  wordData st = Some data -> data !! i = Some w -> hoveredNode st <> Some i ->
  exists g st',
    keeps g
    /\ animate s (Some i) st = (st', Normal)
    /\ hoveredNode st' = Some i
    /\ connections st' = map (overloadOrDim (word w)) (map g (connections st))
    /\ sparks st'
       = sparks st
         ++ map line_points (List.filter (touches (word w)) (map g (connections st))).
Proof.
  intros Hd Hi Hh. unfold animate, handleHover.
  cbn [hoveredNode set_connections].
  rewrite bool_decide_eq_false_2 by exact Hh.
  destruct (hoveredNode st) as [j|].
  - exists (fun l => setLineGlow (Glow 1) 0.4 (pulseLine s l)).
    unfold triggerNeuralActivity, resetNodeState.
    cbn [wordData connections sparks wordNodes wordLabels
         set_hoveredNode set_connections set_wordLabels set_wordNodes].
    rewrite Hd. cbn [mbind option_bind]. rewrite Hi.
    eexists. split; [apply keeps_compose; [apply keeps_setLineGlow | apply keeps_pulseLine]|].
    split; [reflexivity|].
    cbn [hoveredNode connections sparks set_sparks set_connections].
    rewrite !map_map. repeat split; reflexivity.
  - exists (pulseLine s).
    unfold triggerNeuralActivity.
    cbn [wordData connections sparks wordNodes wordLabels
         set_hoveredNode set_connections set_wordLabels set_wordNodes].
    rewrite Hd. cbn [mbind option_bind]. rewrite Hi.
    eexists. split; [apply keeps_pulseLine|].
    split; [reflexivity|].
    cbn [hoveredNode connections sparks set_sparks set_connections].
    repeat split; reflexivity.
Qed.

Lemma overloadOrDim_look x g l :
  keeps g ->
  line_userData (overloadOrDim x (g l)) = line_userData l
  /\ line_points (overloadOrDim x (g l)) = line_points l
  /\ (line_source l = Some x \/ line_target l = Some x ->
        line_color (overloadOrDim x (g l)) = Glow 50
        /\ line_opacity (overloadOrDim x (g l)) = 1.0)
  /\ (~ (line_source l = Some x \/ line_target l = Some x) ->
        line_color (overloadOrDim x (g l)) = Glow 5
        /\ line_opacity (overloadOrDim x (g l)) = 0.2).
Proof.
  intros Hg. unfold overloadOrDim. rewrite (touches_keeps x g l Hg).
  destruct (Hg l) as [Hu Hp].
  destruct (touches x l) eqn:E.
  - apply touches_spec in E.
    cbn [line_userData line_points line_color line_opacity setLineGlow].
    repeat split; try assumption; contradiction.
  - assert (Hn : ~ (line_source l = Some x \/ line_target l = Some x)).
    { intros H. apply touches_spec in H. congruence. }
    cbn [line_userData line_points line_color line_opacity setLineGlow].
    repeat split; try assumption; contradiction.
Qed.

(** C7. In the frame in which the sphere of the word X becomes the hovered
    one, every line whose source or target is X takes the overload colour and
    opacity 1.0 and one spark is spawned along it, in the order of the lines;
    every other line takes the dim colour and opacity 0.2, which is positive.
    From then on, whatever frames and search inputs follow, no line has
    opacity 0 or less. *)
Theorem hover_overloads_touching_lines (st : Engine) (data : list WordObj)
    (i : nat) (w : WordObj) (s : Q) :
  wordData st = Some data -> data !! i = Some w -> hoveredNode st <> Some i ->
  exists st',
    animate s (Some i) st = (st', Normal)
    /\ hoveredNode st' = Some i
    /\ Forall2
         (fun l l' =>
            line_userData l' = line_userData l
            /\ line_points l' = line_points l
            /\ (line_source l = Some (word w) \/ line_target l = Some (word w) ->
                  line_color l' = Glow 50 /\ line_opacity l' = 1.0)
            /\ (~ (line_source l = Some (word w) \/ line_target l = Some (word w)) ->
                  line_color l' = Glow 5 /\ line_opacity l' = 0.2
                  /\ 0 < line_opacity l'))
         (connections st) (connections st')
    /\ sparks st'
       = sparks st
         ++ map line_points (List.filter (touches (word w)) (connections st))
    /\ (forall l, touches (word w) l = true <->
          line_source l = Some (word w) \/ line_target l = Some (word w))
    /\ forall evs, Forall sineOk evs ->
         Forall (fun l => 0 < line_opacity l) (connections (run evs st')).
Proof.
  intros Hd Hi Hh.
  destruct (animate_hover_new st data i w s Hd Hi Hh)
    as (g & st' & Hg & E & Hhov & Hc & Hs).
  exists st'. split; [exact E|]. split; [exact Hhov|].
  assert (Hrel : Forall2
         (fun l l' =>
            line_userData l' = line_userData l
            /\ line_points l' = line_points l
            /\ (line_source l = Some (word w) \/ line_target l = Some (word w) ->
                  line_color l' = Glow 50 /\ line_opacity l' = 1.0)
            /\ (~ (line_source l = Some (word w) \/ line_target l = Some (word w)) ->
                  line_color l' = Glow 5 /\ line_opacity l' = 0.2
                  /\ 0 < line_opacity l'))
         (connections st) (connections st')).
  { rewrite Hc. clear -Hg. induction (connections st) as [|l ls IH]; simpl; constructor.
    - destruct (overloadOrDim_look (word w) g l Hg) as (H1 & H2 & H3 & H4).
      split; [exact H1|]. split; [exact H2|]. split; [exact H3|].
      intros Hn. destruct (H4 Hn) as [H5 H6]. split; [exact H5|].
      split; [exact H6|]. rewrite H6. reflexivity.
    - exact IH. }
  split; [exact Hrel|].
  split; [rewrite Hs; now rewrite (filter_touches_keeps _ g _ Hg)|].
  split; [intros l; apply touches_spec|].
  intros evs Hok. apply run_positive; [exact Hok|].
  rewrite Hc, map_map. clear. induction (connections st) as [|l ls IH]; simpl; constructor.
  - unfold overloadOrDim. destruct (touches _ _); reflexivity.
  - exact IH.
Qed.

Lemma hover_overloads_touching_lines_witness :
  (wordData sceneEngine = Some sceneData
   /\ sceneData !! 0%nat = Some sceneX
   /\ hoveredNode sceneEngine <> Some 0%nat)
  /\ exists st',
       animate 0 (Some 0%nat) sceneEngine = (st', Normal)
       /\ hoveredNode st' = Some 0%nat.
Proof.
  assert (H1 : wordData sceneEngine = Some sceneData) by reflexivity.
  assert (H2 : sceneData !! 0%nat = Some sceneX) by reflexivity.
  assert (H3 : hoveredNode sceneEngine <> Some 0%nat) by discriminate.
  split; [split; [exact H1 | split; [exact H2 | exact H3]]|].
  destruct (hover_overloads_touching_lines sceneEngine sceneData 0 sceneX 0 H1 H2 H3)
    as (st' & E & Hh & _).
  exists st'. split; [exact E | exact Hh].
Defined.

(** Hovering X in the scene with the lines X -> Y, Z -> X and P -> Q: the
    first two are overloaded, P -> Q is dimmed to 0.2, two sparks run. *)
Example hover_scene_X :
  map lineLook (connections (sceneHover 0))
  = [(Some "X"%string, Some "Y"%string, Glow 50, 1.0);
     (Some "Z"%string, Some "X"%string, Glow 50, 1.0);
     (Some "P"%string, Some "Q"%string, Glow 5, 0.2)]
  /\ length (sparks (sceneHover 0)) = 2%nat.
Proof. split; vm_compute; reflexivity. Qed.

(** ** loadWordEmbeddings *)

Lemma performSearch_loadingVisible st :
  loadingVisible (fst (performSearch st)) = loadingVisible st.
Proof.
  unfold performSearch. destruct (isEmpty _); [reflexivity|].
  cbn [wordData set_highlightedWords]. destruct (wordData st); [|reflexivity].
  destruct (collectMatches _ _ _) as [hl [|e]]; reflexivity.
Qed.

Lemma handleHover_loadingVisible hit st :
  loadingVisible (fst (handleHover hit st)) = loadingVisible st.
Proof.
  unfold handleHover, triggerNeuralActivity. destruct hit as [i|].
  - destruct (bool_decide _); [reflexivity|].
    destruct (hoveredNode st); cbn [wordData set_wordLabels set_wordNodes
      set_hoveredNode resetNodeState set_connections];
      destruct (wordData st ≫= _); reflexivity.
  - destruct (hoveredNode st); reflexivity.
Qed.

Lemma run_loadingVisible evs st :
  Forall userEvent evs -> loadingVisible (run evs st) = loadingVisible st.
Proof.
  revert st. induction evs as [|ev evs IH]; intros st Hev; [reflexivity|].
  apply Forall_cons_iff in Hev as [Hu Hev]. cbn [run fold_left].
  fold (run evs (fst (handle ev st))). rewrite (IH _ Hev).
  destruct ev as [r|s hit|value]; [destruct Hu| |].
  - cbn [handle]. unfold animate. now rewrite handleHover_loadingVisible.
  - cbn [handle]. unfold onSearchInput. now rewrite performSearch_loadingVisible.
Qed.

(** C9, as the code has it.  When the request fails, the body is not JSON
    or the document has no [words], [loadWordEmbeddings] catches the
    exception itself, hands it to [console.error] and completes normally:
    nothing reaches the caller.  No sphere, label or line is built, and the
    element [#loading] keeps the display it had, also through every later
    frame and search input. *)
Theorem loadWordEmbeddings_failure_is_swallowed (st : Engine) (r : FetchOutcome) :
  (forall words, r <> Document (Some words)) ->
  exists st' e,
    loadWordEmbeddings r st = (st', Normal)
    /\ consoleErrors st' = consoleErrors st ++ [e]
    /\ loadingVisible st' = loadingVisible st
    /\ wordNodes st' = wordNodes st
    /\ wordLabels st' = wordLabels st
    /\ connections st' = connections st
    /\ forall evs, Forall userEvent evs ->
         loadingVisible (run evs st') = loadingVisible st.
Proof.
  intros Hr. destruct r as [| |[words|]].
  - eexists _, NetworkError. split; [reflexivity|].
    repeat (split; [reflexivity|]). intros evs Hev. now rewrite run_loadingVisible.
  - eexists _, SyntaxError. split; [reflexivity|].
    repeat (split; [reflexivity|]). intros evs Hev. now rewrite run_loadingVisible.
  - now destruct (Hr words).
  - eexists _, TypeError. split; [reflexivity|].
    repeat (split; [reflexivity|]). intros evs Hev. now rewrite run_loadingVisible.
Qed.

Lemma loadWordEmbeddings_failure_is_swallowed_witness :
  (forall words, JsonRejects <> Document (Some words))
  /\ exists st' e,
       loadWordEmbeddings JsonRejects newEngine = (st', Normal)
       /\ consoleErrors st' = [e]
       /\ loadingVisible st' = true.
Proof.
  assert (H : forall words, JsonRejects <> Document (Some words)) by discriminate.
  split; [exact H|].
  destruct (loadWordEmbeddings_failure_is_swallowed newEngine JsonRejects H)
    as (st' & e & E & Hc & Hl & _).
  exists st', e. split; [exact E|]. split; [exact Hc | exact Hl].
Defined.

(** C9 as stated fails: a rejected request ends in a normal completion with
    the error on the console only, and [#loading] is still displayed then
    and after later frames and inputs; a load that succeeds hides it. *)
Lemma loadWordEmbeddings_counterexample :
  loadWordEmbeddings FetchRejects newEngine
  = (set_consoleErrors [NetworkError] newEngine, Normal)
  /\ loadingVisible (fst (loadWordEmbeddings FetchRejects newEngine)) = true
  /\ loadingVisible
       (run [Loaded FetchRejects; Frame 0 None; Input "x"; Frame 0 None] newEngine)
     = true
  /\ loadingVisible sceneEngine = false.
Proof. repeat split. Qed.

(** ** Spheres and dataset stay aligned *)

Lemma map_node_word_alter f i (ns : list Node) :
  (forall n, node_word (f n) = node_word n) ->
  map node_word (alter f i ns) = map node_word ns.
Proof.
  intros Hf. revert i. induction ns as [|n ns IH]; intros [|i]; simpl;
    try reflexivity.
  - now rewrite Hf.
  - f_equal. apply IH.
Qed.

Lemma performSearch_wordData st :
  wordData (fst (performSearch st)) = wordData st.
Proof.
  unfold performSearch. destruct (isEmpty _); [reflexivity|].
  cbn [wordData set_highlightedWords]. destruct (wordData st) eqn:E; [|exact E].
  destruct (collectMatches _ _ _) as [hl [|e]]; exact E.
Qed.

Lemma handleHover_aligned hit st :
  wordData (fst (handleHover hit st)) = wordData st
  /\ map node_word (wordNodes (fst (handleHover hit st))) = map node_word (wordNodes st).
Proof.
  unfold handleHover, triggerNeuralActivity, resetNodeState. destruct hit as [i|].
  - destruct (bool_decide _); [split; reflexivity|].
    destruct (hoveredNode st);
      cbn [wordData wordNodes set_wordLabels set_wordNodes set_hoveredNode
           set_connections];
      destruct (wordData st ≫= _);
      cbn [fst wordData wordNodes set_sparks set_connections set_wordLabels
           set_wordNodes set_hoveredNode];
      (split; [reflexivity|]);
      rewrite ?map_node_word_alter by reflexivity; reflexivity.
  - destruct (hoveredNode st); [|split; reflexivity].
    cbn [fst wordData wordNodes set_sparks set_connections set_wordLabels
         set_wordNodes set_hoveredNode].
    split; [reflexivity|]. now rewrite map_node_word_alter.
Qed.

Lemma run_user_aligned evs st :
  Forall userEvent evs ->
  wordData (run evs st) = wordData st
  /\ map node_word (wordNodes (run evs st)) = map node_word (wordNodes st).
Proof.
  revert st. induction evs as [|ev evs IH]; intros st Hev; [split; reflexivity|].
  apply Forall_cons_iff in Hev as [Hu Hev]. cbn [run fold_left].
  fold (run evs (fst (handle ev st))). destruct (IH (fst (handle ev st)) Hev) as [-> ->].
  destruct ev as [r|s hit|value]; [destruct Hu| |]; cbn [handle].
  - unfold animate. destruct (handleHover_aligned hit
      (set_connections (map (pulseLine s) (connections st)) st)) as [-> ->].
    split; reflexivity.
  - unfold onSearchInput. rewrite performSearch_wordData.
    rewrite (proj1 (performSearch_words _)). split; reflexivity.
Qed.

Lemma normalizeData_words words : map word (normalizeData words) = map word words.
Proof. unfold normalizeData. rewrite map_map. reflexivity. Qed.

(** After the one load of the page, and whatever frames and inputs follow,
    the sphere of index [i] carries the word of [this.wordData[i]]: the word
    that [triggerNeuralActivity] looks up is the word of the hovered
    sphere. *)
Lemma loaded_spheres_match_dataset words evs :
  Forall userEvent evs ->
  wordData (run (Loaded (Document (Some words)) :: evs) newEngine)
  = Some (normalizeData words)
  /\ map node_word
       (wordNodes (run (Loaded (Document (Some words)) :: evs) newEngine))
     = map word (normalizeData words).
Proof.
  intros Hev. change (Loaded (Document (Some words)) :: evs)
    with ([Loaded (Document (Some words))] ++ evs).
  rewrite run_app.
  destruct (run_user_aligned evs (run [Loaded (Document (Some words))] newEngine) Hev)
    as [-> ->].
  cbn [run fold_left handle].
  unfold loadWordEmbeddings, loadBody, createWordNodes, createWordLabels,
    createSemanticConnections, andThen.
  cbn [newEngine wordData wordNodes set_wordData set_wordNodes set_wordLabels
       app].
  rewrite length_map, Nat.leb_refl.
  cbn [fst wordData wordNodes set_wordData set_wordNodes set_wordLabels
       set_connections set_signals set_loadingVisible].
  split; [reflexivity|]. now rewrite map_map.
Qed.

(** * Further properties *)

(** ** The scene after the load *)

Lemma map_alter_proj {A B : Type} (p : A -> B) (f : A -> A) (i : nat) (l : list A) :
  (forall x, p (f x) = p x) -> map p (alter f i l) = map p l.
Proof.
  intros Hf. revert i. induction l as [|x l IH]; intros [|i]; simpl;
    try reflexivity.
  - now rewrite Hf.
  - f_equal. apply IH.
Qed.

Lemma map_restyle_proj {A B : Type} (p : A -> B) (f : A -> A) (l : list A) :
  (forall x, p (f x) = p x) -> map p (map f l) = map p l.
Proof. intros Hf. rewrite map_map. apply map_ext. exact Hf. Qed.

Lemma sameScene_refl st : sameScene st st.
Proof. repeat split. Qed.

Lemma sameScene_trans st1 st2 st3 :
  sameScene st1 st2 -> sameScene st2 st3 -> sameScene st1 st3.
Proof.
  unfold sameScene.
  intros (A1 & A2 & A3 & A4 & A5 & A6 & A7 & A8) (B1 & B2 & B3 & B4 & B5 & B6 & B7 & B8).
  repeat split; congruence.
Qed.

Lemma resetNodeState_sameScene j st : sameScene st (resetNodeState j st).
Proof.
  unfold sameScene, resetNodeState.
  cbn [wordNodes wordLabels connections signals wordData similarityThreshold
       set_connections set_wordLabels set_wordNodes].
  rewrite !map_alter_proj by reflexivity.
  rewrite !map_restyle_proj by reflexivity. repeat split.
Qed.

Lemma overloadOrDim_keeps x : keeps (overloadOrDim x).
Proof. intros l. unfold overloadOrDim. destruct (touches x l); split; reflexivity. Qed.

Lemma triggerNeuralActivity_sameScene i st :
  sameScene st (fst (triggerNeuralActivity i st)).
Proof.
  unfold triggerNeuralActivity.
  destruct (wordData st ≫= _) as [w|]; [|apply sameScene_refl].
  unfold sameScene.
  cbn [fst wordNodes wordLabels connections signals wordData similarityThreshold
       set_sparks set_connections].
  rewrite (map_restyle_proj line_userData) by (intros l; apply overloadOrDim_keeps).
  rewrite (map_restyle_proj line_points) by (intros l; apply overloadOrDim_keeps).
  repeat split.
Qed.

Lemma handleHover_sameScene hit st : sameScene st (fst (handleHover hit st)).
Proof.
  unfold handleHover. destruct hit as [i|].
  - destruct (bool_decide _); [apply sameScene_refl|].
    eapply sameScene_trans; [|apply triggerNeuralActivity_sameScene].
    assert (H : forall st0, sameScene st0
              (set_wordLabels
                 (alter (setLabelLook (75, 37.5, 1) 0xffffff 1.0) i
                    (wordLabels (set_wordNodes (alter (setNodeScale 2.0) i
                       (wordNodes (set_hoveredNode (Some i) st0)))
                       (set_hoveredNode (Some i) st0))))
                 (set_wordNodes (alter (setNodeScale 2.0) i
                    (wordNodes (set_hoveredNode (Some i) st0)))
                    (set_hoveredNode (Some i) st0)))).
    { intros st0. unfold sameScene.
      cbn [wordNodes wordLabels connections signals wordData similarityThreshold
           set_wordLabels set_wordNodes set_hoveredNode].
      rewrite !map_alter_proj by reflexivity. repeat split. }
    destruct (hoveredNode st) as [j|]; [|apply H].
    eapply sameScene_trans; [apply (resetNodeState_sameScene j)|apply H].
  - destruct (hoveredNode st) as [j|]; [|apply sameScene_refl].
    cbn [fst]. eapply sameScene_trans; [apply (resetNodeState_sameScene j)|].
    repeat split.
Qed.

Lemma animate_sameScene s hit st : sameScene st (fst (animate s hit st)).
Proof.
  unfold animate. eapply sameScene_trans; [|apply handleHover_sameScene].
  unfold sameScene.
  cbn [wordNodes wordLabels connections signals wordData similarityThreshold
       set_connections].
  rewrite (map_restyle_proj line_userData) by (intros l; apply keeps_pulseLine).
  rewrite (map_restyle_proj line_points) by (intros l; apply keeps_pulseLine).
  repeat split.
Qed.

Lemma performSearch_sameScene st : sameScene st (fst (performSearch st)).
Proof.
  unfold performSearch. destruct (isEmpty _).
  - unfold sameScene, resetHighlighting.
    cbn [fst wordNodes wordLabels connections signals wordData similarityThreshold
         set_connections set_wordLabels set_wordNodes set_highlightedWords].
    rewrite !map_restyle_proj by reflexivity. repeat split.
  - cbn [wordData set_highlightedWords].
    destruct (wordData st) as [data|] eqn:E; [|repeat split; cbn; congruence].
    destruct (collectMatches _ _ _) as [hl [|e]]; [|repeat split; cbn; congruence].
    unfold sameScene, applyHighlighting.
    cbn [fst wordNodes wordLabels connections signals wordData similarityThreshold
         set_connections set_wordLabels set_wordNodes set_highlightedWords
         highlightedWords].
    rewrite !map_restyle_proj by reflexivity. repeat split.
Qed.

Lemma run_sameScene evs st : Forall userEvent evs -> sameScene st (run evs st).
Proof.
  revert st. induction evs as [|ev evs IH]; intros st Hev; [apply sameScene_refl|].
  apply Forall_cons_iff in Hev as [Hu Hev]. cbn [run fold_left].
  fold (run evs (fst (handle ev st))).
  eapply sameScene_trans; [|apply IH, Hev].
  destruct ev as [r|s hit|value]; [destruct Hu| |]; cbn [handle].
  - apply animate_sameScene.
  - unfold onSearchInput.
    eapply sameScene_trans; [|apply performSearch_sameScene]. repeat split.
Qed.

Lemma loadWordEmbeddings_fresh words :
  loadWordEmbeddings (Document (Some words)) newEngine
  = (set_loadingVisible false
       (set_signals
          (map line_points (semanticConnections 0.55 (normalizeData words)))
          (set_connections (semanticConnections 0.55 (normalizeData words))
             (set_wordLabels (map (fun _ => newLabel) (normalizeData words))
                (set_wordNodes (map newNode (normalizeData words))
                   (set_wordData (Some (normalizeData words)) newEngine))))),
     Normal).
Proof.
  unfold loadWordEmbeddings, loadBody, createWordNodes, createWordLabels,
    createSemanticConnections, andThen.
  cbn [newEngine wordData wordNodes set_wordData set_wordNodes set_wordLabels app].
  rewrite length_map, Nat.leb_refl.
  cbn [wordData wordNodes wordLabels connections signals similarityThreshold
       set_wordData set_wordNodes set_wordLabels set_connections app].
  rewrite <- (length_map newNode (normalizeData words)) at 1.
  rewrite firstn_all2 by (rewrite !length_map; lia).
  reflexivity.
Qed.

Lemma normalizeData_length words : length (normalizeData words) = length words.
Proof. unfold normalizeData. apply length_map. Qed.

Lemma normalizeData_categories words :
  map categories (normalizeData words) = map categories words.
Proof. unfold normalizeData. rewrite map_map. reflexivity. Qed.

Lemma normalizeData_similar_words words :
  map similar_words (normalizeData words) = map similar_words words.
Proof. unfold normalizeData. rewrite map_map. reflexivity. Qed.

(** X1. Loading a document whose [words] array follows the schema (every
    item has a string [word] and a [position] with three numbers, and its
    similarity entries, if any, are [[name, score]] pairs; [categories] and
    [similar_words] may be absent), on the engine as the constructor leaves
    it, never fails, whatever the items are (none at all, unknown
    neighbours, absent arrays): the call completes normally,
    nothing is sent to [console.error], [#loading] is hidden, there is one
    sphere and one label per word, in the order of the array and with the
    word and tags of the entry, one signal per line between the end points of
    that line, and the two counters shown are the number of words and the
    number of lines, the second at most twice the first. *)
Theorem load_builds_one_renderable_per_item (words : list WordObj) :
  exists st,
    loadWordEmbeddings (Document (Some words)) newEngine = (st, Normal)
    /\ consoleErrors st = []
    /\ loadingVisible st = false
    /\ map node_word (wordNodes st) = map word words
    /\ map node_categories (wordNodes st)
       = map (fun w => orEmpty (categories w)) words
    /\ length (wordLabels st) = length words
    /\ connections st = semanticConnections 0.55 (normalizeData words)
    /\ signals st = map line_points (connections st)
    /\ updateStats st = Some (length words, length (connections st))
    /\ (length (connections st) <= 2 * length words)%nat.
Proof.
  eexists. split; [apply loadWordEmbeddings_fresh|].
  cbn [consoleErrors loadingVisible wordNodes wordLabels connections signals
       set_loadingVisible set_signals set_connections set_wordLabels
       set_wordNodes set_wordData newEngine].
  unfold updateStats.
  cbn [wordData connections set_loadingVisible set_signals set_connections
       set_wordLabels set_wordNodes set_wordData].
  repeat split.
  - rewrite map_map. change (fun x => node_word (newNode x)) with word.
    apply normalizeData_words.
  - rewrite map_map.
    change (fun x => node_categories (newNode x))
      with (fun w => orEmpty (categories w)).
    rewrite <- (map_map categories orEmpty), normalizeData_categories.
    now rewrite map_map.
  - now rewrite length_map, normalizeData_length.
  - now rewrite normalizeData_length.
  - rewrite <- (normalizeData_length words).
    apply semanticConnections_length_aux.
Qed.

Lemma loadedState_sameScene words evs :
  Forall userEvent evs ->
  sameScene (fst (loadWordEmbeddings (Document (Some words)) newEngine))
            (loadedState words evs).
Proof.
  intros Hev. unfold loadedState.
  change (Loaded (Document (Some words)) :: evs)
    with ([Loaded (Document (Some words))] ++ evs).
  rewrite run_app. now apply run_sameScene.
Qed.

(** X2. After the load, frames and search inputs only restyle: whatever
    their sequence, the spheres, labels, lines and signals are those built by
    the load (same words, same end points, same order, same number), there is
    still one signal per line, and the counters of [updateStats] would show
    the same numbers. *)
Theorem frames_and_inputs_keep_the_scene (words : list WordObj) (evs : list Event) :
  Forall userEvent evs ->
  let st := loadedState words evs in
  map node_word (wordNodes st) = map word words
  /\ length (wordLabels st) = length words
  /\ map line_userData (connections st)
     = map line_userData (semanticConnections 0.55 (normalizeData words))
  /\ map line_points (connections st)
     = map line_points (semanticConnections 0.55 (normalizeData words))
  /\ signals st = map line_points (connections st)
  /\ updateStats st = Some (length words, length (connections st))
  /\ (length (connections st) <= 2 * length words)%nat.
Proof.
  intros Hev st.
  destruct (loadedState_sameScene words evs Hev)
    as (S1 & S2 & S3 & S4 & S5 & S6 & S7 & S8).
  fold st in S1, S2, S3, S4, S5, S6, S7, S8.
  rewrite loadWordEmbeddings_fresh in S1, S2, S3, S4, S5, S6, S7, S8.
  cbn [fst wordNodes wordLabels connections signals wordData similarityThreshold
       set_loadingVisible set_signals set_connections set_wordLabels
       set_wordNodes set_wordData newEngine] in S1, S2, S3, S4, S5, S6, S7, S8.
  assert (Hlen : length (connections st)
                 = length (semanticConnections 0.55 (normalizeData words))).
  { rewrite <- (length_map line_points (connections st)), S5. apply length_map. }
  split; [rewrite S1, map_map; apply normalizeData_words|].
  split.
  { rewrite <- (length_map label_userData (wordLabels st)), S3, !length_map.
    apply normalizeData_length. }
  split; [exact S4|]. split; [exact S5|].
  split; [now rewrite S6, S5|].
  split.
  { unfold updateStats. rewrite S7. now rewrite normalizeData_length. }
  rewrite Hlen, <- (normalizeData_length words).
  apply semanticConnections_length_aux.
Qed.

Lemma frames_and_inputs_keep_the_scene_witness :
  Forall userEvent [Input "x"; Frame 0 (Some 0%nat); Frame 0 None]
  /\ length (wordLabels (loadedState sceneWords
                           [Input "x"; Frame 0 (Some 0%nat); Frame 0 None]))
     = length sceneWords.
Proof.
  assert (H : Forall userEvent [Input "x"; Frame 0 (Some 0%nat); Frame 0 None]).
  { repeat (apply List.Forall_cons; [exact I|]). apply List.Forall_nil. }
  split; [exact H|].
  apply (frames_and_inputs_keep_the_scene sceneWords _ H).
Defined.

(** ** The threshold *)

Lemma connectionsFor_threshold thr thr' data w :
  thr <= thr' ->
  sublist (connectionsFor thr' data w) (connectionsFor thr data w).
Proof.
  intros Hle. unfold connectionsFor.
  induction (firstn 2 (orEmpty (similar_words w))) as [|[name score] l IH]; simpl.
  - constructor.
  - apply sublist_app; [|exact IH].
    destruct (Qltb score thr') eqn:E'; [apply sublist_nil_l|].
    apply Qltb_ge in E'.
    assert (E : Qltb score thr = false) by (apply Qltb_ge; lra).
    rewrite E. reflexivity.
Qed.

(** X3. Raising the similarity threshold only removes lines: the lines built
    with the higher threshold are a sub-list, in the same order, of those
    built with the lower one, for every dataset. *)
Theorem semanticConnections_threshold_monotone (thr thr' : Q) (data : list WordObj) :
  thr <= thr' ->
  sublist (semanticConnections thr' data) (semanticConnections thr data).
Proof.
  intros Hle. unfold semanticConnections.
  generalize data at 1 3. intros d.
  induction data as [|w ws IH]; simpl; [constructor|].
  apply sublist_app; [now apply connectionsFor_threshold | exact IH].
Qed.

Lemma semanticConnections_threshold_monotone_witness :
  0.55 <= 0.85
  /\ sublist (semanticConnections 0.85 sceneData) (semanticConnections 0.55 sceneData).
Proof.
  assert (H : 0.55 <= 0.85) by (unfold Qle; simpl; lia).
  split; [exact H|].
  apply (semanticConnections_threshold_monotone 0.55 0.85 sceneData H).
Defined.

(** ** More on normalizeData *)

Lemma half_zero a : a / 2 == 0 -> a == 0.
Proof.
  intros H. assert (E : a == (a / 2) * 2) by field. rewrite E, H. ring.
Qed.

Lemma box_bounds axis words lo hi w :
  lowest axis words lo -> highest axis words hi -> In w words ->
  exists q, axis (position w) = Fin q /\ lo <= q <= hi.
Proof.
  intros [_ Hlo] [_ Hhi] Hw.
  destruct (Hlo w Hw) as (q & Hq & Hle). destruct (Hhi w Hw) as (q' & Hq' & Hle').
  rewrite Hq in Hq'. injection Hq' as <-. exists q. repeat split; assumption.
Qed.

(** X4. After an exact run of [normalizeData] on a dataset whose bounding
    box has a positive extent (every sum, difference, quotient and product
    of the run exact in binary64), every coordinate of every node is finite
    and lies between -250 and 250: the nodes fit in the cube of side 500
    around the origin. *)
Theorem normalizeData64_fits_display_cube (ps : list Vec64) (b : QBox) :
  boundingBox64 ps b -> 0 < extent b -> exact64 ps = true ->
  forall p', In p' (normalizeData64 ps) ->
    exists x y z,
      positionOf p' = point x y z
      /\ -250 <= x <= 250 /\ -250 <= y <= 250 /\ -250 <= z <= 250.
Proof.
  intros Hbox Hext Hex p' Hp'.
  destruct (normalized64_box ps b Hbox Hext Hex) as (b' & Hb' & Mx & My & Mz & He).
  destruct Hb' as (HlX & HhX & HlY & HhY & HlZ & HhZ).
  apply (in_map nodeAt) in Hp'.
  destruct (box_bounds vx _ _ _ _ HlX HhX Hp') as (x & Ex & Bx).
  destruct (box_bounds vy _ _ _ _ HlY HhY Hp') as (y & Ey & By).
  destruct (box_bounds vz _ _ _ _ HlZ HhZ Hp') as (z & Ez & Bz).
  exists x, y, z. split.
  { cbn [nodeAt position] in Ex, Ey, Ez.
    destruct (positionOf p') as [a c d]. simpl in *. now subst. }
  unfold extent in He.
  pose proof (qmax_ge_l (qmax (hiX b' - loX b') (hiY b' - loY b')) (hiZ b' - loZ b')).
  pose proof (qmax_ge_r (qmax (hiX b' - loX b') (hiY b' - loY b')) (hiZ b' - loZ b')).
  pose proof (qmax_ge_l (hiX b' - loX b') (hiY b' - loY b')).
  pose proof (qmax_ge_r (hiX b' - loX b') (hiY b' - loY b')).
  apply half_zero in Mx, My, Mz.
  repeat split; lra.
Qed.

Lemma normalizeData64_fits_display_cube_witness :
  (boundingBox64 cube64 cubeBox /\ 0 < extent cubeBox /\ exact64 cube64 = true)
  /\ forall p', In p' (normalizeData64 cube64) ->
       exists x y z,
         positionOf p' = point x y z
         /\ -250 <= x <= 250 /\ -250 <= y <= 250 /\ -250 <= z <= 250.
Proof.
  assert (H1 : 0 < extent cubeBox) by reflexivity.
  assert (H2 : exact64 cube64 = true) by (vm_compute; reflexivity).
  split; [split; [apply cube64_box | split; [exact H1 | exact H2]]|].
  apply (normalizeData64_fits_display_cube cube64 cubeBox cube64_box H1 H2).
Defined.

(** X5. A second run of [normalizeData] changes nothing when both runs are
    exact: on a dataset whose bounding box has a positive extent, if every
    sum, difference, quotient and product of the first run and of the run on
    its output is exact in binary64, the second run uses the centre 0 and the
    scale 1 and every node keeps its position. *)
Theorem normalizeData64_twice (ps : list Vec64) (b : QBox) :
  boundingBox64 ps b -> 0 < extent b ->
  exact64 ps = true -> exact64 (normalizeData64 ps) = true ->
  hasValue (x64 (centerOf64 (boundsOf64 (normalizeData64 ps)))) 0
  /\ hasValue (y64 (centerOf64 (boundsOf64 (normalizeData64 ps)))) 0
  /\ hasValue (z64 (centerOf64 (boundsOf64 (normalizeData64 ps)))) 0
  /\ hasValue (scaleOf64 (boundsOf64 (normalizeData64 ps))) 1
  /\ Forall2
       (fun p p' =>
          exists x y z,
            positionOf p = point x y z
            /\ hasValue (x64 p') x /\ hasValue (y64 p') y /\ hasValue (z64 p') z)
       (normalizeData64 ps) (normalizeData64 (normalizeData64 ps)).
Proof.
  intros Hbox Hext Hex Hex'.
  destruct (normalized64_box ps b Hbox Hext Hex) as (b' & Hb' & Mx & My & Mz & He).
  assert (Hext' : 0 < extent b') by lra.
  destruct (normalizeData64_exact _ b' Hb' Hext' Hex')
    as (Cx & Cy & Cz & _ & Sc & Hm).
  assert (Hk : 500 / extent b' == 1) by (rewrite He; reflexivity).
  split; [exact (hasValue_compat _ _ _ Cx Mx)|].
  split; [exact (hasValue_compat _ _ _ Cy My)|].
  split; [exact (hasValue_compat _ _ _ Cz Mz)|].
  split; [exact (hasValue_compat _ _ _ Sc Hk)|].
  eapply Forall2_impl; [exact Hm|].
  intros p p' (x & y & z & Hp & Vx & Vy & Vz).
  exists x, y, z. split; [exact Hp|].
  split; [|split].
  - apply (hasValue_compat _ _ _ Vx). rewrite Mx, Hk. ring.
  - apply (hasValue_compat _ _ _ Vy). rewrite My, Hk. ring.
  - apply (hasValue_compat _ _ _ Vz). rewrite Mz, Hk. ring.
Qed.

Lemma normalizeData64_twice_witness :
  (boundingBox64 cube64 cubeBox /\ 0 < extent cubeBox
   /\ exact64 cube64 = true /\ exact64 (normalizeData64 cube64) = true)
  /\ normalizeData64 (normalizeData64 cube64) = normalizeData64 cube64
  /\ hasValue (scaleOf64 (boundsOf64 (normalizeData64 cube64))) 1.
Proof.
  assert (H1 : 0 < extent cubeBox) by reflexivity.
  assert (H2 : exact64 cube64 = true) by (vm_compute; reflexivity).
  assert (H3 : exact64 (normalizeData64 cube64) = true) by (vm_compute; reflexivity).
  split; [split; [apply cube64_box | split; [exact H1 | split; [exact H2 | exact H3]]]|].
  split; [vm_compute; reflexivity|].
  apply (normalizeData64_twice cube64 cubeBox cube64_box H1 H2 H3).
Defined.

Lemma fold_stepMin_NaN axis ws : fold_left (stepMin axis) ws NaN = NaN.
Proof. induction ws as [|w ws IH]; [reflexivity|]. exact IH. Qed.

Lemma fold_stepMin_poisoned axis ws a :
  (exists w, In w ws /\ axis (position w) = NaN) ->
  fold_left (stepMin axis) ws a = NaN.
Proof.
  revert a. induction ws as [|w ws IH]; intros a [w0 [Hin Hnan]]; [destruct Hin|].
  cbn [fold_left]. destruct Hin as [<-|Hin].
  - unfold stepMin at 2. rewrite Hnan.
    replace (Math_min a NaN) with NaN by (now destruct a).
    apply fold_stepMin_NaN.
  - apply IH. now exists w0.
Qed.

Lemma Math_max3_NaN a b c : a = NaN \/ b = NaN \/ c = NaN -> Math_max3 a b c = NaN.
Proof.
  unfold Math_max3. intros [->|[->| ->]].
  - reflexivity.
  - replace (Math_max a NaN) with NaN by (now destruct a). reflexivity.
  - now destruct (Math_max a b).
Qed.

Lemma num_sub_NaN_r a : num_sub a NaN = NaN.
Proof. now destruct a. Qed.

Lemma num_mul_NaN_r a : num_mul a NaN = NaN.
Proof. now destruct a. Qed.

(** X6. One coordinate that is not a number spoils the whole layout: if any
    node has [NaN] for a coordinate (what a missing or non-numeric field
    becomes in the arithmetic), the span and the scale are [NaN] and
    [normalizeData] turns every coordinate of every node into [NaN]. *)
Theorem normalizeData_NaN_spreads (words : list WordObj) :
  (exists w, In w words
             /\ (vx (position w) = NaN \/ vy (position w) = NaN
                 \/ vz (position w) = NaN)) ->
  scaleOf (boundsOf words) = NaN
  /\ forall w', In w' (normalizeData words) -> position w' = mkVec3 NaN NaN NaN.
Proof.
  intros (w & Hw & Hnan).
  assert (Hspan : spanOf (boundsOf words) = NaN).
  { unfold spanOf, boundsOf. rewrite fold_growBounds.
    cbn [minX minY minZ maxX maxY maxZ]. apply Math_max3_NaN.
    destruct Hnan as [H|[H|H]]; [left | right; left | right; right];
      (rewrite (fold_stepMin_poisoned _ words PInf) by (now exists w));
      apply num_sub_NaN_r. }
  assert (Hscale : scaleOf (boundsOf words) = NaN).
  { unfold scaleOf. now rewrite Hspan. }
  split; [exact Hscale|].
  intros w' Hw'. unfold normalizeData in Hw'. rewrite Hscale in Hw'.
  apply in_map_iff in Hw' as (w0 & <- & _).
  unfold rescale. cbn [position setPosition]. now rewrite !num_mul_NaN_r.
Qed.

Lemma normalizeData_NaN_spreads_witness :
  (exists w, In w [mkWordObj "a" (point 1 2 3) None None;
                   mkWordObj "b" (mkVec3 (Fin 4) NaN (Fin 6)) None None]
             /\ (vx (position w) = NaN \/ vy (position w) = NaN
                 \/ vz (position w) = NaN))
  /\ scaleOf (boundsOf [mkWordObj "a" (point 1 2 3) None None;
                        mkWordObj "b" (mkVec3 (Fin 4) NaN (Fin 6)) None None]) = NaN.
Proof.
  assert (H : exists w, In w [mkWordObj "a" (point 1 2 3) None None;
                              mkWordObj "b" (mkVec3 (Fin 4) NaN (Fin 6)) None None]
             /\ (vx (position w) = NaN \/ vy (position w) = NaN
                 \/ vz (position w) = NaN)).
  { eexists. split; [right; left; reflexivity|]. right. left. reflexivity. }
  split; [exact H|].
  apply (normalizeData_NaN_spreads _ H).
Defined.

(** ** Signals and sparks *)

Lemma advanceProgress_cases p :
  (p + 0.015 < 1 /\ advanceProgress p = p + 0.015)
  \/ (1 <= p + 0.015 /\ advanceProgress p = 0).
Proof.
  unfold advanceProgress. cbv zeta.
  destruct (Qle_bool 1 (p + 0.015)) eqn:E.
  - right. apply Qle_bool_iff in E. split; [exact E | reflexivity].
  - left. split; [|reflexivity].
    apply Qnot_le_lt. intros H. apply Qle_bool_iff in H. congruence.
Qed.

Lemma advanceProgress_range p : 0 <= p -> 0 <= advanceProgress p < 1.
Proof.
  intros Hp. destruct (advanceProgress_cases p) as [[H ->]|[H ->]]; split; lra.
Qed.

Lemma signalAfter_S n s : signalAfter (S n) s = updateSignal (signalAfter n s).
Proof. reflexivity. Qed.

Lemma signalAfter_ends n s :
  signal_start (signalAfter n s) = signal_start s
  /\ signal_end (signalAfter n s) = signal_end s.
Proof.
  induction n as [|n [IH1 IH2]]; [split; reflexivity|].
  rewrite signalAfter_S. split; [exact IH1 | exact IH2].
Qed.

Lemma signalAfter_range n s :
  0 <= signal_progress s < 1 -> 0 <= signal_progress (signalAfter n s) < 1.
Proof.
  intros Hs. induction n as [|n IH]; [exact Hs|].
  rewrite signalAfter_S. apply advanceProgress_range. apply IH.
Qed.

(** X7. The progress of a signal stays in [[0, 1)]: created with a value of
    [Math.random()], it is in that interval after any number of frames; a
    frame either adds 0.015 or, when that would reach 1, sets the progress
    back to exactly 0 (the overshoot is dropped, the step is not taken
    modulo 1).  The two end points of the signal never change. *)
Theorem signal_progress_stays_in_unit_interval
    (start end_ : Vec3) (random : Q) (n : nat) :
  0 <= random < 1 ->
  let s := signalAfter n (createSignal start end_ random) in
  let s' := updateSignal s in
  0 <= signal_progress s < 1
  /\ (signal_progress s + 0.015 < 1 ->
        signal_progress s' = signal_progress s + 0.015)
  /\ (1 <= signal_progress s + 0.015 -> signal_progress s' = 0)
  /\ signal_start s = start /\ signal_end s = end_.
Proof.
  intros Hr s s'.
  assert (Hs : 0 <= signal_progress s < 1) by (now apply signalAfter_range).
  split; [exact Hs|].
  destruct (advanceProgress_cases (signal_progress s)) as [[H E]|[H E]].
  - split; [intros _; exact E|]. split; [intros H'; lra|].
    apply (signalAfter_ends n (createSignal start end_ random)).
  - split; [intros H'; lra|]. split; [intros _; exact E|].
    apply (signalAfter_ends n (createSignal start end_ random)).
Qed.

Lemma signal_progress_stays_in_unit_interval_witness :
  0 <= 0.99 < 1
  /\ 0 <= signal_progress (signalAfter 200 (createSignal origin origin 0.99)) < 1.
Proof.
  assert (H : 0 <= 0.99 < 1) by (split; [discriminate | reflexivity]).
  split; [exact H|].
  apply (signal_progress_stays_in_unit_interval origin origin 0.99 200 H).
Defined.

Lemma lerp_finite a b t :
  lerp (Fin a) (Fin b) (Fin t) = Fin (a + (b - a) * t).
Proof. reflexivity. Qed.

Lemma lerp_between a b t :
  0 <= t <= 1 ->
  (a <= b -> a <= a + (b - a) * t <= b)
  /\ (b <= a -> b <= a + (b - a) * t <= a).
Proof.
  intros [H0 H1]. split; intros Hab.
  - assert (0 <= (b - a) * t) by (apply Qmult_le_0_compat; lra).
    assert (0 <= (b - a) * (1 - t)) by (apply Qmult_le_0_compat; lra).
    split; lra.
  - assert (0 <= (a - b) * t) by (apply Qmult_le_0_compat; lra).
    assert (0 <= (a - b) * (1 - t)) by (apply Qmult_le_0_compat; lra).
    split; lra.
Qed.

(** X8. From the first frame on, a signal between two points with finite
    coordinates sits on the segment between them: its position is
    [start + (end - start) * progress], so each coordinate lies between the
    coordinates of the two end points.  (Before the first frame it sits at
    the origin, where [createSignal] leaves it.) *)
Theorem signal_stays_on_its_line
    (x1 y1 z1 x2 y2 z2 random : Q) (n : nat) :
  0 <= random < 1 ->
  let s := signalAfter (S n) (createSignal (point x1 y1 z1) (point x2 y2 z2) random) in
  let p := signal_progress s in
  signal_position s
  = point (x1 + (x2 - x1) * p) (y1 + (y2 - y1) * p) (z1 + (z2 - z1) * p)
  /\ (x1 <= x2 -> x1 <= x1 + (x2 - x1) * p <= x2)
  /\ (x2 <= x1 -> x2 <= x1 + (x2 - x1) * p <= x1)
  /\ (y1 <= y2 -> y1 <= y1 + (y2 - y1) * p <= y2)
  /\ (y2 <= y1 -> y2 <= y1 + (y2 - y1) * p <= y1)
  /\ (z1 <= z2 -> z1 <= z1 + (z2 - z1) * p <= z2)
  /\ (z2 <= z1 -> z2 <= z1 + (z2 - z1) * p <= z1)
  /\ signal_position (createSignal (point x1 y1 z1) (point x2 y2 z2) random) = origin.
Proof.
  intros Hr s p.
  assert (Hp : 0 <= p < 1) by (now apply signalAfter_range).
  assert (Hp' : 0 <= p <= 1) by lra.
  split.
  - unfold s at 1. rewrite signalAfter_S. unfold updateSignal at 1.
    cbn [signal_position].
    destruct (signalAfter_ends n (createSignal (point x1 y1 z1) (point x2 y2 z2) random))
      as [-> ->].
    reflexivity.
  - destruct (lerp_between x1 x2 p Hp') as [X12 X21].
    destruct (lerp_between y1 y2 p Hp') as [Y12 Y21].
    destruct (lerp_between z1 z2 p Hp') as [Z12 Z21].
    split; [exact X12|]. split; [exact X21|]. split; [exact Y12|].
    split; [exact Y21|]. split; [exact Z12|]. split; [exact Z21|].
    reflexivity.
Qed.

Lemma signal_stays_on_its_line_witness :
  0 <= 0.5 < 1
  /\ signal_position (createSignal (point 0 0 0) (point 10 20 30) 0.5) = origin.
Proof.
  assert (H : 0 <= 0.5 < 1) by (split; [discriminate | reflexivity]).
  split; [exact H|].
  apply (signal_stays_on_its_line 0 0 0 10 20 30 0.5 0 H).
Defined.

Lemma sparkCalls_more fuel :
  forall p r, sparkCalls fuel p = Some r -> sparkCalls (S fuel) p = Some r.
Proof.
  induction fuel as [|fuel IH]; intros p r H; [discriminate|].
  cbn [sparkCalls] in H. cbn [sparkCalls].
  destruct ((p + 0.02) <? 1)%float; [|exact H].
  destruct (sparkCalls fuel (p + 0.02)%float) as [[n last]|] eqn:E; [|discriminate].
  apply IH in E. cbn [sparkCalls] in E. now rewrite E.
Qed.

Lemma sparkCalls_enough fuel k p r :
  sparkCalls fuel p = Some r -> sparkCalls (k + fuel) p = Some r.
Proof.
  intros H. induction k as [|k IH]; [exact H|]. now apply sparkCalls_more.
Qed.

(** X9. Every spark spawned by a hover is removed: from progress 0,
    [animateSpark] runs exactly 50 times, whatever the line, and the 50th
    call removes the spark from the scene.  With the binary64 sums of 0.02
    the last progress is 1.0000000000000004, so the last position is a
    rounding error past the end point of the line; with fewer than 50 calls
    the spark is still in the scene. *)
Theorem spark_is_removed_after_50_calls (fuel : nat) :
  (50 <= fuel)%nat ->
  sparkCalls fuel 0%float = Some (50%nat, 0x1.0000000000002p+0%float)
  /\ (1 <? 0x1.0000000000002p+0)%float = true
  /\ sparkCalls 49 0%float = None.
Proof.
  intros Hf. split; [|split; vm_compute; reflexivity].
  replace fuel with ((fuel - 50) + 50)%nat by lia.
  apply sparkCalls_enough. vm_compute. reflexivity.
Qed.

Lemma spark_is_removed_after_50_calls_witness :
  (50 <= 60)%nat
  /\ sparkCalls 60 0%float = Some (50%nat, 0x1.0000000000002p+0%float).
Proof.
  assert (H : (50 <= 60)%nat) by lia.
  split; [exact H|]. apply (spark_is_removed_after_50_calls 60 H).
Defined.

(** ** Search after the load *)

Lemma loadedState_fields words evs :
  Forall userEvent evs ->
  wordData (loadedState words evs) = Some (normalizeData words)
  /\ map node_word (wordNodes (loadedState words evs)) = map word words
  /\ map label_userData (wordLabels (loadedState words evs))
     = map (fun _ => ∅) words.
Proof.
  intros Hev.
  destruct (loadedState_sameScene words evs Hev)
    as (S1 & _ & S3 & _ & _ & _ & S7 & _).
  rewrite loadWordEmbeddings_fresh in S1, S3, S7.
  cbn [fst wordNodes wordLabels wordData set_loadingVisible set_signals
       set_connections set_wordLabels set_wordNodes set_wordData] in S1, S3, S7.
  split; [exact S7|]. split.
  - rewrite S1, map_map. apply normalizeData_words.
  - rewrite S3, map_map. unfold normalizeData. rewrite map_map. reflexivity.
Qed.

Lemma matchedBy_normalizeData q words x :
  matchedBy q (normalizeData words) x <-> matchedBy q words x.
Proof.
  unfold matchedBy, normalizeData. split.
  - intros (w' & Hin & Hm & Hx). apply in_map_iff in Hin as (w & <- & Hw).
    exists w. split; [exact Hw|]. split; [exact Hm | exact Hx].
  - intros (w & Hw & Hm & Hx).
    exists (rescale (centerOf (boundsOf words)) (scaleOf (boundsOf words)) w).
    split; [now apply in_map|]. split; [exact Hm | exact Hx].
Qed.

(** The search typed after the load runs to its end and computes the
    matched set of the raw dataset. *)
Lemma search_after_load words evs value :
  Forall userEvent evs -> Forall complete words ->
  trim (toLowerCase value) <> EmptyString ->
  exists hl,
    onSearchInput value (loadedState words evs)
    = (applyHighlighting
         (set_highlightedWords hl
            (set_highlightedWords ∅
               (set_searchQuery (trim (toLowerCase value)) (loadedState words evs)))),
       Normal)
    /\ forall x, x ∈ hl <-> matchedBy (trim (toLowerCase value)) words x.
Proof.
  intros Hev Hall Hq.
  destruct (loadedState_fields words evs Hev) as (Hd & _ & _).
  unfold onSearchInput, performSearch.
  cbn [searchQuery wordData highlightedWords set_highlightedWords set_searchQuery].
  apply isEmpty_toLowerCase in Hq. rewrite Hq, Hd.
  destruct (collectMatches_complete (trim (toLowerCase value)) (normalizeData words) ∅
              (normalizeData_complete words Hall)) as (hl & Ehl & Hhl).
  rewrite Ehl. exists hl. split; [reflexivity|].
  intros x. rewrite Hhl. fold (matchedBy (trim (toLowerCase value)) (normalizeData words) x).
  rewrite matchedBy_normalizeData.
  split; [intros [H|H]; [set_solver | exact H] | now right].
Qed.

(** X10. What a search shows on the spheres.  After the load (and any frames
    and inputs), typing a text whose trimmed lower-case form [q] is not
    empty leaves every sphere in one of two looks: emissive intensity 1.5,
    opacity 0.8 and scale 3 when its word is matched by [q] (a direct match
    on word or tag, or a neighbour named by a direct match), and 0.15, 0.05
    and 0.7 otherwise; there is still one sphere per word of the dataset. *)
Theorem search_emphasises_matched_spheres
    (words : list WordObj) (evs : list Event) (value : string) :
  Forall userEvent evs -> Forall complete words ->
  trim (toLowerCase value) <> EmptyString ->
  let q := trim (toLowerCase value) in
  let st' := fst (onSearchInput value (loadedState words evs)) in
  snd (onSearchInput value (loadedState words evs)) = Normal
  /\ map node_word (wordNodes st') = map word words
  /\ forall n, In n (wordNodes st') ->
       (matchedBy q words (node_word n) ->
          nodeLook n = (node_word n, 1.5, 0.8, 3.0))
       /\ (~ matchedBy q words (node_word n) ->
             nodeLook n = (node_word n, 0.15, 0.05, 0.7)).
Proof.
  intros Hev Hall Hq q st'.
  destruct (search_after_load words evs value Hev Hall Hq) as (hl & E & Hhl).
  destruct (loadedState_fields words evs Hev) as (_ & Hw & _).
  unfold st'. rewrite E. cbn [fst snd].
  unfold applyHighlighting.
  cbn [wordNodes highlightedWords set_connections set_wordLabels set_wordNodes
       set_highlightedWords set_searchQuery].
  split; [reflexivity|]. split.
  - rewrite map_restyle_proj by reflexivity. exact Hw.
  - intros n Hn. apply in_map_iff in Hn as (n0 & <- & _).
    unfold highlightNode, nodeLook, setHas.
    cbn [node_word node_emissiveIntensity node_opacity node_scale].
    destruct (bool_decide (node_word n0 ∈ hl)) eqn:B.
    + apply bool_decide_eq_true in B. split; [reflexivity|].
      intros Hn. exfalso. apply Hn. now apply Hhl.
    + apply bool_decide_eq_false in B. split; [|reflexivity].
      intros Hm. exfalso. apply B. now apply Hhl.
Qed.

Lemma search_emphasises_matched_spheres_witness :
  (Forall userEvent [Frame 0 None] /\ Forall complete sceneWords
   /\ trim (toLowerCase " X ") <> EmptyString)
  /\ snd (onSearchInput " X " (loadedState sceneWords [Frame 0 None])) = Normal.
Proof.
  assert (H1 : Forall userEvent [Frame 0 None]).
  { apply List.Forall_cons; [exact I | apply List.Forall_nil]. }
  assert (H3 : trim (toLowerCase " X ") <> EmptyString) by discriminate.
  split; [split; [exact H1 | split; [exact sceneWords_complete | exact H3]]|].
  apply (search_emphasises_matched_spheres sceneWords [Frame 0 None] " X "
           H1 sceneWords_complete H3).
Defined.

(** X11. A search hides every label.  On a dataset that follows the schema
    and whose nodes all carry their [categories] and [similar_words] arrays
    (so that the search does not throw, and only strings enter
    [highlightedWords]), after the load (and any frames and inputs), typing a
    text whose trimmed lower-case form is not empty makes every label
    invisible, the labels of the matched words included:
    [applyHighlighting] looks the word up in [label.userData.word], which no
    sprite carries.  The labels are all there, one per word. *)
Theorem search_hides_every_label
    (words : list WordObj) (evs : list Event) (value : string) :
  Forall userEvent evs -> Forall complete words ->
  trim (toLowerCase value) <> EmptyString ->
  let st' := fst (onSearchInput value (loadedState words evs)) in
  length (wordLabels st') = length words
  /\ forall l, In l (wordLabels st') -> label_visible l = false.
Proof.
  intros Hev Hall Hq st'.
  destruct (search_after_load words evs value Hev Hall Hq) as (hl & E & _).
  destruct (loadedState_fields words evs Hev) as (_ & _ & Hl).
  unfold st'. rewrite E. cbn [fst]. unfold applyHighlighting.
  cbn [wordLabels set_connections set_wordLabels set_wordNodes
       set_highlightedWords set_searchQuery].
  split.
  - rewrite length_map, <- (length_map label_userData), Hl. apply length_map.
  - intros l Hin. apply in_map_iff in Hin as (l0 & <- & Hl0).
    assert (Hu : label_userData l0 = ∅).
    { apply (in_map label_userData) in Hl0. rewrite Hl in Hl0.
      apply in_map_iff in Hl0 as (w & Hw & _). now symmetry. }
    unfold highlightLabel. cbn [label_visible]. now rewrite Hu.
Qed.

Lemma search_hides_every_label_witness :
  (Forall userEvent [Frame 0 None] /\ Forall complete sceneWords
   /\ trim (toLowerCase "x") <> EmptyString)
  /\ length (wordLabels (fst (onSearchInput "x" (loadedState sceneWords [Frame 0 None]))))
     = length sceneWords.
Proof.
  assert (H1 : Forall userEvent [Frame 0 None]).
  { apply List.Forall_cons; [exact I | apply List.Forall_nil]. }
  assert (H3 : trim (toLowerCase "x") <> EmptyString) by discriminate.
  split; [split; [exact H1 | split; [exact sceneWords_complete | exact H3]]|].
  apply (search_hides_every_label sceneWords [Frame 0 None] "x"
           H1 sceneWords_complete H3).
Defined.

(** ** Missing fields and blank input *)

Lemma collectMatches_missing_categories q data hl :
  (exists w, In w data /\ categories w = None) ->
  snd (collectMatches q data hl) = Throw TypeError.
Proof.
  revert hl. induction data as [|w0 data IH]; intros hl (w & Hin & Hc);
    [destruct Hin|].
  cbn [collectMatches].
  destruct (categories w0) as [cats|] eqn:E0; [|reflexivity].
  assert (Hrest : exists w, In w data /\ categories w = None).
  { destruct Hin as [->|Hin]; [congruence | now exists w]. }
  destruct (_ || _); [|now apply IH].
  destruct (similar_words w0); [now apply IH | reflexivity].
Qed.

(** X12. A node without a [categories] array is accepted by the load but
    breaks every search: with such a node in the dataset, [performSearch]
    with a non-empty query throws a [TypeError] before [applyHighlighting]
    runs, so no sphere, label or line changes its look. *)
Theorem performSearch_throws_on_missing_categories (st : Engine) (data : list WordObj) :
  wordData st = Some data ->
  (exists w, In w data /\ categories w = None) ->
  searchQuery st <> EmptyString ->
  exists st',
    performSearch st = (st', Throw TypeError)
    /\ wordNodes st' = wordNodes st
    /\ wordLabels st' = wordLabels st
    /\ connections st' = connections st
    /\ exists st0,
         loadWordEmbeddings (Document (Some data)) newEngine = (st0, Normal)
         /\ length (wordNodes st0) = length data.
Proof.
  intros Hd Hmiss Hq. unfold performSearch.
  cbn [searchQuery wordData highlightedWords set_highlightedWords].
  apply isEmpty_toLowerCase in Hq. rewrite Hq, Hd.
  pose proof (collectMatches_missing_categories (toLowerCase (searchQuery st)) data ∅ Hmiss)
    as Hthrow.
  destruct (collectMatches _ data ∅) as [hl c]. cbn [snd] in Hthrow. subst c.
  eexists. split; [reflexivity|].
  repeat (split; [reflexivity|]).
  eexists. split; [apply loadWordEmbeddings_fresh|].
  cbn [wordNodes set_loadingVisible set_signals set_connections set_wordLabels
       set_wordNodes]. now rewrite length_map, normalizeData_length.
Qed.

Lemma performSearch_throws_on_missing_categories_witness :
  (wordData gapEngine = Some gapWords
   /\ (exists w, In w gapWords /\ categories w = None)
   /\ searchQuery gapEngine <> EmptyString)
  /\ exists st', performSearch gapEngine = (st', Throw TypeError).
Proof.
  assert (H1 : wordData gapEngine = Some gapWords) by reflexivity.
  assert (H2 : exists w, In w gapWords /\ categories w = None).
  { eexists. split; [left; reflexivity | reflexivity]. }
  assert (H3 : searchQuery gapEngine <> EmptyString) by discriminate.
  split; [split; [exact H1 | split; [exact H2 | exact H3]]|].
  destruct (performSearch_throws_on_missing_categories gapEngine gapWords H1 H2 H3)
    as (st' & E & _).
  now exists st'.
Defined.

Lemma lowerChar_idempotent c : lowerChar (lowerChar c) = lowerChar c.
Proof.
  destruct c as [[] [] [] [] [] [] [] []]; vm_compute; reflexivity.
Qed.

Lemma toLowerCase_idempotent s : toLowerCase (toLowerCase s) = toLowerCase s.
Proof.
  induction s as [|c s IH]; [reflexivity|]. simpl.
  now rewrite lowerChar_idempotent, IH.
Qed.

Lemma lowerChar_space c : isSpace c = true -> lowerChar c = c.
Proof.
  destruct c as [[] [] [] [] [] [] [] []]; vm_compute; intros H;
    first [reflexivity | discriminate].
Qed.

Lemma trimStart_allSpaces s : allSpaces s = true -> trimStart s = EmptyString.
Proof.
  induction s as [|c s IH]; [reflexivity|]. simpl.
  destruct (isSpace c); [exact IH | discriminate].
Qed.

Lemma toLowerCase_allSpaces s : allSpaces s = true -> toLowerCase s = s.
Proof.
  induction s as [|c s IH]; [reflexivity|]. simpl. intros H.
  apply andb_prop in H as [Hc Hs]. now rewrite (lowerChar_space c Hc), IH.
Qed.

(** X13. The search box normalises what is typed.  The letter case of the
    text does not matter: the text and its lower-case form lead to the same
    state.  A text made of white space only (or the empty text) is a
    cleared query: it empties the matched set and runs [resetHighlighting]
    instead of matching the words that contain a space. *)
Theorem search_input_ignores_case_and_blanks (st : Engine) (value : string) :
  onSearchInput (toLowerCase value) st = onSearchInput value st
  /\ (allSpaces value = true ->
        onSearchInput value st
        = (resetHighlighting
             (set_highlightedWords ∅ (set_searchQuery EmptyString st)), Normal)).
Proof.
  split.
  - unfold onSearchInput. now rewrite toLowerCase_idempotent.
  - intros H. unfold onSearchInput.
    rewrite (toLowerCase_allSpaces value H). unfold trim.
    rewrite (trimStart_allSpaces value H). reflexivity.
Qed.

Lemma search_input_ignores_case_and_blanks_witness :
  allSpaces "   " = true
  /\ onSearchInput "   " sceneEngine
     = (resetHighlighting
          (set_highlightedWords ∅ (set_searchQuery EmptyString sceneEngine)), Normal).
Proof.
  assert (H : allSpaces "   " = true) by reflexivity.
  split; [exact H|].
  apply (proj2 (search_input_ignores_case_and_blanks sceneEngine "   ") H).
Defined.

(** ** The hover look *)

Lemma triggerNeuralActivity_nodes i st :
  wordNodes (fst (triggerNeuralActivity i st)) = wordNodes st
  /\ hoveredNode (fst (triggerNeuralActivity i st)) = hoveredNode st.
Proof.
  unfold triggerNeuralActivity. destruct (wordData st ≫= _); split; reflexivity.
Qed.

Lemma handleHover_hovered hit st : hoveredNode (fst (handleHover hit st)) = hit.
Proof.
  unfold handleHover. destruct hit as [i|].
  - destruct (bool_decide (hoveredNode st = Some i)) eqn:B.
    + now apply bool_decide_eq_true in B.
    + rewrite (proj2 (triggerNeuralActivity_nodes i _)). reflexivity.
  - destruct (hoveredNode st) eqn:E; [reflexivity | exact E].
Qed.

Lemma lookup_alter_scale s i k (ns : list Node) n :
  alter (setNodeScale s) i ns !! k = Some n ->
  (k = i /\ node_emissiveIntensity n = 0 /\ node_scale n = s)
  \/ (k <> i /\ ns !! k = Some n).
Proof.
  intros H. destruct (decide (k = i)) as [->|Hne].
  - left. rewrite list_lookup_alter_eq in H.
    destruct (ns !! i) as [n0|]; [|discriminate]. injection H as <-.
    repeat split.
  - right. split; [exact Hne|]. now rewrite list_lookup_alter_ne in H.
Qed.

Lemma hoverLook_reset j st :
  hoverLook st -> hoveredNode st = Some j ->
  forall k n, alter (setNodeScale 1.0) j (wordNodes st) !! k = Some n ->
    node_emissiveIntensity n == 0 /\ node_scale n == 1.
Proof.
  intros Hl Hj k n Hk.
  apply lookup_alter_scale in Hk as [(-> & -> & ->)|[Hne Hk]].
  - split; reflexivity.
  - destruct (Hl k n Hk) as [He Hs]. split; [exact He|].
    rewrite Hj in Hs. rewrite bool_decide_eq_false_2 in Hs by congruence. exact Hs.
Qed.

Lemma handleHover_hoverLook hit st : hoverLook st -> hoverLook (fst (handleHover hit st)).
Proof.
  intros Hl k n. rewrite handleHover_hovered.
  unfold handleHover. destruct hit as [i|].
  - destruct (bool_decide (hoveredNode st = Some i)) eqn:B.
    + apply bool_decide_eq_true in B. cbn [fst]. intros Hk.
      destruct (Hl k n Hk) as [He Hs]. rewrite B in Hs. now split.
    + apply bool_decide_eq_false in B.
      rewrite (proj1 (triggerNeuralActivity_nodes i _)).
      cbn [wordNodes set_wordLabels set_wordNodes set_hoveredNode].
      intros Hk. apply lookup_alter_scale in Hk as [(-> & -> & ->)|[Hne Hk]].
      * rewrite bool_decide_eq_true_2 by reflexivity. split; reflexivity.
      * rewrite bool_decide_eq_false_2 by congruence.
        destruct (hoveredNode st) as [j|] eqn:Ej.
        -- unfold resetNodeState in Hk.
           cbn [wordNodes set_connections set_wordLabels set_wordNodes] in Hk.
           now apply (hoverLook_reset j st Hl Ej k n).
        -- destruct (Hl k n Hk) as [He Hs]. rewrite Ej in Hs.
           rewrite bool_decide_eq_false_2 in Hs by congruence. now split.
  - destruct (hoveredNode st) as [j|] eqn:Ej.
    + cbn [fst wordNodes set_hoveredNode]. unfold resetNodeState.
      cbn [wordNodes set_connections set_wordLabels set_wordNodes].
      intros Hk. rewrite bool_decide_eq_false_2 by congruence.
      now apply (hoverLook_reset j st Hl Ej k n).
    + cbn [fst]. intros Hk. destruct (Hl k n Hk) as [He Hs].
      rewrite Ej in Hs. now split.
Qed.

Lemma animate_hoverLook s hit st : hoverLook st -> hoverLook (fst (animate s hit st)).
Proof.
  intros Hl. unfold animate. apply handleHover_hoverLook.
  intros k n Hk. exact (Hl k n Hk).
Qed.

Lemma run_frames_hoverLook evs st :
  Forall frameEvent evs -> hoverLook st -> hoverLook (run evs st).
Proof.
  revert st. induction evs as [|ev evs IH]; intros st Hev Hl; [exact Hl|].
  apply Forall_cons_iff in Hev as [Hf Hev]. cbn [run fold_left].
  fold (run evs (fst (handle ev st))). apply IH; [exact Hev|].
  destruct ev as [r|s hit|value]; try destruct Hf.
  cbn [handle]. now apply animate_hoverLook.
Qed.

Lemma loaded_hoverLook words :
  hoverLook (fst (loadWordEmbeddings (Document (Some words)) newEngine)).
Proof.
  rewrite loadWordEmbeddings_fresh. intros k n.
  cbn [fst wordNodes hoveredNode set_loadingVisible set_signals set_connections
       set_wordLabels set_wordNodes set_wordData newEngine].
  intros Hk. apply list_elem_of_lookup_2, list_elem_of_In in Hk.
  apply in_map_iff in Hk as (w & <- & _).
  rewrite bool_decide_eq_false_2 by congruence. split; reflexivity.
Qed.

(** X14. Hover enlarges one sphere at a time.  After the load, and as long
    as only frames follow (no search input), the sphere under the pointer in
    the last frame is the hovered one and is at scale 2, every other sphere
    is at scale 1, and no sphere glows (emissive intensity 0): moving from
    one sphere to another, or off all spheres, puts the sphere that was left
    back to scale 1. *)
Theorem hover_enlarges_exactly_the_hovered_sphere
    (words : list WordObj) (evs : list Event) :
  Forall frameEvent evs ->
  hoverLook (loadedState words evs)
  /\ (forall evs' s hit, evs = evs' ++ [Frame s hit] ->
        hoveredNode (loadedState words evs) = hit).
Proof.
  intros Hev. unfold loadedState. split.
  - change (Loaded (Document (Some words)) :: evs)
      with ([Loaded (Document (Some words))] ++ evs).
    rewrite run_app. apply run_frames_hoverLook; [exact Hev|].
    apply loaded_hoverLook.
  - intros evs' s hit ->.
    change (Loaded (Document (Some words)) :: evs' ++ [Frame s hit])
      with ((Loaded (Document (Some words)) :: evs') ++ [Frame s hit]).
    rewrite run_app. cbn [run fold_left handle]. unfold animate.
    apply handleHover_hovered.
Qed.

Lemma hover_enlarges_exactly_the_hovered_sphere_witness :
  Forall frameEvent [Frame 0 (Some 0%nat); Frame 0 (Some 2%nat)]
  /\ hoverLook (loadedState sceneWords [Frame 0 (Some 0%nat); Frame 0 (Some 2%nat)]).
Proof.
  assert (H : Forall frameEvent [Frame 0 (Some 0%nat); Frame 0 (Some 2%nat)]).
  { repeat (apply List.Forall_cons; [exact I|]). apply List.Forall_nil. }
  split; [exact H|].
  apply (hover_enlarges_exactly_the_hovered_sphere sceneWords _ H).
Defined.

(** ** The pointer and the category colours *)

Lemma num_div_finite a b : 0 < b -> num_div (Fin a) (Fin b) = Fin (a / b).
Proof. intros H. unfold num_div. apply Qgt_alt in H. now rewrite H. Qed.

Lemma unit_fraction a b : 0 < b -> 0 <= a <= b -> 0 <= a / b <= 1.
Proof.
  intros Hb [H0 H1]. split.
  - apply Qle_shift_div_l; [exact Hb | lra].
  - apply Qle_shift_div_r; [exact Hb | lra].
Qed.

(** X15. The pointer in device coordinates.  For a pointer inside a window
    of positive size, the [mousemove] listener stores two finite numbers
    between -1 and 1, from which the pixel can be recovered:
    [clientX = (x + 1) / 2 * innerWidth] and
    [clientY = (1 - y) / 2 * innerHeight] (the vertical axis is flipped).
    The value (-1, -1) that the constructor stores is therefore the lower
    left corner of the window, a place inside it. *)
Theorem mouse_is_in_device_range (clientX clientY innerWidth innerHeight : Q) :
  0 < innerWidth -> 0 < innerHeight ->
  0 <= clientX <= innerWidth -> 0 <= clientY <= innerHeight ->
  exists x y,
    mouseFromEvent (Fin clientX) (Fin clientY) (Fin innerWidth) (Fin innerHeight)
    = (Fin x, Fin y)
    /\ -1 <= x <= 1 /\ -1 <= y <= 1
    /\ clientX == (x + 1) / 2 * innerWidth
    /\ clientY == (1 - y) / 2 * innerHeight
    /\ (x == -1 /\ y == -1 <-> clientX == 0 /\ clientY == innerHeight).
Proof.
  intros HW HH HX HY.
  exists (clientX / innerWidth * 2 - 1), (- (clientY / innerHeight) * 2 + 1).
  split.
  { unfold mouseFromEvent. rewrite !num_div_finite by assumption. reflexivity. }
  pose proof (unit_fraction clientX innerWidth HW HX) as Fx.
  pose proof (unit_fraction clientY innerHeight HH HY) as Fy.
  assert (Ex : clientX == clientX / innerWidth * innerWidth) by (field; lra).
  assert (Ey : clientY == clientY / innerHeight * innerHeight) by (field; lra).
  split; [lra|]. split; [lra|].
  split; [field; lra|]. split; [field; lra|].
  split.
  - intros [H1 H2].
    assert (D1 : clientX / innerWidth == 0) by lra.
    assert (D2 : clientY / innerHeight == 1) by lra.
    rewrite D1 in Ex. rewrite D2 in Ey. split; [rewrite Ex; ring | rewrite Ey; ring].
  - intros [H1 H2]. split.
    + rewrite H1. field. lra.
    + rewrite H2. field. lra.
Qed.

Lemma mouse_is_in_device_range_witness :
  (0 < 800 /\ 0 < 600 /\ 0 <= 400 <= 800 /\ 0 <= 300 <= 600)
  /\ exists x y,
       mouseFromEvent (Fin 400) (Fin 300) (Fin 800) (Fin 600) = (Fin x, Fin y)
       /\ -1 <= x <= 1 /\ -1 <= y <= 1.
Proof.
  assert (H1 : 0 < 800) by reflexivity.
  assert (H2 : 0 < 600) by reflexivity.
  assert (H3 : 0 <= 400 <= 800) by (split; discriminate).
  assert (H4 : 0 <= 300 <= 600) by (split; discriminate).
  split; [repeat split; assumption || apply H3 || apply H4|].
  destruct (mouse_is_in_device_range 400 300 800 600 H1 H2 H3 H4)
    as (x & y & E & Bx & By & _).
  exists x, y. repeat split; assumption || apply Bx || apply By.
Defined.

Lemma colors_lookup key :
  colors !! key = Some 0xff00ff%Z \/ colors !! key = Some 0x00ffff%Z
  \/ colors !! key = Some 0xffff00%Z \/ colors !! key = Some 0x00ff00%Z
  \/ colors !! key = None.
Proof.
  unfold colors. rewrite !lookup_insert, lookup_empty.
  repeat case_decide; auto 10.
Qed.

(** X16. [getCategoryColor] never fails on a string and ignores letter case:
    a text and its lower-case form get the same answer.  Unless the
    lower-case text is [constructor] or [__proto__] (then the lookup finds a
    member of [Object.prototype] and that object is returned instead of a
    number), the answer is one of the four category colours or the default
    [0x4444ff], and never 0; a text that is not one of the four category
    names gets the default. *)
Theorem getCategoryColor_is_a_known_colour (cat : string) :
  getCategoryColor (toLowerCase cat) = getCategoryColor cat
  /\ (inheritedKey (toLowerCase cat) = false ->
        exists c, getCategoryColor cat = Hex c
                  /\ c <> 0%Z
                  /\ (c = 0xff00ff \/ c = 0x00ffff \/ c = 0xffff00
                      \/ c = 0x00ff00 \/ c = 0x4444ff)%Z)
  /\ (inheritedKey (toLowerCase cat) = false ->
      colors !! toLowerCase cat = None ->
      getCategoryColor cat = Hex 0x4444ff)
  /\ (inheritedKey (toLowerCase cat) = true ->
        getCategoryColor cat = PrototypeMember (toLowerCase cat)).
Proof.
  split; [unfold getCategoryColor; now rewrite toLowerCase_idempotent|].
  split; [|split].
  - intros Hk. unfold getCategoryColor. cbv zeta. rewrite Hk.
    destruct (colors_lookup (toLowerCase cat)) as [E|[E|[E|[E|E]]]]; rewrite E;
      eexists; (split; [reflexivity|]); split; try discriminate; auto 10.
  - intros Hk E. unfold getCategoryColor. cbv zeta. now rewrite E, Hk.
  - intros Hk. unfold getCategoryColor. cbv zeta.
    unfold inheritedKey in Hk. apply orb_prop in Hk as [Hk|Hk];
      apply String.eqb_eq in Hk; rewrite Hk; reflexivity.
Qed.

Lemma getCategoryColor_is_a_known_colour_witness :
  inheritedKey (toLowerCase "HVAC") = false
  /\ exists c, getCategoryColor "HVAC" = Hex c /\ c <> 0%Z.
Proof.
  assert (H : inheritedKey (toLowerCase "HVAC") = false) by reflexivity.
  split; [exact H|].
  destruct (proj1 (proj2 (getCategoryColor_is_a_known_colour "HVAC")) H)
    as (c & E & Hc & _).
  exists c. split; [exact E | exact Hc].
Defined.

(** ** Lines under search and over time *)

(** X17. A search dims every line.  On a dataset that follows the schema
    and whose nodes all carry their [categories] and [similar_words] arrays
    (so that the search does not throw, and only strings enter
    [highlightedWords]), after the load (and any frames and inputs), typing a
    text whose trimmed lower-case form is not empty puts
    every line at opacity 0.02 and line width 1, also the lines between two
    matched words: [applyHighlighting] reads the end points from
    [userData.from] and [userData.to], which no line carries.  The lines are
    those built by the load. *)
Theorem search_dims_every_line
    (words : list WordObj) (evs : list Event) (value : string) :
  Forall userEvent evs -> Forall complete words ->
  trim (toLowerCase value) <> EmptyString ->
  let st' := fst (onSearchInput value (loadedState words evs)) in
  map line_userData (connections st')
  = map line_userData (semanticConnections 0.55 (normalizeData words))
  /\ forall l, In l (connections st') ->
       line_opacity l = 0.02 /\ line_linewidth l = Some 1%Z.
Proof.
  intros Hev Hall Hq st'.
  destruct (search_after_load words evs value Hev Hall Hq) as (hl & E & _).
  destruct (loadedState_sameScene words evs Hev) as (_ & _ & _ & S4 & _).
  rewrite loadWordEmbeddings_fresh in S4.
  cbn [fst connections set_loadingVisible set_signals set_connections] in S4.
  unfold st'. rewrite E. cbn [fst]. unfold applyHighlighting.
  cbn [connections set_connections set_wordLabels set_wordNodes
       set_highlightedWords set_searchQuery].
  split; [rewrite map_restyle_proj by reflexivity; exact S4|].
  intros l Hin. apply in_map_iff in Hin as (l0 & <- & Hl0).
  assert (Hk : noFromTo l0).
  { apply (in_map line_userData) in Hl0. rewrite S4 in Hl0.
    apply in_map_iff in Hl0 as (l1 & Hu & Hl1).
    apply in_semanticConnections_new in Hl1 as (w & t & name & ->).
    unfold noFromTo. rewrite <- Hu. split; reflexivity. }
  destruct Hk as [Hf Ht]. unfold highlightLine.
  cbn [line_opacity line_linewidth]. rewrite Hf. split; reflexivity.
Qed.

Lemma search_dims_every_line_witness :
  (Forall userEvent [Frame 0 None] /\ Forall complete sceneWords
   /\ trim (toLowerCase "x") <> EmptyString)
  /\ map line_userData
       (connections (fst (onSearchInput "x" (loadedState sceneWords [Frame 0 None]))))
     = map line_userData (semanticConnections 0.55 (normalizeData sceneWords)).
Proof.
  assert (H1 : Forall userEvent [Frame 0 None]).
  { apply List.Forall_cons; [exact I | apply List.Forall_nil]. }
  assert (H3 : trim (toLowerCase "x") <> EmptyString) by discriminate.
  split; [split; [exact H1 | split; [exact sceneWords_complete | exact H3]]|].
  apply (search_dims_every_line sceneWords [Frame 0 None] "x"
           H1 sceneWords_complete H3).
Defined.

(** X18. The opacity of a line stays between 0.02 and 1.  Whatever loads,
    frames (with a sine in [[-1, 1]]) and search inputs the engine has
    served since its construction, every line has an opacity of at least
    0.02 and at most 1. *)
Theorem line_opacity_stays_in_range (evs : list Event) :
  Forall sineOk evs ->
  Forall (fun l => 0.02 <= line_opacity l <= 1) (connections (run evs newEngine)).
Proof.
  intros Hev.
  apply (run_lines (fun l => 0.02 <= line_opacity l <= 1) (fun s => -1 <= s <= 1)).
  - intros w t name. cbn [line_opacity newConnection]. split; discriminate.
  - intros l _. cbn [line_opacity setLineOpacity]. split; discriminate.
  - intros s l Hs _. cbn [line_opacity setLineOpacity].
    pose proof (breathing_range s Hs). lra.
  - intros hl l _. cbn [line_opacity highlightLine].
    destruct (_ && _); split; discriminate.
  - intros l _. cbn [line_opacity setLineGlow].
    repeat split; discriminate.
  - exact Hev.
  - constructor.
Qed.

Lemma line_opacity_stays_in_range_witness :
  Forall sineOk [Loaded (Document (Some sceneWords)); Frame 1 (Some 0%nat);
                 Input "x"; Frame (-1) None]
  /\ Forall (fun l => 0.02 <= line_opacity l <= 1)
       (connections (run [Loaded (Document (Some sceneWords)); Frame 1 (Some 0%nat);
                          Input "x"; Frame (-1) None] newEngine)).
Proof.
  assert (H : Forall sineOk [Loaded (Document (Some sceneWords)); Frame 1 (Some 0%nat);
                             Input "x"; Frame (-1) None]).
  { apply List.Forall_cons; [exact I|].
    apply List.Forall_cons; [split; discriminate|].
    apply List.Forall_cons; [exact I|].
    apply List.Forall_cons; [split; discriminate|]. apply List.Forall_nil. }
  split; [exact H|]. apply (line_opacity_stays_in_range _ H).
Defined.
